(** * Voice input pipeline of the Flip frontend (hooks/use-voice-input)

    A shallow embedding of the capture pipeline of [useVoiceInput]:
    the transcript merger, the resampler, the PCM encoder, the voice
    activity detector and the streaming session, with the chat input
    that calls the hook, followed by the properties the specification
    states about them and by further properties of the code.

    JavaScript strings are sequences of UTF-16 code units, numbers that
    drive control flow (sample rates, buffer offsets, lengths) are IEEE-754
    binary64 values, amplitudes are rationals on which every operation
    rounds as binary64 or binary32 arithmetic does, and the hook's refs
    and React state are the fields of one record threaded through the
    event handlers. *)

From Stdlib Require Import List Bool Arith ZArith NArith Lia.
From Stdlib Require Import Ascii.
From Stdlib Require String.
From Stdlib Require Import QArith Qround Qminmax Qabs Qpower Qreduction Lqa.
From Stdlib Require Import Uint63 Floats.
Import ListNotations.

Close Scope Q_scope.

(** ** JavaScript strings *)

Module JsString.

Definition code_unit := N.
Definition jsstring := list code_unit.

(** A string literal of the development, read as its code units
    (one unit per ASCII character). *)
Definition js (s : String.string) : jsstring :=
  map N_of_ascii (String.list_ascii_of_string s).
Arguments js s%_string_scope.

(** [WhiteSpace] and [LineTerminator] of ECMAScript, the code units that
    [String.prototype.trim] strips: TAB, LF, VT, FF, CR, SP, NBSP, the
    Unicode space separators, LS, PS and the byte order mark. *)
Definition is_white_space (c : code_unit) : bool :=
  ((9 <=? c) && (c <=? 13)
   || (c =? 32) || (c =? 160) || (c =? 5760)
   || (8192 <=? c) && (c <=? 8202)
   || (c =? 8232) || (c =? 8233) || (c =? 8239) || (c =? 8287)
   || (c =? 12288) || (c =? 65279))%N.

Definition space : code_unit := 32%N.

Fixpoint trimStart (s : jsstring) : jsstring :=
  match s with
  | [] => []
  | c :: r => if is_white_space c then trimStart r else s
  end.

Fixpoint trimEnd (s : jsstring) : jsstring :=
  match s with
  | [] => []
  | c :: r =>
      match trimEnd r with
      | [] => if is_white_space c then [] else [c]
      | r' => c :: r'
      end
  end.

(** [s.trim()] *)
Definition trim (s : jsstring) : jsstring := trimEnd (trimStart s).

(** [s.startsWith(p)] *)
Fixpoint startsWith (s p : jsstring) {struct p} : bool :=
  match p with
  | [] => true
  | c :: p' =>
      match s with
      | [] => false
      | d :: s' => (d =? c)%N && startsWith s' p'
      end
  end.

(** Truthiness of a string: only the empty string is falsy. *)
Definition truthy (s : jsstring) : bool :=
  match s with [] => false | _ :: _ => true end.

(** [mergeTranscript] of [useVoiceInput]:
<<
  const cleaned = nextText.trim();
  if (!prev) return cleaned;
  if (cleaned.startsWith(prev)) return cleaned;
  if (prev.startsWith(cleaned)) return prev;
  return `${prev} ${cleaned}`.trim();
>> *)
Definition mergeTranscript (prev nextText : jsstring) : jsstring :=
  let cleaned := trim nextText in
  if negb (truthy prev) then cleaned
  else if startsWith cleaned prev then cleaned
  else if startsWith prev cleaned then prev
  else trim (prev ++ space :: cleaned).

(** *** Vocabulary of the specification *)

(** [p] is a prefix of [s] ("[s] starts with [p]"). *)
Definition starts_with (s p : jsstring) : Prop := exists rest, s = p ++ rest.

(** The four-step merge policy of the specification, each step guarded by
    the failure of the steps before it. *)
Inductive merge_policy (previous incoming : jsstring) : jsstring -> Prop :=
| policy_first :
    previous = [] ->
    merge_policy previous incoming (trim incoming)
| policy_supersede :
    previous <> [] ->
    starts_with (trim incoming) previous ->
    merge_policy previous incoming (trim incoming)
| policy_stale :
    previous <> [] ->
    ~ starts_with (trim incoming) previous ->
    starts_with previous (trim incoming) ->
    merge_policy previous incoming previous
| policy_disjoint :
    previous <> [] ->
    ~ starts_with (trim incoming) previous ->
    ~ starts_with previous (trim incoming) ->
    merge_policy previous incoming
      (trim (previous ++ space :: trim incoming)).

(** First code unit is whitespace. *)
Definition leading_ws (s : jsstring) : bool :=
  match s with [] => false | c :: _ => is_white_space c end.

(** Last code unit is whitespace. *)
Fixpoint trailing_ws (s : jsstring) : bool :=
  match s with
  | [] => false
  | [c] => is_white_space c
  | _ :: r => trailing_ws r
  end.

(** Every code unit is whitespace. *)
Definition blank (s : jsstring) : bool := forallb is_white_space s.

(** Two consecutive whitespace code units occur somewhere in [s]. *)
Fixpoint doubled_ws (s : jsstring) : bool :=
  match s with
  | [] => false
  | c :: r => is_white_space c && leading_ws r || doubled_ws r
  end.

(** *** Streams of fragments *)

(** Each fragment, once trimmed, starts with the trimmed fragment before
    it: the service re-sends the utterance as it grows. *)
Fixpoint cumulative (fragments : list jsstring) : Prop :=
  match fragments with
  | a :: (b :: _) as rest => starts_with (trim b) (trim a) /\ cumulative rest
  | _ => True
  end.

(** The transcript after the fragments were merged in, one by one. *)
Definition merge_all (prev : jsstring) (fragments : list jsstring) : jsstring :=
  fold_left mergeTranscript fragments prev.

End JsString.

(** ** Audio: resampler and PCM encoder *)

Module Audio.
Local Open Scope Q_scope.

(** *** Amplitudes

    The elements of a [Float32Array] and the Numbers computed from them
    are kept as rationals extended with the IEEE-754 special values; the
    two zeros are one value. Reading an element is exact, and every
    operation on amplitudes rounds its exact result to the format of its
    destination: binary64 for a Number, binary32 for the store into a
    [Float32Array]. The encoder needs no rounding, because a 24-bit
    significand times a 16-bit constant fits the 53-bit significand of a
    Number. *)
Inductive sample :=
| Real (q : Q)
| Inf (negative : bool)
| NotANumber.

(** A binary floating-point format: the bits of its significand, the
    exponent of its smallest positive value and the power of two at
    which it overflows. *)
Record format := { fmt_prec : Z; fmt_emin : Z; fmt_emax : Z }.

Definition binary64 : format :=
  {| fmt_prec := 53; fmt_emin := -1074; fmt_emax := 1024 |}.

Definition binary32 : format :=
  {| fmt_prec := 24; fmt_emin := -149; fmt_emax := 128 |}.

(** The [e] with [2^(e-1) <= |x| < 2^e], for [x] other than 0. *)
Definition magnitude (x : Q) : Z :=
  let d := (Z.log2 (Z.abs (Qnum x)) - Z.log2 (Zpos (Qden x)))%Z in
  if Qle_bool (2 ^ d) (Qabs x) then (d + 1)%Z else d.

(** The exponent of the last place of a value of magnitude [mag]. *)
Definition ulp_exponent (fmt : format) (mag : Z) : Z :=
  Z.max (mag - fmt_prec fmt) (fmt_emin fmt).

(** The integer nearest to a value with integer part [f], ties to the
    even one; [c] compares the value with [f + 1/2]. *)
Definition nearest_even (f : Z) (c : comparison) : Z :=
  match c with
  | Lt => f
  | Eq => if Z.even f then f else (f + 1)%Z
  | Gt => (f + 1)%Z
  end.

Definition round_int (y : Q) : Z :=
  nearest_even (Qfloor y) (y - inject_Z (Qfloor y) ?= 1 # 2).

(** [m * 2^e] as a value of the format, an infinity once it reaches
    [2^fmt_emax]. *)
Definition scaled (fmt : format) (negative : bool) (m e : Z) : sample :=
  let r := inject_Z m * 2 ^ e in
  if Qle_bool (2 ^ fmt_emax fmt) (Qabs r) then Inf negative else Real (Qred r).

(** The value of the format nearest to [x], ties to even. *)
Definition round (fmt : format) (x : Q) : sample :=
  let e := ulp_exponent fmt (magnitude x) in
  scaled fmt (negb (Qle_bool 0 x)) (round_int (x / 2 ^ e)) e.

(** The value of the format nearest to the square root of [v >= 0]:
    with [w = v / 4^e], the root of [w] has integer part [sqrt (floor w)]
    and lies below [f + 1/2] when [w] lies below its square. *)
Definition round_sqrt (fmt : format) (v : Q) : sample :=
  let e := ulp_exponent fmt ((magnitude v + 1) / 2) in
  let w := v / 2 ^ (2 * e) in
  let f := Z.sqrt (Qfloor w) in
  let h := inject_Z f + (1 # 2) in
  scaled fmt false (nearest_even f (w ?= h * h)) e.

(** [a + b] *)
Definition sample_add (a b : sample) : sample :=
  match a, b with
  | NotANumber, _ | _, NotANumber => NotANumber
  | Real x, Real y => round binary64 (x + y)
  | Inf s, Real _ => Inf s
  | Real _, Inf s => Inf s
  | Inf s, Inf t => if Bool.eqb s t then Inf s else NotANumber
  end.

(** [a * a] *)
Definition sample_square (a : sample) : sample :=
  match a with
  | Real x => round binary64 (x * x)
  | Inf _ => Inf false
  | NotANumber => NotANumber
  end.

(** [a / n] for a count [n >= 1]. *)
Definition sample_div (a : sample) (n : nat) : sample :=
  match a with
  | Real x => round binary64 (x / inject_Z (Z.of_nat n))
  | other => other
  end.

(** [Math.sqrt(a)] *)
Definition sample_sqrt (a : sample) : sample :=
  match a with
  | Real x => if Qle_bool 0 x then round_sqrt binary64 x else NotANumber
  | Inf false => Inf false
  | Inf true | NotANumber => NotANumber
  end.

(** The store of a Number into an element of a [Float32Array]. *)
Definition to_float32 (a : sample) : sample :=
  match a with
  | Real x => round binary32 x
  | other => other
  end.

(** *** Numbers that drive control flow

    Sample rates, the rate ratio and every quantity derived from it are
    binary64 values (JavaScript Numbers), computed with the IEEE-754
    operations of [PrimFloat]. *)

(** A buffer length or loop counter as a Number; exact below 2^53. *)
Definition of_nat (n : nat) : float :=
  PrimFloat.of_uint63 (Uint63.of_Z (Z.of_nat n)).

(** The result of [Math.round]: an integral Number, an infinity or NaN. *)
Inductive jsint :=
| RInt (z : Z)
| RPosInf
| RNegInf
| RNaN.

(** The integer closest to [(-1)^s * m * 2^e], ties towards +infinity. *)
Definition round_half_up (s : bool) (m : positive) (e : Z) : Z :=
  let v := if s then Z.neg m else Z.pos m in
  match e with
  | Zneg p => (2 * v + Z.pow_pos 2 p) / (2 * Z.pow_pos 2 p)
  | Z0 => v
  | Zpos p => v * Z.pow_pos 2 p
  end.

Definition round_sf (x : spec_float) : jsint :=
  match x with
  | S754_zero _ => RInt 0
  | S754_infinity s => if s then RNegInf else RPosInf
  | S754_nan => RNaN
  | S754_finite s m e => RInt (round_half_up s m e)
  end.

(** [Math.round(x)] *)
Definition Math_round (x : float) : jsint := round_sf (Prim2SF x).

(** [i < n] for an integer [i] and a rounded Number [n]. *)
Definition int_lt (i : Z) (n : jsint) : bool :=
  match n with
  | RInt h => (i <? h)%Z
  | RPosInf => true
  | RNegInf | RNaN => false
  end.

(** The longest array [ToIndex] accepts: 2^53 - 1 elements. *)
Definition MAX_SAFE_LENGTH : N := 9007199254740991.

(** The length of [new Float32Array(n)]: [ToIndex] maps NaN to 0 and
    rejects a length that is negative or above 2^53 - 1 with a
    [RangeError], and so does the engine for a length above [limit], the
    longest array it can allocate, which ECMAScript leaves to it. *)
Definition array_length (limit : N) (n : jsint) : option nat :=
  match n with
  | RInt z =>
      if (0 <=? z)%Z && (z <=? Z.of_N (N.min limit MAX_SAFE_LENGTH))%Z
      then Some (Z.to_nat z) else None
  | RNaN => Some 0%nat
  | RPosInf | RNegInf => None
  end.

(** How a call ends. *)
Inductive outcome (A : Type) :=
| Returns (a : A)
| Throws
| Diverges.
Arguments Returns {A} a.
Arguments Throws {A}.
Arguments Diverges {A}.

(** [buffer[i]] as an addend: an index outside the array reads
    [undefined], and [accum += undefined] is NaN. *)
Definition buffer_get (buffer : list sample) (i : Z) : sample :=
  if (i <? 0)%Z then NotANumber
  else nth (Z.to_nat i) buffer NotANumber.

(** The inner loop from an integer start:
<<
  for (let i = offsetBuffer; i < nextOffsetBuffer && i < buffer.length; i++) {
    accum += buffer[i];
    count++;
  }
>>
    [steps] bounds the iterations; [buffer.length - offsetBuffer] of them
    always suffice. *)
Fixpoint for_block (buffer : list sample) (nextOffsetBuffer : jsint)
    (steps : nat) (i : Z) (accum : sample) (count : nat) : sample * nat :=
  match steps with
  | O => (accum, count)
  | S steps' =>
      if int_lt i nextOffsetBuffer && (i <? Z.of_nat (length buffer))%Z
      then for_block buffer nextOffsetBuffer steps' (i + 1)%Z
             (sample_add accum (buffer_get buffer i)) (S count)
      else (accum, count)
  end.

(** The inner loop from any start value, with [accum = 0] and
    [count = 0]. A NaN or +infinity start fails the loop test at once; a
    -infinity start passes it forever unless the block end fails it. *)
Definition block (buffer : list sample) (offsetBuffer nextOffsetBuffer : jsint)
  : option (sample * nat) :=
  match offsetBuffer with
  | RInt z =>
      Some (for_block buffer nextOffsetBuffer
              (Z.to_nat (Z.of_nat (length buffer) - z)) z (Real 0) 0%nat)
  | RPosInf | RNaN => Some (Real 0, 0%nat)
  | RNegInf =>
      match nextOffsetBuffer with
      | RInt _ | RPosInf => None
      | RNegInf | RNaN => Some (Real 0, 0%nat)
      end
  end.

(** The outer loop, with [remaining = result.length - offsetResult]:
<<
  while (offsetResult < result.length) {
    const nextOffsetBuffer = Math.round((offsetResult + 1) * sampleRateRatio);
    let accum = 0; let count = 0;
    for (...) {...}
    result[offsetResult] = accum / Math.max(1, count);
    offsetResult++;
    offsetBuffer = nextOffsetBuffer;
  }
>> *)
Fixpoint fill (buffer : list sample) (sampleRateRatio : float)
    (remaining offsetResult : nat) (offsetBuffer : jsint)
  : outcome (list sample) :=
  match remaining with
  | O => Returns []
  | S remaining' =>
      let nextOffsetBuffer :=
        Math_round (of_nat (S offsetResult) * sampleRateRatio)%float in
      match block buffer offsetBuffer nextOffsetBuffer with
      | None => Diverges
      | Some (accum, count) =>
          match fill buffer sampleRateRatio remaining' (S offsetResult)
                  nextOffsetBuffer with
          | Returns rest =>
              Returns (to_float32 (sample_div accum (Nat.max 1 count)) :: rest)
          | Throws => Throws
          | Diverges => Diverges
          end
      end
  end.

(** [downsampleBuffer(buffer, inputSampleRate, outputSampleRate)] in an
    engine that allocates arrays of up to [limit] elements. *)
Definition downsampleBuffer (limit : N) (buffer : list sample)
    (inputSampleRate outputSampleRate : float) : outcome (list sample) :=
  if (outputSampleRate =? inputSampleRate)%float then Returns buffer
  else
    let sampleRateRatio := (inputSampleRate / outputSampleRate)%float in
    let newLength := Math_round (of_nat (length buffer) / sampleRateRatio)%float in
    match array_length limit newLength with
    | None => Throws
    | Some n => fill buffer sampleRateRatio n 0%nat (RInt 0)
    end.

(** *** PCM encoder *)

(** [Math.min(1, x)] *)
Definition min_one (x : sample) : sample :=
  match x with
  | Real q => Real (Qmin 1 q)
  | Inf true => Inf true
  | Inf false => Real 1
  | NotANumber => NotANumber
  end.

(** [Math.max(-1, x)] *)
Definition max_minus_one (x : sample) : sample :=
  match x with
  | Real q => Real (Qmax (-1) q)
  | Inf true => Real (-1)
  | Inf false => Inf false
  | NotANumber => NotANumber
  end.

(** [s < 0 ? s * 0x8000 : s * 0x7fff] *)
Definition scale (s : sample) : sample :=
  match s with
  | Real q => if Qlt_le_dec q 0 then Real (q * 32768) else Real (q * 32767)
  | Inf _ => s
  | NotANumber => NotANumber
  end.

(** Truncation towards zero. *)
Definition Qtruncate (q : Q) : Z :=
  if Qlt_le_dec q 0 then Qceiling q else Qfloor q.

(** Two's-complement wrap of an integer into 16 bits. *)
Definition wrap16 (z : Z) : Z := ((z + 32768) mod 65536 - 32768)%Z.

(** The store into an [Int16Array] element ([ToInt16]): NaN and the
    infinities become 0, a finite value is truncated and wrapped. *)
Definition to_int16 (x : sample) : Z :=
  match x with
  | Real q => wrap16 (Qtruncate q)
  | Inf _ | NotANumber => 0%Z
  end.

(** [floatTo16BitPCM(input)] *)
Definition floatTo16BitPCM (input : list sample) : list Z :=
  map (fun x => to_int16 (scale (max_minus_one (min_one x)))) input.

(** *** Frame energy *)

(** [sumSquares] after the loop [sumSquares += input[i] * input[i]]. *)
Definition sum_squares (input : list sample) : sample :=
  fold_left (fun acc x => sample_add acc (sample_square x)) input (Real 0).

(** [Math.sqrt(sumSquares / input.length)]; an empty frame gives 0/0,
    which is NaN. *)
Definition rms (input : list sample) : sample :=
  match length input with
  | O => NotANumber
  | S _ => sample_sqrt (sample_div (sum_squares input) (length input))
  end.

(** [x > threshold]; NaN compares false. *)
Definition exceeds (x : sample) (threshold : Q) : bool :=
  match x with
  | Real r => negb (Qle_bool r threshold)
  | Inf negative => negb negative
  | NotANumber => false
  end.

(** [rms > threshold] *)
Definition rms_exceeds (input : list sample) (threshold : Q) : bool :=
  exceeds (rms input) threshold.

(** *** Vocabulary of the specification *)

(** An amplitude in the nominal range [-1, 1]. *)
Definition unit_range (x : sample) : Prop :=
  match x with
  | Real q => -1 <= q <= 1
  | _ => False
  end.

(** The samples of [buffer] at the indices [lo, lo + len), as far as
    the buffer has them. *)
Definition slice (buffer : list sample) (lo len : nat) : list sample :=
  firstn len (skipn lo buffer).

(** The samples that output sample [j] averages, as the specification
    has them: those at the indices from [round(j * ratio)] up to, but not
    including, [round((j + 1) * ratio)]. *)
Definition block_of (buffer : list sample) (ratio : float) (j : nat)
  : list sample :=
  match Math_round (of_nat j * ratio)%float,
        Math_round (of_nat (S j) * ratio)%float with
  | RInt lo, RInt hi => slice buffer (Z.to_nat lo) (Z.to_nat (hi - lo))
  | RInt lo, RPosInf => skipn (Z.to_nat lo) buffer
  | _, _ => []
  end.

(** The mean of a block in the arithmetic of the code: the sum is
    accumulated in binary64 from 0, divided in binary64 by the number of
    samples, or by 1 when there is none, and stored as binary32. *)
Definition block_mean (blk : list sample) : sample :=
  to_float32
    (sample_div (fold_left sample_add blk (Real 0))
       (Nat.max 1 (length blk))).

(** [x] is NaN or carries the sign bit [b]. *)
Definition sf_sign_is (b : bool) (x : spec_float) : Prop :=
  match x with
  | S754_zero s | S754_infinity s | S754_finite s _ _ => s = b
  | S754_nan => True
  end.

(** A rounded Number that is not below zero. *)
Definition jsint_nonneg (r : jsint) : Prop :=
  match r with
  | RInt z => (0 <= z)%Z
  | RPosInf | RNaN => True
  | RNegInf => False
  end.

(** The exact value of a finite Number. *)
Definition value (x : float) : option Q :=
  match Prim2SF x with
  | S754_zero _ => Some 0
  | S754_finite s m e =>
      let v := if s then Z.neg m else Z.pos m in
      Some (match e with
            | Zneg p => v # (2 ^ p)
            | Z0 => inject_Z v
            | Zpos p => inject_Z (v * Z.pow_pos 2 p)
            end)
  | _ => None
  end.

(** The amplitude a Number holds. *)
Definition amplitude (x : float) : sample :=
  match Prim2SF x with
  | S754_zero _ => Real 0
  | S754_finite s m e =>
      Real (inject_Z (if s then Z.neg m else Z.pos m) * 2 ^ e)
  | S754_infinity s => Inf s
  | S754_nan => NotANumber
  end.

(** Two amplitudes are the same number. *)
Definition same_amplitude (a b : sample) : bool :=
  match a, b with
  | Real p, Real q => Qeq_bool p q
  | Inf s, Inf t => Bool.eqb s t
  | NotANumber, NotANumber => true
  | _, _ => false
  end.

(** The length the specification gives the resampled buffer:
    [round(N * R_out / R_in)], in exact arithmetic, ties upwards. *)
Definition length_law (N : nat) (R_in R_out : Q) : Z :=
  Qfloor (inject_Z (Z.of_nat N) * R_out / R_in + (1 # 2)).

(** A sample rate of [r] hertz as a Number. *)
Definition hertz (r : Z) : float := PrimFloat.of_uint63 (Uint63.of_Z r).

(** The sample rates of audio hardware, in hertz. *)
Definition device_rates : list Z :=
  [8000; 11025; 12000; 16000; 22050; 24000; 32000; 44100; 48000; 64000;
   88200; 96000; 176400; 192000; 352800; 384000]%Z.

(** The buffer sizes of a [ScriptProcessorNode]; the hook asks for
    4096. *)
Definition buffer_sizes : list Z :=
  [256; 512; 1024; 2048; 4096; 8192; 16384]%Z.

(** [newLength] for a buffer of [n] samples, or [n] at equal rates. *)
Definition resampled_length (n : Z) (R_in R_out : float) : jsint :=
  if (R_out =? R_in)%float then RInt n
  else Math_round (hertz n / (R_in / R_out))%float.

(** The resampler gives [n] samples from [R_in] to [R_out] hertz the
    length of the specification, which is a length [ToIndex] accepts. *)
Definition keeps_length_law (R_in R_out : Z) (n : Z) : bool :=
  let law :=
    Qfloor (inject_Z n * inject_Z R_out / inject_Z R_in + (1 # 2)) in
  match resampled_length n (hertz R_in) (hertz R_out) with
  | RInt z => (z =? law)%Z && (0 <=? z)%Z && (z <=? Z.of_N MAX_SAFE_LENGTH)%Z
  | _ => false
  end.

(** The encoder as the specification words it: clamp to [-1, 1], scale
    negative values by 32768 and the others by 32767, keep the integer
    part. *)
Definition pcm_value (x : sample) : Z :=
  match x with
  | Real q =>
      let s := Qmax (-1) (Qmin 1 q) in
      if Qlt_le_dec s 0 then Qceiling (s * 32768) else Qfloor (s * 32767)
  | Inf true => (-32768)%Z
  | Inf false => 32767%Z
  | NotANumber => 0%Z
  end.

(** *** Order and magnitude of amplitudes *)

(** [a <= b] on amplitudes, neither of them NaN. *)
Definition sample_le (a b : sample) : Prop :=
  match a, b with
  | NotANumber, _ | _, NotANumber => False
  | Inf true, _ => True
  | _, Inf false => True
  | Real x, Real y => x <= y
  | _, _ => False
  end.

(** Full scale or above. *)
Definition at_least_one (x : sample) : Prop :=
  match x with
  | Real q => 1 <= q
  | Inf negative => negative = false
  | NotANumber => False
  end.

(** Negative full scale or below. *)
Definition at_most_minus_one (x : sample) : Prop :=
  match x with
  | Real q => q <= -1
  | Inf negative => negative = true
  | NotANumber => False
  end.

(** A finite amplitude of magnitude at most [t]. *)
Definition within (t : Q) (x : sample) : Prop :=
  match x with
  | Real q => - t <= q <= t
  | _ => False
  end.

(** A finite amplitude of magnitude above [t]. *)
Definition beyond (t : Q) (x : sample) : Prop :=
  match x with
  | Real q => t < q \/ q < - t
  | _ => False
  end.

(** The 16-bit sample [z] is the amplitude [q] to within one step of its
    scale: 1/32768 below zero, 1/32767 from zero up, never beyond [q]
    in magnitude. *)
Definition quantised (q : Q) (z : Z) : Prop :=
  (q < 0 -> -1 < q * 32768 - inject_Z z <= 0) /\
  (0 <= q -> 0 <= q * 32767 - inject_Z z < 1).

End Audio.

(** ** The streaming session

    The hook [useVoiceInput] as a state machine. One record holds the
    React state, the refs and the part of the browser the hook talks to
    (sockets, audio nodes, suspended calls, and the log of what the hook
    did to the outside). Every callback of the hook is a function on that
    record; an asynchronous function is cut at each [await] that can let
    other callbacks run. React state is read as of its latest update, and
    state updater functions run when they are given. *)

Module Session.
Import JsString Audio String.StringSyntax.

(** The repository has the hook in two variants: the earlier one has no
    voice activity detection and no re-entrancy test in [stopRecording];
    the later one adds both. The model is the later variant; under
    [Plain] it runs without the re-entrancy test, the interval and the
    options, and the refs that only the later variant has are written
    but never used. *)
Inductive variant := Plain | WithVad.

Inductive stop_reason := Manual | Vad.

(** [WebSocket.readyState] *)
Inductive ready_state := CONNECTING | OPEN | CLOSING | CLOSED.

(** [event.data] of an inbound message: not a string, a string that
    [JSON.parse] rejects (or that parses to a value without properties),
    or an object. Of an object the handler compares [type] and [text]
    with strings only: they are kept when they are strings. Its
    [detail] becomes the message of an [Error] when it is truthy, as the
    string [ToString] turns it into: a non-empty string is kept as it
    is, [42] gives ["42"], and a missing, [null], [false], [0] or empty
    detail is [None]. *)
Inductive ws_data :=
| NotAString
| Unparseable
| Parsed (type text detail : option jsstring).

(** What the hook sends on the socket. *)
Inductive message :=
| EndOfStream
| PcmFrame (samples : list Z).

(** What the hook does to the outside. *)
Inductive effect :=
| ProcessorDisconnect (p : nat)
| AudioContextClose (c : nat)
| TracksStop (k : nat)
| Send (ws : nat) (m : message)
| SocketClose (ws : nat)
| OnTranscript (text : jsstring)
| OnFinalTranscript (text : jsstring)
| OnAutoStop (text : jsstring)
| StopReturn (call : nat) (text : jsstring).

(** A script processor node: whether [onaudioprocess] is set, and the
    sample rate of its audio context. *)
Record processor := {
  onaudioprocess : bool;
  sampleRate : float
}.

(** What runs after [await cleanupAudio()]: nothing more, or the rest of
    the [stopRecording] call numbered [call]. *)
Inductive continuation :=
| ThenNothing
| ThenFinalize (reason : stop_reason) (call : nat).

(** A [stopRecording] call suspended on its [finalizePromise], with the
    socket it read from [wsRef] before suspending. *)
Record pending_stop := {
  ps_call : nat;
  ps_reason : stop_reason;
  ps_ws : option nat
}.

Record session := {
  (* which variant of the hook is mounted *)
  hook : variant;
  (* React state *)
  isRecording : bool;
  isConnecting : bool;
  transcript : jsstring;
  error : option jsstring;
  (* refs *)
  wsRef : option nat;
  audioContextRef : option nat;
  processorRef : option nat;
  streamRef : option nat;
  transcriptRef : jsstring;
  finalizeRef : option nat;
  socketReadyRef : bool;
  isRecordingRef : bool;
  vadEnabledRef : bool;
  vadSilenceMsRef : Z;
  vadThresholdRef : Q;
  lastVoiceAtRef : Z;
  hasVoiceRef : bool;
  vadIntervalRef : option nat;
  stoppingRef : bool;
  (* the world around the hook *)
  sockets : list ready_state;
  processors : list processor;
  pendingStarts : nat;
  cleanups : list (option continuation);
  promises : list (option pending_stop);
  nextCall : nat;
  nextInterval : nat;
  log : list effect
}.

(** Assignments to one field, the others kept. *)
Definition set_isRecording (v : bool) (s : session) : session :=
  {| hook := hook s; isRecording := v; isConnecting := isConnecting s;
     transcript := transcript s; error := error s; wsRef := wsRef s;
     audioContextRef := audioContextRef s; processorRef := processorRef s;
     streamRef := streamRef s; transcriptRef := transcriptRef s; finalizeRef
     := finalizeRef s; socketReadyRef := socketReadyRef s; isRecordingRef :=
     isRecordingRef s; vadEnabledRef := vadEnabledRef s; vadSilenceMsRef :=
     vadSilenceMsRef s; vadThresholdRef := vadThresholdRef s; lastVoiceAtRef
     := lastVoiceAtRef s; hasVoiceRef := hasVoiceRef s; vadIntervalRef :=
     vadIntervalRef s; stoppingRef := stoppingRef s; sockets := sockets s;
     processors := processors s; pendingStarts := pendingStarts s; cleanups
     := cleanups s; promises := promises s; nextCall := nextCall s;
     nextInterval := nextInterval s; log := log s |}.
Definition set_isConnecting (v : bool) (s : session) : session :=
  {| hook := hook s; isRecording := isRecording s; isConnecting := v;
     transcript := transcript s; error := error s; wsRef := wsRef s;
     audioContextRef := audioContextRef s; processorRef := processorRef s;
     streamRef := streamRef s; transcriptRef := transcriptRef s; finalizeRef
     := finalizeRef s; socketReadyRef := socketReadyRef s; isRecordingRef :=
     isRecordingRef s; vadEnabledRef := vadEnabledRef s; vadSilenceMsRef :=
     vadSilenceMsRef s; vadThresholdRef := vadThresholdRef s; lastVoiceAtRef
     := lastVoiceAtRef s; hasVoiceRef := hasVoiceRef s; vadIntervalRef :=
     vadIntervalRef s; stoppingRef := stoppingRef s; sockets := sockets s;
     processors := processors s; pendingStarts := pendingStarts s; cleanups
     := cleanups s; promises := promises s; nextCall := nextCall s;
     nextInterval := nextInterval s; log := log s |}.
Definition set_transcript (v : jsstring) (s : session) : session :=
  {| hook := hook s; isRecording := isRecording s; isConnecting :=
     isConnecting s; transcript := v; error := error s; wsRef := wsRef s;
     audioContextRef := audioContextRef s; processorRef := processorRef s;
     streamRef := streamRef s; transcriptRef := transcriptRef s; finalizeRef
     := finalizeRef s; socketReadyRef := socketReadyRef s; isRecordingRef :=
     isRecordingRef s; vadEnabledRef := vadEnabledRef s; vadSilenceMsRef :=
     vadSilenceMsRef s; vadThresholdRef := vadThresholdRef s; lastVoiceAtRef
     := lastVoiceAtRef s; hasVoiceRef := hasVoiceRef s; vadIntervalRef :=
     vadIntervalRef s; stoppingRef := stoppingRef s; sockets := sockets s;
     processors := processors s; pendingStarts := pendingStarts s; cleanups
     := cleanups s; promises := promises s; nextCall := nextCall s;
     nextInterval := nextInterval s; log := log s |}.
Definition set_error (v : option jsstring) (s : session) : session :=
  {| hook := hook s; isRecording := isRecording s; isConnecting :=
     isConnecting s; transcript := transcript s; error := v; wsRef := wsRef
     s; audioContextRef := audioContextRef s; processorRef := processorRef
     s; streamRef := streamRef s; transcriptRef := transcriptRef s;
     finalizeRef := finalizeRef s; socketReadyRef := socketReadyRef s;
     isRecordingRef := isRecordingRef s; vadEnabledRef := vadEnabledRef s;
     vadSilenceMsRef := vadSilenceMsRef s; vadThresholdRef :=
     vadThresholdRef s; lastVoiceAtRef := lastVoiceAtRef s; hasVoiceRef :=
     hasVoiceRef s; vadIntervalRef := vadIntervalRef s; stoppingRef :=
     stoppingRef s; sockets := sockets s; processors := processors s;
     pendingStarts := pendingStarts s; cleanups := cleanups s; promises :=
     promises s; nextCall := nextCall s; nextInterval := nextInterval s; log
     := log s |}.
Definition set_wsRef (v : option nat) (s : session) : session :=
  {| hook := hook s; isRecording := isRecording s; isConnecting :=
     isConnecting s; transcript := transcript s; error := error s; wsRef :=
     v; audioContextRef := audioContextRef s; processorRef := processorRef
     s; streamRef := streamRef s; transcriptRef := transcriptRef s;
     finalizeRef := finalizeRef s; socketReadyRef := socketReadyRef s;
     isRecordingRef := isRecordingRef s; vadEnabledRef := vadEnabledRef s;
     vadSilenceMsRef := vadSilenceMsRef s; vadThresholdRef :=
     vadThresholdRef s; lastVoiceAtRef := lastVoiceAtRef s; hasVoiceRef :=
     hasVoiceRef s; vadIntervalRef := vadIntervalRef s; stoppingRef :=
     stoppingRef s; sockets := sockets s; processors := processors s;
     pendingStarts := pendingStarts s; cleanups := cleanups s; promises :=
     promises s; nextCall := nextCall s; nextInterval := nextInterval s; log
     := log s |}.
Definition set_audioContextRef (v : option nat) (s : session) : session :=
  {| hook := hook s; isRecording := isRecording s; isConnecting :=
     isConnecting s; transcript := transcript s; error := error s; wsRef :=
     wsRef s; audioContextRef := v; processorRef := processorRef s;
     streamRef := streamRef s; transcriptRef := transcriptRef s; finalizeRef
     := finalizeRef s; socketReadyRef := socketReadyRef s; isRecordingRef :=
     isRecordingRef s; vadEnabledRef := vadEnabledRef s; vadSilenceMsRef :=
     vadSilenceMsRef s; vadThresholdRef := vadThresholdRef s; lastVoiceAtRef
     := lastVoiceAtRef s; hasVoiceRef := hasVoiceRef s; vadIntervalRef :=
     vadIntervalRef s; stoppingRef := stoppingRef s; sockets := sockets s;
     processors := processors s; pendingStarts := pendingStarts s; cleanups
     := cleanups s; promises := promises s; nextCall := nextCall s;
     nextInterval := nextInterval s; log := log s |}.
Definition set_processorRef (v : option nat) (s : session) : session :=
  {| hook := hook s; isRecording := isRecording s; isConnecting :=
     isConnecting s; transcript := transcript s; error := error s; wsRef :=
     wsRef s; audioContextRef := audioContextRef s; processorRef := v;
     streamRef := streamRef s; transcriptRef := transcriptRef s; finalizeRef
     := finalizeRef s; socketReadyRef := socketReadyRef s; isRecordingRef :=
     isRecordingRef s; vadEnabledRef := vadEnabledRef s; vadSilenceMsRef :=
     vadSilenceMsRef s; vadThresholdRef := vadThresholdRef s; lastVoiceAtRef
     := lastVoiceAtRef s; hasVoiceRef := hasVoiceRef s; vadIntervalRef :=
     vadIntervalRef s; stoppingRef := stoppingRef s; sockets := sockets s;
     processors := processors s; pendingStarts := pendingStarts s; cleanups
     := cleanups s; promises := promises s; nextCall := nextCall s;
     nextInterval := nextInterval s; log := log s |}.
Definition set_streamRef (v : option nat) (s : session) : session :=
  {| hook := hook s; isRecording := isRecording s; isConnecting :=
     isConnecting s; transcript := transcript s; error := error s; wsRef :=
     wsRef s; audioContextRef := audioContextRef s; processorRef :=
     processorRef s; streamRef := v; transcriptRef := transcriptRef s;
     finalizeRef := finalizeRef s; socketReadyRef := socketReadyRef s;
     isRecordingRef := isRecordingRef s; vadEnabledRef := vadEnabledRef s;
     vadSilenceMsRef := vadSilenceMsRef s; vadThresholdRef :=
     vadThresholdRef s; lastVoiceAtRef := lastVoiceAtRef s; hasVoiceRef :=
     hasVoiceRef s; vadIntervalRef := vadIntervalRef s; stoppingRef :=
     stoppingRef s; sockets := sockets s; processors := processors s;
     pendingStarts := pendingStarts s; cleanups := cleanups s; promises :=
     promises s; nextCall := nextCall s; nextInterval := nextInterval s; log
     := log s |}.
Definition set_transcriptRef (v : jsstring) (s : session) : session :=
  {| hook := hook s; isRecording := isRecording s; isConnecting :=
     isConnecting s; transcript := transcript s; error := error s; wsRef :=
     wsRef s; audioContextRef := audioContextRef s; processorRef :=
     processorRef s; streamRef := streamRef s; transcriptRef := v;
     finalizeRef := finalizeRef s; socketReadyRef := socketReadyRef s;
     isRecordingRef := isRecordingRef s; vadEnabledRef := vadEnabledRef s;
     vadSilenceMsRef := vadSilenceMsRef s; vadThresholdRef :=
     vadThresholdRef s; lastVoiceAtRef := lastVoiceAtRef s; hasVoiceRef :=
     hasVoiceRef s; vadIntervalRef := vadIntervalRef s; stoppingRef :=
     stoppingRef s; sockets := sockets s; processors := processors s;
     pendingStarts := pendingStarts s; cleanups := cleanups s; promises :=
     promises s; nextCall := nextCall s; nextInterval := nextInterval s; log
     := log s |}.
Definition set_finalizeRef (v : option nat) (s : session) : session :=
  {| hook := hook s; isRecording := isRecording s; isConnecting :=
     isConnecting s; transcript := transcript s; error := error s; wsRef :=
     wsRef s; audioContextRef := audioContextRef s; processorRef :=
     processorRef s; streamRef := streamRef s; transcriptRef :=
     transcriptRef s; finalizeRef := v; socketReadyRef := socketReadyRef s;
     isRecordingRef := isRecordingRef s; vadEnabledRef := vadEnabledRef s;
     vadSilenceMsRef := vadSilenceMsRef s; vadThresholdRef :=
     vadThresholdRef s; lastVoiceAtRef := lastVoiceAtRef s; hasVoiceRef :=
     hasVoiceRef s; vadIntervalRef := vadIntervalRef s; stoppingRef :=
     stoppingRef s; sockets := sockets s; processors := processors s;
     pendingStarts := pendingStarts s; cleanups := cleanups s; promises :=
     promises s; nextCall := nextCall s; nextInterval := nextInterval s; log
     := log s |}.
Definition set_socketReadyRef (v : bool) (s : session) : session :=
  {| hook := hook s; isRecording := isRecording s; isConnecting :=
     isConnecting s; transcript := transcript s; error := error s; wsRef :=
     wsRef s; audioContextRef := audioContextRef s; processorRef :=
     processorRef s; streamRef := streamRef s; transcriptRef :=
     transcriptRef s; finalizeRef := finalizeRef s; socketReadyRef := v;
     isRecordingRef := isRecordingRef s; vadEnabledRef := vadEnabledRef s;
     vadSilenceMsRef := vadSilenceMsRef s; vadThresholdRef :=
     vadThresholdRef s; lastVoiceAtRef := lastVoiceAtRef s; hasVoiceRef :=
     hasVoiceRef s; vadIntervalRef := vadIntervalRef s; stoppingRef :=
     stoppingRef s; sockets := sockets s; processors := processors s;
     pendingStarts := pendingStarts s; cleanups := cleanups s; promises :=
     promises s; nextCall := nextCall s; nextInterval := nextInterval s; log
     := log s |}.
Definition set_isRecordingRef (v : bool) (s : session) : session :=
  {| hook := hook s; isRecording := isRecording s; isConnecting :=
     isConnecting s; transcript := transcript s; error := error s; wsRef :=
     wsRef s; audioContextRef := audioContextRef s; processorRef :=
     processorRef s; streamRef := streamRef s; transcriptRef :=
     transcriptRef s; finalizeRef := finalizeRef s; socketReadyRef :=
     socketReadyRef s; isRecordingRef := v; vadEnabledRef := vadEnabledRef
     s; vadSilenceMsRef := vadSilenceMsRef s; vadThresholdRef :=
     vadThresholdRef s; lastVoiceAtRef := lastVoiceAtRef s; hasVoiceRef :=
     hasVoiceRef s; vadIntervalRef := vadIntervalRef s; stoppingRef :=
     stoppingRef s; sockets := sockets s; processors := processors s;
     pendingStarts := pendingStarts s; cleanups := cleanups s; promises :=
     promises s; nextCall := nextCall s; nextInterval := nextInterval s; log
     := log s |}.
Definition set_vadEnabledRef (v : bool) (s : session) : session :=
  {| hook := hook s; isRecording := isRecording s; isConnecting :=
     isConnecting s; transcript := transcript s; error := error s; wsRef :=
     wsRef s; audioContextRef := audioContextRef s; processorRef :=
     processorRef s; streamRef := streamRef s; transcriptRef :=
     transcriptRef s; finalizeRef := finalizeRef s; socketReadyRef :=
     socketReadyRef s; isRecordingRef := isRecordingRef s; vadEnabledRef :=
     v; vadSilenceMsRef := vadSilenceMsRef s; vadThresholdRef :=
     vadThresholdRef s; lastVoiceAtRef := lastVoiceAtRef s; hasVoiceRef :=
     hasVoiceRef s; vadIntervalRef := vadIntervalRef s; stoppingRef :=
     stoppingRef s; sockets := sockets s; processors := processors s;
     pendingStarts := pendingStarts s; cleanups := cleanups s; promises :=
     promises s; nextCall := nextCall s; nextInterval := nextInterval s; log
     := log s |}.
Definition set_vadSilenceMsRef (v : Z) (s : session) : session :=
  {| hook := hook s; isRecording := isRecording s; isConnecting :=
     isConnecting s; transcript := transcript s; error := error s; wsRef :=
     wsRef s; audioContextRef := audioContextRef s; processorRef :=
     processorRef s; streamRef := streamRef s; transcriptRef :=
     transcriptRef s; finalizeRef := finalizeRef s; socketReadyRef :=
     socketReadyRef s; isRecordingRef := isRecordingRef s; vadEnabledRef :=
     vadEnabledRef s; vadSilenceMsRef := v; vadThresholdRef :=
     vadThresholdRef s; lastVoiceAtRef := lastVoiceAtRef s; hasVoiceRef :=
     hasVoiceRef s; vadIntervalRef := vadIntervalRef s; stoppingRef :=
     stoppingRef s; sockets := sockets s; processors := processors s;
     pendingStarts := pendingStarts s; cleanups := cleanups s; promises :=
     promises s; nextCall := nextCall s; nextInterval := nextInterval s; log
     := log s |}.
Definition set_vadThresholdRef (v : Q) (s : session) : session :=
  {| hook := hook s; isRecording := isRecording s; isConnecting :=
     isConnecting s; transcript := transcript s; error := error s; wsRef :=
     wsRef s; audioContextRef := audioContextRef s; processorRef :=
     processorRef s; streamRef := streamRef s; transcriptRef :=
     transcriptRef s; finalizeRef := finalizeRef s; socketReadyRef :=
     socketReadyRef s; isRecordingRef := isRecordingRef s; vadEnabledRef :=
     vadEnabledRef s; vadSilenceMsRef := vadSilenceMsRef s; vadThresholdRef
     := v; lastVoiceAtRef := lastVoiceAtRef s; hasVoiceRef := hasVoiceRef s;
     vadIntervalRef := vadIntervalRef s; stoppingRef := stoppingRef s;
     sockets := sockets s; processors := processors s; pendingStarts :=
     pendingStarts s; cleanups := cleanups s; promises := promises s;
     nextCall := nextCall s; nextInterval := nextInterval s; log := log s
     |}.
Definition set_lastVoiceAtRef (v : Z) (s : session) : session :=
  {| hook := hook s; isRecording := isRecording s; isConnecting :=
     isConnecting s; transcript := transcript s; error := error s; wsRef :=
     wsRef s; audioContextRef := audioContextRef s; processorRef :=
     processorRef s; streamRef := streamRef s; transcriptRef :=
     transcriptRef s; finalizeRef := finalizeRef s; socketReadyRef :=
     socketReadyRef s; isRecordingRef := isRecordingRef s; vadEnabledRef :=
     vadEnabledRef s; vadSilenceMsRef := vadSilenceMsRef s; vadThresholdRef
     := vadThresholdRef s; lastVoiceAtRef := v; hasVoiceRef := hasVoiceRef
     s; vadIntervalRef := vadIntervalRef s; stoppingRef := stoppingRef s;
     sockets := sockets s; processors := processors s; pendingStarts :=
     pendingStarts s; cleanups := cleanups s; promises := promises s;
     nextCall := nextCall s; nextInterval := nextInterval s; log := log s
     |}.
Definition set_hasVoiceRef (v : bool) (s : session) : session :=
  {| hook := hook s; isRecording := isRecording s; isConnecting :=
     isConnecting s; transcript := transcript s; error := error s; wsRef :=
     wsRef s; audioContextRef := audioContextRef s; processorRef :=
     processorRef s; streamRef := streamRef s; transcriptRef :=
     transcriptRef s; finalizeRef := finalizeRef s; socketReadyRef :=
     socketReadyRef s; isRecordingRef := isRecordingRef s; vadEnabledRef :=
     vadEnabledRef s; vadSilenceMsRef := vadSilenceMsRef s; vadThresholdRef
     := vadThresholdRef s; lastVoiceAtRef := lastVoiceAtRef s; hasVoiceRef
     := v; vadIntervalRef := vadIntervalRef s; stoppingRef := stoppingRef s;
     sockets := sockets s; processors := processors s; pendingStarts :=
     pendingStarts s; cleanups := cleanups s; promises := promises s;
     nextCall := nextCall s; nextInterval := nextInterval s; log := log s
     |}.
Definition set_vadIntervalRef (v : option nat) (s : session) : session :=
  {| hook := hook s; isRecording := isRecording s; isConnecting :=
     isConnecting s; transcript := transcript s; error := error s; wsRef :=
     wsRef s; audioContextRef := audioContextRef s; processorRef :=
     processorRef s; streamRef := streamRef s; transcriptRef :=
     transcriptRef s; finalizeRef := finalizeRef s; socketReadyRef :=
     socketReadyRef s; isRecordingRef := isRecordingRef s; vadEnabledRef :=
     vadEnabledRef s; vadSilenceMsRef := vadSilenceMsRef s; vadThresholdRef
     := vadThresholdRef s; lastVoiceAtRef := lastVoiceAtRef s; hasVoiceRef
     := hasVoiceRef s; vadIntervalRef := v; stoppingRef := stoppingRef s;
     sockets := sockets s; processors := processors s; pendingStarts :=
     pendingStarts s; cleanups := cleanups s; promises := promises s;
     nextCall := nextCall s; nextInterval := nextInterval s; log := log s
     |}.
Definition set_stoppingRef (v : bool) (s : session) : session :=
  {| hook := hook s; isRecording := isRecording s; isConnecting :=
     isConnecting s; transcript := transcript s; error := error s; wsRef :=
     wsRef s; audioContextRef := audioContextRef s; processorRef :=
     processorRef s; streamRef := streamRef s; transcriptRef :=
     transcriptRef s; finalizeRef := finalizeRef s; socketReadyRef :=
     socketReadyRef s; isRecordingRef := isRecordingRef s; vadEnabledRef :=
     vadEnabledRef s; vadSilenceMsRef := vadSilenceMsRef s; vadThresholdRef
     := vadThresholdRef s; lastVoiceAtRef := lastVoiceAtRef s; hasVoiceRef
     := hasVoiceRef s; vadIntervalRef := vadIntervalRef s; stoppingRef := v;
     sockets := sockets s; processors := processors s; pendingStarts :=
     pendingStarts s; cleanups := cleanups s; promises := promises s;
     nextCall := nextCall s; nextInterval := nextInterval s; log := log s
     |}.
Definition set_sockets (v : list ready_state) (s : session) : session :=
  {| hook := hook s; isRecording := isRecording s; isConnecting :=
     isConnecting s; transcript := transcript s; error := error s; wsRef :=
     wsRef s; audioContextRef := audioContextRef s; processorRef :=
     processorRef s; streamRef := streamRef s; transcriptRef :=
     transcriptRef s; finalizeRef := finalizeRef s; socketReadyRef :=
     socketReadyRef s; isRecordingRef := isRecordingRef s; vadEnabledRef :=
     vadEnabledRef s; vadSilenceMsRef := vadSilenceMsRef s; vadThresholdRef
     := vadThresholdRef s; lastVoiceAtRef := lastVoiceAtRef s; hasVoiceRef
     := hasVoiceRef s; vadIntervalRef := vadIntervalRef s; stoppingRef :=
     stoppingRef s; sockets := v; processors := processors s; pendingStarts
     := pendingStarts s; cleanups := cleanups s; promises := promises s;
     nextCall := nextCall s; nextInterval := nextInterval s; log := log s
     |}.
Definition set_processors (v : list processor) (s : session) : session :=
  {| hook := hook s; isRecording := isRecording s; isConnecting :=
     isConnecting s; transcript := transcript s; error := error s; wsRef :=
     wsRef s; audioContextRef := audioContextRef s; processorRef :=
     processorRef s; streamRef := streamRef s; transcriptRef :=
     transcriptRef s; finalizeRef := finalizeRef s; socketReadyRef :=
     socketReadyRef s; isRecordingRef := isRecordingRef s; vadEnabledRef :=
     vadEnabledRef s; vadSilenceMsRef := vadSilenceMsRef s; vadThresholdRef
     := vadThresholdRef s; lastVoiceAtRef := lastVoiceAtRef s; hasVoiceRef
     := hasVoiceRef s; vadIntervalRef := vadIntervalRef s; stoppingRef :=
     stoppingRef s; sockets := sockets s; processors := v; pendingStarts :=
     pendingStarts s; cleanups := cleanups s; promises := promises s;
     nextCall := nextCall s; nextInterval := nextInterval s; log := log s
     |}.
Definition set_pendingStarts (v : nat) (s : session) : session :=
  {| hook := hook s; isRecording := isRecording s; isConnecting :=
     isConnecting s; transcript := transcript s; error := error s; wsRef :=
     wsRef s; audioContextRef := audioContextRef s; processorRef :=
     processorRef s; streamRef := streamRef s; transcriptRef :=
     transcriptRef s; finalizeRef := finalizeRef s; socketReadyRef :=
     socketReadyRef s; isRecordingRef := isRecordingRef s; vadEnabledRef :=
     vadEnabledRef s; vadSilenceMsRef := vadSilenceMsRef s; vadThresholdRef
     := vadThresholdRef s; lastVoiceAtRef := lastVoiceAtRef s; hasVoiceRef
     := hasVoiceRef s; vadIntervalRef := vadIntervalRef s; stoppingRef :=
     stoppingRef s; sockets := sockets s; processors := processors s;
     pendingStarts := v; cleanups := cleanups s; promises := promises s;
     nextCall := nextCall s; nextInterval := nextInterval s; log := log s
     |}.
Definition set_cleanups (v : list (option continuation)) (s : session) : session :=
  {| hook := hook s; isRecording := isRecording s; isConnecting :=
     isConnecting s; transcript := transcript s; error := error s; wsRef :=
     wsRef s; audioContextRef := audioContextRef s; processorRef :=
     processorRef s; streamRef := streamRef s; transcriptRef :=
     transcriptRef s; finalizeRef := finalizeRef s; socketReadyRef :=
     socketReadyRef s; isRecordingRef := isRecordingRef s; vadEnabledRef :=
     vadEnabledRef s; vadSilenceMsRef := vadSilenceMsRef s; vadThresholdRef
     := vadThresholdRef s; lastVoiceAtRef := lastVoiceAtRef s; hasVoiceRef
     := hasVoiceRef s; vadIntervalRef := vadIntervalRef s; stoppingRef :=
     stoppingRef s; sockets := sockets s; processors := processors s;
     pendingStarts := pendingStarts s; cleanups := v; promises := promises
     s; nextCall := nextCall s; nextInterval := nextInterval s; log := log s
     |}.
Definition set_promises (v : list (option pending_stop)) (s : session) : session :=
  {| hook := hook s; isRecording := isRecording s; isConnecting :=
     isConnecting s; transcript := transcript s; error := error s; wsRef :=
     wsRef s; audioContextRef := audioContextRef s; processorRef :=
     processorRef s; streamRef := streamRef s; transcriptRef :=
     transcriptRef s; finalizeRef := finalizeRef s; socketReadyRef :=
     socketReadyRef s; isRecordingRef := isRecordingRef s; vadEnabledRef :=
     vadEnabledRef s; vadSilenceMsRef := vadSilenceMsRef s; vadThresholdRef
     := vadThresholdRef s; lastVoiceAtRef := lastVoiceAtRef s; hasVoiceRef
     := hasVoiceRef s; vadIntervalRef := vadIntervalRef s; stoppingRef :=
     stoppingRef s; sockets := sockets s; processors := processors s;
     pendingStarts := pendingStarts s; cleanups := cleanups s; promises :=
     v; nextCall := nextCall s; nextInterval := nextInterval s; log := log s
     |}.
Definition set_nextCall (v : nat) (s : session) : session :=
  {| hook := hook s; isRecording := isRecording s; isConnecting :=
     isConnecting s; transcript := transcript s; error := error s; wsRef :=
     wsRef s; audioContextRef := audioContextRef s; processorRef :=
     processorRef s; streamRef := streamRef s; transcriptRef :=
     transcriptRef s; finalizeRef := finalizeRef s; socketReadyRef :=
     socketReadyRef s; isRecordingRef := isRecordingRef s; vadEnabledRef :=
     vadEnabledRef s; vadSilenceMsRef := vadSilenceMsRef s; vadThresholdRef
     := vadThresholdRef s; lastVoiceAtRef := lastVoiceAtRef s; hasVoiceRef
     := hasVoiceRef s; vadIntervalRef := vadIntervalRef s; stoppingRef :=
     stoppingRef s; sockets := sockets s; processors := processors s;
     pendingStarts := pendingStarts s; cleanups := cleanups s; promises :=
     promises s; nextCall := v; nextInterval := nextInterval s; log := log s
     |}.
Definition set_nextInterval (v : nat) (s : session) : session :=
  {| hook := hook s; isRecording := isRecording s; isConnecting :=
     isConnecting s; transcript := transcript s; error := error s; wsRef :=
     wsRef s; audioContextRef := audioContextRef s; processorRef :=
     processorRef s; streamRef := streamRef s; transcriptRef :=
     transcriptRef s; finalizeRef := finalizeRef s; socketReadyRef :=
     socketReadyRef s; isRecordingRef := isRecordingRef s; vadEnabledRef :=
     vadEnabledRef s; vadSilenceMsRef := vadSilenceMsRef s; vadThresholdRef
     := vadThresholdRef s; lastVoiceAtRef := lastVoiceAtRef s; hasVoiceRef
     := hasVoiceRef s; vadIntervalRef := vadIntervalRef s; stoppingRef :=
     stoppingRef s; sockets := sockets s; processors := processors s;
     pendingStarts := pendingStarts s; cleanups := cleanups s; promises :=
     promises s; nextCall := nextCall s; nextInterval := v; log := log s |}.
Definition set_log (v : list effect) (s : session) : session :=
  {| hook := hook s; isRecording := isRecording s; isConnecting :=
     isConnecting s; transcript := transcript s; error := error s; wsRef :=
     wsRef s; audioContextRef := audioContextRef s; processorRef :=
     processorRef s; streamRef := streamRef s; transcriptRef :=
     transcriptRef s; finalizeRef := finalizeRef s; socketReadyRef :=
     socketReadyRef s; isRecordingRef := isRecordingRef s; vadEnabledRef :=
     vadEnabledRef s; vadSilenceMsRef := vadSilenceMsRef s; vadThresholdRef
     := vadThresholdRef s; lastVoiceAtRef := lastVoiceAtRef s; hasVoiceRef
     := hasVoiceRef s; vadIntervalRef := vadIntervalRef s; stoppingRef :=
     stoppingRef s; sockets := sockets s; processors := processors s;
     pendingStarts := pendingStarts s; cleanups := cleanups s; promises :=
     promises s; nextCall := nextCall s; nextInterval := nextInterval s; log
     := v |}.

Definition TARGET_SAMPLE_RATE : float := 24000%float.
Definition DEFAULT_VAD_SILENCE_MS : Z := 1500.

(** [0.012]: the Number nearest to 12/1000, which is
    3458764513820541 / 2^58. *)
Definition DEFAULT_VAD_THRESHOLD : Q :=
  3458764513820541 # 288230376151711744.

(** The hook at its first render, with the options it was given. *)
Definition init (hook : variant) (vadEnabled : bool) (vadSilenceMs : Z)
    (vadThreshold : Q) : session :=
  {| hook := hook; isRecording := false; isConnecting := false; transcript := [];
     error := None;
     wsRef := None; audioContextRef := None; processorRef := None;
     streamRef := None; transcriptRef := []; finalizeRef := None;
     socketReadyRef := false; isRecordingRef := false;
     vadEnabledRef := vadEnabled; vadSilenceMsRef := vadSilenceMs;
     vadThresholdRef := vadThreshold; lastVoiceAtRef := 0;
     hasVoiceRef := false; vadIntervalRef := None; stoppingRef := false;
     sockets := []; processors := []; pendingStarts := 0; cleanups := [];
     promises := []; nextCall := 0; nextInterval := 1; log := [] |}.

(** *** Helpers *)

Definition emit (e : effect) (s : session) : session :=
  set_log (log s ++ [e]) s.

Fixpoint replace_nth {A : Type} (i : nat) (x : A) (l : list A) : list A :=
  match l, i with
  | [], _ => []
  | _ :: r, O => x :: r
  | y :: r, S i' => y :: replace_nth i' x r
  end.

Fixpoint jsstring_eqb (a b : jsstring) : bool :=
  match a, b with
  | [], [] => true
  | c :: a', d :: b' => (c =? d)%N && jsstring_eqb a' b'
  | _, _ => false
  end.

(** [data.type === name] *)
Definition type_is (type : option jsstring) (name : String.string) : bool :=
  match type with
  | Some t => jsstring_eqb t (js name)
  | None => false
  end.
Arguments type_is type name%_string_scope.

(** [ws && ws.readyState === WebSocket.OPEN] *)
Definition socket_open (s : session) (ws : option nat) : bool :=
  match ws with
  | Some i =>
      match nth_error (sockets s) i with
      | Some OPEN => true
      | _ => false
      end
  | None => false
  end.

(** *** The voice activity interval *)

(** [clearVadInterval] *)
Definition clearVadInterval (s : session) : session :=
  match vadIntervalRef s with
  | Some _ => set_vadIntervalRef None s
  | None => s
  end.

(** The registration part of [startVadInterval]; the interval's callback
    is [vad_tick] below. *)
Definition startVadInterval (s : session) : session :=
  let s := clearVadInterval s in
  let s := set_vadIntervalRef (Some (nextInterval s)) s in
  set_nextInterval (S (nextInterval s)) s.

(** *** Transcript *)

(** [updateTranscript]: the state updater merges into the React state and
    copies the result to [transcriptRef]. *)
Definition updateTranscript (nextText : jsstring) (s : session) : session :=
  let merged := mergeTranscript (transcript s) nextText in
  let s := set_transcriptRef merged s in
  set_transcript merged s.

(** *** Stopping *)

(** [stopRecording] from [const ws = wsRef.current] to the suspension on
    [finalizePromise]: send the end-of-stream message if the socket is
    open, create the promise, store its resolver in [finalizeRef] (its
    1.5 s timer is the event [FinalizeTimeout]). *)
Definition stop_finalize (reason : stop_reason) (call : nat) (s : session)
  : session :=
  let ws := wsRef s in
  let s :=
    match ws with
    | Some i => if socket_open s ws then emit (Send i EndOfStream) s else s
    | None => s
    end in
  let p := length (promises s) in
  let s :=
    set_promises
      (promises s ++ [Some {| ps_call := call; ps_reason := reason; ps_ws := ws |}])
      s in
  set_finalizeRef (Some p) s.

Definition run_continuation (k : continuation) (s : session) : session :=
  match k with
  | ThenNothing => s
  | ThenFinalize reason call => stop_finalize reason call s
  end.

(** [cleanupAudio] after the audio context: stop the tracks of the
    stream, clear the interval. *)
Definition cleanup_tail (s : session) : session :=
  let s :=
    match streamRef s with
    | Some k => set_streamRef None (emit (TracksStop k) s)
    | None => s
    end in
  clearVadInterval s.

(** [cleanupAudio], followed by what its caller does after awaiting it.
    With an audio context the call suspends on [close()] and resumes at
    the event [AudioContextClosed]; without one it runs to its end. *)
Definition cleanupAudio (k : continuation) (s : session) : session :=
  let s :=
    match processorRef s with
    | Some p =>
        let s := emit (ProcessorDisconnect p) s in
        let s :=
          match nth_error (processors s) p with
          | Some node =>
              set_processors
                (replace_nth p {| onaudioprocess := false;
                                  sampleRate := sampleRate node |}
                   (processors s)) s
          | None => s
          end in
        set_processorRef None s
    | None => s
    end in
  match audioContextRef s with
  | Some c =>
      let s := emit (AudioContextClose c) s in
      set_cleanups (cleanups s ++ [Some k]) s
  | None => run_continuation k (cleanup_tail s)
  end.

(** The rest of a suspended [cleanupAudio]. *)
Definition resume_cleanup (i : nat) (s : session) : session :=
  match nth_error (cleanups s) i with
  | Some (Some k) =>
      let s := set_cleanups (replace_nth i None (cleanups s)) s in
      let s := set_audioContextRef None s in
      run_continuation k (cleanup_tail s)
  | _ => s
  end.

(** [resolve(text)] on the promise [p], and, if that settles it, the rest
    of the [stopRecording] call that awaits it:
<<
    if (reason === 'vad') onAutoStop?.(finalText);
    return finalText;
  } finally {
    if (ws && ws.readyState === WebSocket.OPEN) ws.close();
    wsRef.current = null;
    stoppingRef.current = false;
  }
>> *)
Definition settle (p : nat) (text : jsstring) (s : session) : session :=
  match nth_error (promises s) p with
  | Some (Some ps) =>
      let s := set_promises (replace_nth p None (promises s)) s in
      let s :=
        match ps_reason ps with
        | Vad => emit (OnAutoStop text) s
        | Manual => s
        end in
      let s :=
        match ps_ws ps with
        | Some i =>
            if socket_open s (ps_ws ps)
            then set_sockets (replace_nth i CLOSING (sockets s))
                   (emit (SocketClose i) s)
            else s
        | None => s
        end in
      let s := set_wsRef None s in
      let s := set_stoppingRef false s in
      emit (StopReturn (ps_call ps) text) s
  | _ => s
  end.

(** [stopRecording(reason)] up to its first suspension. The earlier
    variant takes no reason and starts with [setIsRecording(false)]. *)
Definition stopRecording (reason : stop_reason) (s : session) : session :=
  let call := nextCall s in
  let s := set_nextCall (S call) s in
  match hook s with
  | WithVad =>
      if stoppingRef s then emit (StopReturn call (trim (transcriptRef s))) s
      else
        let s := set_stoppingRef true s in
        let s := set_isRecording false s in
        let s := set_isConnecting false s in
        let s := set_isRecordingRef false s in
        let s := set_socketReadyRef false s in
        let s := clearVadInterval s in
        cleanupAudio (ThenFinalize reason call) s
  | Plain =>
      let s := set_isRecording false s in
      let s := set_isConnecting false s in
      let s := set_socketReadyRef false s in
      cleanupAudio (ThenFinalize Manual call) s
  end.

(** The test of the interval callback, up to the call of [triggerStop]:
<<
  if (!isRecordingRef.current || !vadEnabledRef.current) return;
  if (!hasVoiceRef.current) return;
  const silenceFor = Date.now() - lastVoiceAtRef.current;
  if (silenceFor >= vadSilenceMsRef.current) triggerStop();
>> *)
Definition silence_timeout (now : Z) (s : session) : bool :=
  if negb (isRecordingRef s) || negb (vadEnabledRef s) then false
  else if negb (hasVoiceRef s) then false
  else (vadSilenceMsRef s <=? now - lastVoiceAtRef s)%Z.

(** [triggerStop], as [ws.onopen] passes it to [startVadInterval]. *)
Definition triggerStop (s : session) : session :=
  if negb (stoppingRef s) then stopRecording Vad s else s.

(** A tick of the interval; there is none once it is cleared. *)
Definition vad_tick (now : Z) (s : session) : session :=
  match vadIntervalRef s with
  | Some _ => if silence_timeout now s then triggerStop s else s
  | None => s
  end.

(** *** Starting *)

(** [startRecording] up to [await getUserMedia]. *)
Definition startRecording (now : Z) (s : session) : session :=
  if isRecording s || isConnecting s then s
  else
    let s := set_error None s in
    let s := set_transcript [] s in
    let s := set_transcriptRef [] s in
    let s := set_isConnecting true s in
    let s := set_hasVoiceRef false s in
    let s := set_lastVoiceAtRef now s in
    set_pendingStarts (S (pendingStarts s)) s.

(** [startRecording] after [getUserMedia] resolved: the stream, the audio
    context with its processor node, and the socket. *)
Definition media_granted (rate : float) (s : session) : session :=
  match pendingStarts s with
  | O => s
  | S n =>
      let s := set_pendingStarts n s in
      let k := length (processors s) in
      let s := set_streamRef (Some k) s in
      let s := set_audioContextRef (Some k) s in
      let s :=
        set_processors
          (processors s ++ [{| onaudioprocess := true; sampleRate := rate |}])
          s in
      let s := set_processorRef (Some k) s in
      let ws := length (sockets s) in
      let s := set_sockets (sockets s ++ [CONNECTING]) s in
      set_wsRef (Some ws) s
  end.

(** The [catch] of [startRecording]. *)
Definition media_denied (err : jsstring) (s : session) : session :=
  match pendingStarts s with
  | O => s
  | S n =>
      let s := set_pendingStarts n s in
      let s := set_error (Some err) s in
      let s := set_isConnecting false s in
      let s := set_isRecording false s in
      let s := set_isRecordingRef false s in
      cleanupAudio ThenNothing s
  end.

(** *** Socket and audio callbacks *)

(** [ws.onopen] *)
Definition onopen (ws : nat) (s : session) : session :=
  match nth_error (sockets s) ws with
  | Some CONNECTING =>
      let s := set_sockets (replace_nth ws OPEN (sockets s)) s in
      let s := set_socketReadyRef true s in
      let s := set_isRecording true s in
      let s := set_isConnecting false s in
      let s := set_isRecordingRef true s in
      match hook s with
      | WithVad => if vadEnabledRef s then startVadInterval s else s
      | Plain => s
      end
  | _ => s
  end.

(** [ws.onmessage]; a message is delivered only on an open socket. The
    stop that the finalize signal settles resumes after the handler. *)
Definition onmessage (ws : nat) (data : ws_data) (s : session) : session :=
  if negb (socket_open s (Some ws)) then s
  else
    match data with
    | NotAString | Unparseable => s
    | Parsed type text detail =>
        let s :=
          match text with
          | Some t =>
              if type_is type "text"
              then
                let s := updateTranscript t s in
                emit (OnTranscript (transcriptRef s)) s
              else s
          | None => s
          end in
        let finalText := trim (transcriptRef s) in
        let final := type_is type "end_text" || type_is type "end_of_stream" in
        let resolver := if final then finalizeRef s else None in
        let s :=
          if final
          then set_finalizeRef None (emit (OnFinalTranscript finalText) s)
          else s in
        let s :=
          if type_is type "error"
          then
            set_error
              (Some match detail with
                    | Some message => message
                    | None => js "Voice input error"
                    end) s
          else s in
        match resolver with
        | Some p => settle p finalText s
        | None => s
        end
    end.

(** [ws.onerror] *)
Definition onerror (ws : nat) (s : session) : session :=
  match nth_error (sockets s) ws with
  | Some _ => set_error (Some (js "Voice input connection failed")) s
  | None => s
  end.

(** [ws.onclose] *)
Definition onclose (ws : nat) (s : session) : session :=
  match nth_error (sockets s) ws with
  | Some CLOSED | None => s
  | Some _ =>
      let s := set_sockets (replace_nth ws CLOSED (sockets s)) s in
      let s := set_socketReadyRef false s in
      let s := set_isRecording false s in
      let s := set_isConnecting false s in
      let s := set_isRecordingRef false s in
      cleanupAudio ThenNothing s
  end.

(** [processor.onaudioprocess] of the node [p], while it is set. The
    callback is handed buffers of 4096 samples, which every engine
    resamples without running out of memory: the session puts no limit
    of its own on the length of the resampled buffer. *)
Definition audio_process (p : nat) (input : list sample) (now : Z)
    (s : session) : session :=
  match nth_error (processors s) p with
  | Some node =>
      if negb (onaudioprocess node) then s
      else if negb (socketReadyRef s) || negb (socket_open s (wsRef s)) then s
      else
        let s :=
          if rms_exceeds input (vadThresholdRef s)
          then set_hasVoiceRef true (set_lastVoiceAtRef now s)
          else s in
        match wsRef s,
              downsampleBuffer MAX_SAFE_LENGTH input (sampleRate node)
                TARGET_SAMPLE_RATE with
        | Some ws, Returns downsampled =>
            emit (Send ws (PcmFrame (floatTo16BitPCM downsampled))) s
        | _, _ => s
        end
  | None => s
  end.

(** The effect that copies the options into their refs; the earlier
    variant has no such options. *)
Definition options_changed (vadEnabled : bool) (vadSilenceMs : Z)
    (vadThreshold : Q) (s : session) : session :=
  match hook s with
  | WithVad =>
      let s := set_vadEnabledRef vadEnabled s in
      let s := set_vadSilenceMsRef vadSilenceMs s in
      set_vadThresholdRef vadThreshold s
  | Plain => s
  end.

(** *** Events *)

Inductive event :=
| StartRecording (now : Z)
| UserMediaGranted (rate : float)
| UserMediaDenied (err : jsstring)
| SocketOpen (ws : nat)
| SocketMessage (ws : nat) (data : ws_data)
| SocketError (ws : nat)
| SocketClosed (ws : nat)
| AudioProcess (p : nat) (input : list sample) (now : Z)
| VadTick (now : Z)
| StopRecording (reason : stop_reason)
| AudioContextClosed (i : nat)
| FinalizeTimeout (p : nat)
| OptionsChanged (vadEnabled : bool) (vadSilenceMs : Z) (vadThreshold : Q).

Definition step (s : session) (e : event) : session :=
  match e with
  | StartRecording now => startRecording now s
  | UserMediaGranted rate => media_granted rate s
  | UserMediaDenied err => media_denied err s
  | SocketOpen ws => onopen ws s
  | SocketMessage ws data => onmessage ws data s
  | SocketError ws => onerror ws s
  | SocketClosed ws => onclose ws s
  | AudioProcess p input now => audio_process p input now s
  | VadTick now => vad_tick now s
  | StopRecording reason => stopRecording reason s
  | AudioContextClosed i => resume_cleanup i s
  | FinalizeTimeout p => settle p (trim (transcriptRef s)) s
  | OptionsChanged vadEnabled vadSilenceMs vadThreshold =>
      options_changed vadEnabled vadSilenceMs vadThreshold s
  end.

Definition run (s : session) (events : list event) : session :=
  fold_left step events s.

(** *** Vocabulary of the specification *)

Inductive session_state := Idle | Connecting | Recording | Stopping.

Definition state_of (s : session) : session_state :=
  if stoppingRef s then Stopping
  else if isRecording s then Recording
  else if isConnecting s then Connecting
  else Idle.

(** The results of the [stopRecording] calls that returned, in order. *)
Fixpoint stop_returns (l : list effect) : list (nat * jsstring) :=
  match l with
  | [] => []
  | StopReturn call text :: r => (call, text) :: stop_returns r
  | _ :: r => stop_returns r
  end.

(** Device and connection teardown. *)
Definition is_teardown (e : effect) : bool :=
  match e with
  | ProcessorDisconnect _ | AudioContextClose _ | TracksStop _
  | Send _ EndOfStream | SocketClose _ => true
  | _ => false
  end.

Definition teardowns (l : list effect) : list effect := filter is_teardown l.

(** A transcript handed to the caller as final. *)
Definition final_text (e : effect) : option jsstring :=
  match e with
  | OnFinalTranscript text | OnAutoStop text | StopReturn _ text => Some text
  | _ => None
  end.

(** No whitespace at either end. *)
Definition trimmed (text : jsstring) : Prop :=
  leading_ws text = false /\ trailing_ws text = false.

(** [e] starts a session: a [startRecording] call that passes its guard. *)
Definition starts_session (s : session) (e : event) : bool :=
  match e with
  | StartRecording _ => negb (isRecording s || isConnecting s)
  | _ => false
  end.

(** The hook processes a frame from the node [p]: its handler is set and
    the socket is ready and open (other frames are dropped). *)
Definition frame_processed (s : session) (p : nat) : bool :=
  match nth_error (processors s) p with
  | Some node =>
      onaudioprocess node && socketReadyRef s && socket_open s (wsRef s)
  | None => false
  end.

(** [e] is a processed frame whose RMS exceeds the threshold. *)
Definition voiced_frame (s : session) (e : event) : bool :=
  match e with
  | AudioProcess p input _ =>
      frame_processed s p && rms_exceeds input (vadThresholdRef s)
  | _ => false
  end.

(** Voice activity has been detected since the last session start of the
    run [events] from [s]; [heard] says so for what came before. *)
Fixpoint voice_detected (heard : bool) (s : session) (events : list event)
  : bool :=
  match events with
  | [] => heard
  | e :: rest =>
      voice_detected
        (if starts_session s e then false
         else if voiced_frame s e then true else heard)
        (step s e) rest
  end.

(** The later variant records on live audio and an open socket, with no
    stop in progress: processor [p], audio context [c], stream [k],
    socket [w]. *)
Definition recording_on (s : session) (p c k w : nat) : Prop :=
  hook s = WithVad /\ stoppingRef s = false /\
  processorRef s = Some p /\ audioContextRef s = Some c /\
  streamRef s = Some k /\ wsRef s = Some w /\
  nth_error (sockets s) w = Some OPEN.

(** A stop is in progress in the later variant on the open socket [w],
    with what is left of the audio in [c] and [k]. *)
Definition stopping_on (s : session) (c k : option nat) (w : nat) : Prop :=
  hook s = WithVad /\ stoppingRef s = true /\
  audioContextRef s = c /\ streamRef s = k /\ wsRef s = Some w /\
  nth_error (sockets s) w = Some OPEN.

(** [l'] extends [l] by effects that satisfy [P]. *)
Definition ext (P : effect -> Prop) (l l' : list effect) : Prop :=
  exists new, l' = l ++ new /\ Forall P new.

(** *** Scenario vocabulary *)

Definition text_message (t : jsstring) : ws_data :=
  Parsed (Some (js "text")) (Some t) None.

Definition end_text : ws_data := Parsed (Some (js "end_text")) None None.

(** A fresh hook of the later variant with the default options. *)
Definition fresh : session :=
  init WithVad false DEFAULT_VAD_SILENCE_MS DEFAULT_VAD_THRESHOLD.

(** A fresh hook of the earlier variant. *)
Definition fresh_plain : session :=
  init Plain false DEFAULT_VAD_SILENCE_MS DEFAULT_VAD_THRESHOLD.

(** A session that is recording on socket 0 and has heard ["hello"]. *)
Definition heard_hello : list event :=
  [StartRecording 0; UserMediaGranted 48000; SocketOpen 0;
   SocketMessage 0 (text_message (js "hello"))].

(** *** What an event can make the hook do *)

(** The effect [ef] is one that the event [e], arriving in the session
    [s], can have: the hook acts on the nodes, the stream and the socket
    its refs hold at that moment, sends only on an open socket, hands out
    as live transcript the merge of the state with the fragment received,
    and as final transcript a trimmed text. *)
Definition caused_by (s : session) (e : event) (ef : effect) : Prop :=
  match ef with
  | ProcessorDisconnect p => processorRef s = Some p
  | AudioContextClose c => audioContextRef s = Some c
  | TracksStop k => streamRef s = Some k
  | Send w EndOfStream =>
      wsRef s = Some w /\ nth_error (sockets s) w = Some OPEN
  | Send w (PcmFrame samples) =>
      wsRef s = Some w /\ nth_error (sockets s) w = Some OPEN /\
      socketReadyRef s = true /\
      exists (p : nat) (input : list sample) (now : Z) (node : processor)
             (downsampled : list sample),
        e = AudioProcess p input now /\
        nth_error (processors s) p = Some node /\
        onaudioprocess node = true /\
        downsampleBuffer MAX_SAFE_LENGTH input (sampleRate node)
          TARGET_SAMPLE_RATE
        = Returns downsampled /\
        samples = floatTo16BitPCM downsampled
  | SocketClose w => nth_error (sockets s) w = Some OPEN
  | OnTranscript text =>
      exists (ws : nat) (type : option jsstring) (nextText : jsstring)
             (detail : option jsstring),
        e = SocketMessage ws (Parsed type (Some nextText) detail) /\
        text = mergeTranscript (transcript s) nextText
  | OnFinalTranscript text | StopReturn _ text => exists t, text = trim t
  | OnAutoStop text =>
      exists (p : nat) (ps : pending_stop) (t : jsstring),
        nth_error (promises s) p = Some (Some ps) /\
        ps_reason ps = Vad /\ text = trim t
  end.

(** A frame of audio on its way to the service. *)
Definition is_pcm_frame (ef : effect) : bool :=
  match ef with
  | Send _ (PcmFrame _) => true
  | _ => false
  end.

(** The samples of a frame fit 16 bits. *)
Definition frame_in_range (ef : effect) : Prop :=
  match ef with
  | Send _ (PcmFrame samples) =>
      Forall (fun z => -32768 <= z <= 32767)%Z samples
  | _ => True
  end.

(** The effect touches a socket only if it is open in [s]. *)
Definition on_open_socket (s : session) (ef : effect) : Prop :=
  match ef with
  | Send w _ | SocketClose w => nth_error (sockets s) w = Some OPEN
  | _ => True
  end.

(** No [close()] of an audio context is pending: every [cleanupAudio]
    that was suspended has resumed. *)
Definition no_close_pending (s : session) : Prop :=
  Forall (fun k => k = None) (cleanups s).

Definition is_auto_stop (ef : effect) : bool :=
  match ef with
  | OnAutoStop _ => true
  | _ => false
  end.

(** Classes of events. *)
Definition opens_socket (e : event) : bool :=
  match e with
  | SocketOpen _ => true
  | _ => false
  end.

Definition start_request (e : event) : bool :=
  match e with
  | StartRecording _ => true
  | _ => false
  end.

(** The event asks for voice activity detection: a stop with the reason
    ['vad'], or options that enable it. *)
Definition asks_for_vad (e : event) : bool :=
  match e with
  | StopRecording Vad => true
  | OptionsChanged true _ _ => true
  | _ => false
  end.

(** The hook holds no audio node, stream or interval. *)
Definition released (s : session) : Prop :=
  processorRef s = None /\ audioContextRef s = None /\
  streamRef s = None /\ vadIntervalRef s = None.

(** No suspended call would report an automatic stop. *)
Definition manual_cleanup (k : option continuation) : Prop :=
  match k with
  | Some (ThenFinalize Vad _) => False
  | _ => True
  end.

Definition manual_promise (p : option pending_stop) : Prop :=
  match p with
  | Some ps => ps_reason ps = Manual
  | None => True
  end.

(** Voice activity detection is off and nothing of it is pending. *)
Definition vad_off (s : session) : Prop :=
  vadEnabledRef s = false /\ vadIntervalRef s = None /\
  Forall manual_cleanup (cleanups s) /\ Forall manual_promise (promises s).

(** The texts passed to [onAutoStop], in order. *)
Fixpoint auto_stops (l : list effect) : list jsstring :=
  match l with
  | [] => []
  | OnAutoStop text :: r => text :: auto_stops r
  | _ :: r => auto_stops r
  end.

(** The reason a stop is carried out with: the earlier variant of the
    hook takes none. *)
Definition effective_reason (s : session) (reason : stop_reason)
  : stop_reason :=
  match hook s with
  | WithVad => reason
  | Plain => Manual
  end.

(** The processor an effect disconnects, the stream whose tracks it
    stops. *)
Definition disconnects (ef : effect) : option nat :=
  match ef with
  | ProcessorDisconnect p => Some p
  | _ => None
  end.

Definition stops_tracks (ef : effect) : option nat :=
  match ef with
  | TracksStop k => Some k
  | _ => None
  end.

(** The effects of one kind, in order. *)
Fixpoint pick {A : Type} (f : effect -> option A) (l : list effect) : list A :=
  match l with
  | [] => []
  | ef :: r =>
      match f ef with
      | Some a => a :: pick f r
      | None => pick f r
      end
  end.

(** A resource that the hook holds in a ref, numbers from the length of
    [processors] when it takes one, and lets go of with an effect: none
    was let go of twice, those let go of are not held, and what is held
    has been taken. *)
Definition held_once (ref : option nat) (n : nat) (torn : list nat) : Prop :=
  NoDup torn /\
  (forall q, In q torn -> q < n /\ ref <> Some q) /\
  (forall p, ref = Some p -> p < n).

(** What a step may do to such a resource: keep it, drop it, take a new
    one, or let go of the one it holds. *)
Definition one_teardown (ref ref' : option nat) (n n' : nat)
    (torn torn' : list nat) : Prop :=
  n <= n' /\
  ((torn' = torn /\
    (ref' = ref \/ ref' = None \/ ref' = Some n /\ n' = S n)) \/
   (exists p, torn' = torn ++ [p] /\ ref = Some p /\ ref' = None)).

Definition processor_once (s : session) : Prop :=
  held_once (processorRef s) (length (processors s))
    (pick disconnects (log s)).

Definition stream_once (s : session) : Prop :=
  held_once (streamRef s) (length (processors s))
    (pick stops_tracks (log s)).

End Session.

(** * Proof tools *)

Ltac log_simpl :=
  cbn [Session.log Session.hook Session.emit
       Session.set_isRecording Session.set_isConnecting
       Session.set_transcript Session.set_error Session.set_wsRef
       Session.set_audioContextRef Session.set_processorRef
       Session.set_streamRef Session.set_transcriptRef
       Session.set_finalizeRef Session.set_socketReadyRef
       Session.set_isRecordingRef Session.set_vadEnabledRef
       Session.set_vadSilenceMsRef Session.set_vadThresholdRef
       Session.set_lastVoiceAtRef Session.set_hasVoiceRef
       Session.set_vadIntervalRef Session.set_stoppingRef
       Session.set_sockets Session.set_processors
       Session.set_pendingStarts Session.set_cleanups
       Session.set_promises Session.set_nextCall
       Session.set_nextInterval Session.set_log] in *.

Ltac ref_simpl :=
  cbn [Session.hasVoiceRef Session.isRecording Session.isConnecting
       Session.stoppingRef Session.hook Session.log Session.emit
       Session.set_isRecording Session.set_isConnecting
       Session.set_transcript Session.set_error Session.set_wsRef
       Session.set_audioContextRef Session.set_processorRef
       Session.set_streamRef Session.set_transcriptRef
       Session.set_finalizeRef Session.set_socketReadyRef
       Session.set_isRecordingRef Session.set_vadEnabledRef
       Session.set_vadSilenceMsRef Session.set_vadThresholdRef
       Session.set_lastVoiceAtRef Session.set_hasVoiceRef
       Session.set_vadIntervalRef Session.set_stoppingRef
       Session.set_sockets Session.set_processors
       Session.set_pendingStarts Session.set_cleanups
       Session.set_promises Session.set_nextCall
       Session.set_nextInterval Session.set_log] in *.

Ltac break_match :=
  match goal with
  | |- context [match ?x with _ => _ end] => destruct x eqn:?
  end.

Create Rewrite HintDb voice.

(** Rewriting with every equation of a conjunction. *)
Ltac rewrite_conj H :=
  lazymatch type of H with
  | _ /\ _ =>
      let A := fresh in
      let B := fresh in
      destruct H as [A B]; rewrite ?A; clear A; rewrite_conj B
  | _ => rewrite ?H; clear H
  end.

Ltac frame_with lemma :=
  let H := fresh in
  pose proof lemma as H; cbv zeta in H;
  match goal with
  | |- ?G => rewrite_conj H;
             lazymatch goal with |- G => fail | |- _ => idtac end
  end.

(** Moving the projections of the session past the inner steps, given
    the lemmas that say what those leave alone. *)
Ltac frames_by settle_frame cleanupAudio_frame resume_cleanup_frame :=
  repeat match goal with
    | |- context [Session.settle ?p ?t ?s] =>
        frame_with (settle_frame p t s)
    | |- context [Session.cleanupAudio ?k ?s] =>
        frame_with (cleanupAudio_frame k s)
    | |- context [Session.resume_cleanup ?i ?s] =>
        frame_with (resume_cleanup_frame i s)
    end.

(** The handlers, without and with the steps they call. *)
Ltac outer :=
  unfold Session.startRecording, Session.media_granted,
    Session.media_denied, Session.onopen, Session.onmessage,
    Session.onerror, Session.onclose, Session.audio_process,
    Session.vad_tick, Session.triggerStop, Session.stopRecording,
    Session.options_changed, Session.startVadInterval,
    Session.clearVadInterval, Session.updateTranscript, Session.emit.

Ltac handlers :=
  unfold Session.startRecording, Session.media_granted,
    Session.media_denied, Session.onopen, Session.onmessage,
    Session.onerror, Session.onclose, Session.audio_process,
    Session.vad_tick, Session.triggerStop, Session.stopRecording,
    Session.resume_cleanup, Session.settle, Session.options_changed,
    Session.cleanupAudio, Session.run_continuation, Session.stop_finalize,
    Session.cleanup_tail, Session.startVadInterval,
    Session.clearVadInterval, Session.updateTranscript,
    Session.socket_open, Session.emit.

Ltac open_socket :=
  match goal with
  | H : match nth_error ?l ?n with _ => _ end = true
    |- nth_error ?l ?n = Some Session.OPEN =>
      destruct (nth_error l n) as [[]|]; try discriminate; reflexivity
  | H : negb match nth_error ?l ?n with _ => _ end = false
    |- nth_error ?l ?n = Some Session.OPEN =>
      destruct (nth_error l n) as [[]|]; try discriminate; reflexivity
  end.

Ltac caused :=
  cbn [Session.caused_by];
  first [ open_socket
        | assumption
        | solve [repeat split; first [assumption | open_socket]]
        | solve [repeat eexists; first [eassumption | reflexivity]]
        | solve [repeat eexists; try eassumption; try reflexivity;
                 first [open_socket
                       | now destruct (Session.socketReadyRef _)]] ].

(** ** The chat input (components/chat-input)

    The component that calls [useVoiceInput]. Its own state is the text
    of the input box; what it reads from the hook and from the agent and
    voice contexts at a render ([isRecording], [transcript], [isRunning],
    [isVoiceOutputEnabled]) comes with each event, and what it does to
    them is logged. [handleMicClick] is cut at its two [await]s. *)

Module ChatInput.
Import JsString Session String.StringSyntax.

(** What the component does to the contexts and to the hook. *)
Inductive action :=
| SendMessage (text : jsstring)
| SetVoiceOutputEnabled (enabled : bool)
| StopSpeaking
| CallStartRecording
| CallStopRecording.

Record chat := {
  (* [useState('')] *)
  input : jsstring;
  (* [handleMicClick] calls suspended on [stopRecording()] *)
  awaitingStop : nat;
  (* [handleMicClick] calls suspended on [sendMessage(...)] *)
  awaitingSend : nat;
  done : list action
}.

Definition setInput (v : jsstring) (c : chat) : chat :=
  {| input := v; awaitingStop := awaitingStop c;
     awaitingSend := awaitingSend c; done := done c |}.

Definition set_awaitingStop (n : nat) (c : chat) : chat :=
  {| input := input c; awaitingStop := n;
     awaitingSend := awaitingSend c; done := done c |}.

Definition set_awaitingSend (n : nat) (c : chat) : chat :=
  {| input := input c; awaitingStop := awaitingStop c;
     awaitingSend := n; done := done c |}.

Definition act (a : action) (c : chat) : chat :=
  {| input := input c; awaitingStop := awaitingStop c;
     awaitingSend := awaitingSend c; done := done c ++ [a] |}.

(** The component at its first render. *)
Definition mount : chat :=
  {| input := []; awaitingStop := 0; awaitingSend := 0; done := [] |}.

(** [displayValue]: what the text area shows. *)
Definition displayValue (isRecording : bool) (transcript : jsstring)
    (c : chat) : jsstring :=
  if isRecording then transcript else input c.

(** [handleSubmit]:
<<
  if (!input.trim() || isRunning) return;
  sendMessage({ text: input });
  setInput('');
>> *)
Definition handleSubmit (isRunning : bool) (c : chat) : chat :=
  if negb (truthy (trim (input c))) || isRunning then c
  else setInput [] (act (SendMessage (input c)) c).

(** [handleKeyDown]: Enter without Shift submits. *)
Definition handleKeyDown (key : jsstring) (shiftKey isRunning : bool)
    (c : chat) : chat :=
  if jsstring_eqb key (js "Enter") && negb shiftKey
  then handleSubmit isRunning c
  else c.

(** [onChange] of the text area. *)
Definition onChange (isRecording : bool) (value : jsstring) (c : chat)
  : chat :=
  if negb isRecording then setInput value c else c.

(** [handleMicClick] up to its first [await]:
<<
  if (isRunning) return;
  if (isRecording) { const finalText = await stopRecording(); ... }
  stopSpeaking();
  setVoiceOutputEnabled(true);
  await startRecording();
>> *)
Definition handleMicClick (isRunning isRecording : bool) (c : chat) : chat :=
  if isRunning then c
  else if isRecording
  then set_awaitingStop (S (awaitingStop c)) (act CallStopRecording c)
  else act CallStartRecording
         (act (SetVoiceOutputEnabled true) (act StopSpeaking c)).

(** [handleMicClick] after [stopRecording()] returned:
<<
  if (finalText.trim()) {
    setVoiceOutputEnabled(true);
    await sendMessage({ text: finalText });
    setInput('');
  } else {
    setInput(finalText);
  }
>> *)
Definition stop_returned (finalText : jsstring) (c : chat) : chat :=
  match awaitingStop c with
  | O => c
  | S n =>
      let c := set_awaitingStop n c in
      if truthy (trim finalText)
      then
        let c := act (SetVoiceOutputEnabled true) c in
        let c := act (SendMessage finalText) c in
        set_awaitingSend (S (awaitingSend c)) c
      else setInput finalText c
  end.

(** [handleMicClick] after [sendMessage] resolved. *)
Definition send_resolved (c : chat) : chat :=
  match awaitingSend c with
  | O => c
  | S n => setInput [] (set_awaitingSend n c)
  end.

(** The voice output button. *)
Definition toggleVoiceOutput (isVoiceOutputEnabled : bool) (c : chat)
  : chat :=
  act (SetVoiceOutputEnabled (negb isVoiceOutputEnabled)) c.

Inductive event :=
| Change (isRecording : bool) (value : jsstring)
| Submit (isRunning : bool)
| KeyDown (key : jsstring) (shiftKey isRunning : bool)
| MicClick (isRunning isRecording : bool)
| StopRecordingReturned (finalText : jsstring)
| SendMessageResolved
| VoiceOutputClick (isVoiceOutputEnabled : bool).

Definition step (c : chat) (e : event) : chat :=
  match e with
  | Change isRecording value => onChange isRecording value c
  | Submit isRunning => handleSubmit isRunning c
  | KeyDown key shiftKey isRunning => handleKeyDown key shiftKey isRunning c
  | MicClick isRunning isRecording => handleMicClick isRunning isRecording c
  | StopRecordingReturned finalText => stop_returned finalText c
  | SendMessageResolved => send_resolved c
  | VoiceOutputClick isVoiceOutputEnabled =>
      toggleVoiceOutput isVoiceOutputEnabled c
  end.

Definition run (c : chat) (events : list event) : chat :=
  fold_left step events c.

(** The texts sent to the agent, in order. *)
Fixpoint sent (l : list action) : list jsstring :=
  match l with
  | [] => []
  | SendMessage text :: r => text :: sent r
  | _ :: r => sent r
  end.

End ChatInput.

(** * Properties of the transcript merger *)

Module MergeProps.
Import JsString String.StringSyntax.

(** *** [startsWith] decides the prefix relation *)

Lemma startsWith_iff (s p : jsstring) :
  startsWith s p = true <-> starts_with s p.
Proof.
  revert s; induction p as [|c p IH]; intros s; simpl.
  - split; [intros _; exists s; reflexivity | reflexivity].
  - destruct s as [|d s]; simpl.
    + split; [discriminate | intros [rest H]; discriminate].
    + rewrite andb_true_iff, N.eqb_eq, IH. split.
      * intros [-> [rest ->]]. exists rest. reflexivity.
      * intros [rest H]. injection H as -> ->. split; [reflexivity | now exists rest].
Qed.

Lemma startsWith_false_iff (s p : jsstring) :
  startsWith s p = false <-> ~ starts_with s p.
Proof.
  rewrite <- startsWith_iff. destruct (startsWith s p); split; intros; congruence.
Qed.

Lemma startsWith_nil (s : jsstring) : startsWith s [] = true.
Proof. destruct s; reflexivity. Qed.

Lemma startsWith_refl (s : jsstring) : startsWith s s = true.
Proof. apply startsWith_iff. exists []. now rewrite app_nil_r. Qed.

Lemma starts_with_antisym (s p : jsstring) :
  starts_with s p -> starts_with p s -> s = p.
Proof.
  intros [r1 H1] [r2 H2]. rewrite H2 in H1 at 1.
  rewrite <- app_assoc in H1.
  assert (Hlen : length (r2 ++ r1) = 0).
  { apply (f_equal (@length _)) in H1. rewrite !length_app in *. lia. }
  destruct r2; [|discriminate]. rewrite H2. now rewrite app_nil_r.
Qed.

Lemma starts_with_leading (s p : jsstring) :
  starts_with s p -> p <> [] -> leading_ws s = leading_ws p.
Proof.
  intros [rest ->] Hp. destruct p; [congruence | reflexivity].
Qed.

(** *** Trimming *)

Lemma trimStart_leading (s : jsstring) : leading_ws (trimStart s) = false.
Proof.
  induction s as [|c r IH]; simpl; [reflexivity|].
  destruct (is_white_space c) eqn:E; [exact IH | simpl; exact E].
Qed.

Lemma trimStart_id (s : jsstring) : leading_ws s = false -> trimStart s = s.
Proof. destruct s as [|c r]; simpl; [reflexivity | intros ->; reflexivity]. Qed.

Lemma trimStart_blank (s : jsstring) : trimStart s = [] <-> blank s = true.
Proof.
  induction s as [|c r IH]; simpl; [tauto|].
  destruct (is_white_space c); simpl; [exact IH | split; discriminate].
Qed.

Lemma trimEnd_blank (s : jsstring) : trimEnd s = [] <-> blank s = true.
Proof.
  induction s as [|c r IH]; simpl; [tauto|].
  destruct (trimEnd r) eqn:E.
  - destruct (is_white_space c); simpl.
    + split; [intros _; now apply IH | reflexivity].
    + split; discriminate.
  - split; [discriminate|]. rewrite andb_true_iff. intros [_ H].
    apply IH in H. discriminate.
Qed.

Lemma trimEnd_cons (c : code_unit) (r : jsstring) :
  is_white_space c = false -> trimEnd (c :: r) = c :: trimEnd r.
Proof. intros H; simpl. rewrite H. destruct (trimEnd r); reflexivity. Qed.

Lemma trimEnd_leading (s : jsstring) :
  leading_ws s = false -> leading_ws (trimEnd s) = false.
Proof.
  destruct s as [|c r]; [reflexivity|]. intros H.
  change (is_white_space c = false) in H.
  rewrite (trimEnd_cons c r H). exact H.
Qed.

Lemma trimEnd_trailing (s : jsstring) : trailing_ws (trimEnd s) = false.
Proof.
  induction s as [|c r IH]; simpl; [reflexivity|].
  destruct (trimEnd r) as [|d r'] eqn:E.
  - destruct (is_white_space c) eqn:Ec; simpl; [reflexivity | exact Ec].
  - exact IH.
Qed.

(** [s.trimEnd()] is [s] without a blank suffix. *)
Lemma trimEnd_split (s : jsstring) :
  exists rest, s = trimEnd s ++ rest /\ blank rest = true.
Proof.
  induction s as [|c r [rest [IH Hb]]]; simpl.
  - exists []. split; reflexivity.
  - destruct (trimEnd r) as [|d r'] eqn:E.
    + destruct (is_white_space c) eqn:Ec.
      * exists (c :: r). split; [reflexivity|]. simpl. rewrite Ec. simpl.
        now apply trimEnd_blank.
      * exists rest. simpl in *. split; [now rewrite IH at 1 | exact Hb].
    + exists rest. split; [|exact Hb]. simpl. now rewrite IH at 1.
Qed.

Lemma blank_rev (s : jsstring) : blank (rev s) = blank s.
Proof.
  unfold blank. induction s as [|c r IH]; [reflexivity|].
  simpl. rewrite forallb_app, IH. simpl.
  rewrite andb_true_r. apply andb_comm.
Qed.

Lemma trimStart_snoc (s : jsstring) (c : code_unit) :
  trimStart (s ++ [c])
  = if blank s then (if is_white_space c then [] else [c])
    else trimStart s ++ [c].
Proof.
  induction s as [|a s IH]; simpl; [reflexivity|].
  destruct (is_white_space a); simpl; [exact IH | reflexivity].
Qed.

(** Trimming the end is trimming the start of the reversed string. *)
Lemma trimEnd_rev (s : jsstring) : trimEnd s = rev (trimStart (rev s)).
Proof.
  induction s as [|c r IH]; [reflexivity|].
  simpl. rewrite trimStart_snoc, blank_rev.
  destruct (blank r) eqn:Hb.
  - apply trimEnd_blank in Hb. rewrite Hb.
    destruct (is_white_space c); reflexivity.
  - rewrite rev_app_distr, <- IH. simpl.
    destruct (trimEnd r) eqn:E; [|reflexivity].
    apply trimEnd_blank in E. congruence.
Qed.

Lemma trimEnd_prefix (s : jsstring) : starts_with s (trimEnd s).
Proof. destruct (trimEnd_split s) as [rest [H _]]. now exists rest. Qed.

Lemma trim_leading (s : jsstring) : leading_ws (trim s) = false.
Proof. apply trimEnd_leading, trimStart_leading. Qed.

Lemma trim_trailing (s : jsstring) : trailing_ws (trim s) = false.
Proof. apply trimEnd_trailing. Qed.

Lemma trim_blank (s : jsstring) : trim s = [] <-> blank s = true.
Proof.
  unfold trim. rewrite trimEnd_blank.
  induction s as [|c r IH]; simpl; [tauto|].
  destruct (is_white_space c) eqn:E; simpl; [exact IH | rewrite E; tauto].
Qed.

Lemma trim_nil : trim [] = [].
Proof. reflexivity. Qed.

(** *** Doubled whitespace *)

Lemma trailing_ws_app (a b : jsstring) :
  trailing_ws (a ++ b) = if truthy b then trailing_ws b else trailing_ws a.
Proof.
  induction a as [|c a IH].
  - simpl. destruct b; reflexivity.
  - change ((c :: a) ++ b) with (c :: (a ++ b)).
    destruct a as [|d a].
    + simpl. destruct b; reflexivity.
    + change (trailing_ws (c :: (d :: a) ++ b)) with (trailing_ws ((d :: a) ++ b)).
      rewrite IH. reflexivity.
Qed.

Lemma doubled_ws_app (a b : jsstring) :
  doubled_ws (a ++ b) =
  doubled_ws a || doubled_ws b || trailing_ws a && leading_ws b.
Proof.
  induction a as [|c a IH].
  - simpl. now rewrite orb_false_r.
  - change ((c :: a) ++ b) with (c :: (a ++ b)).
    cbn [doubled_ws]. rewrite IH.
    destruct a as [|d a].
    + simpl. destruct (is_white_space c), (doubled_ws b), (leading_ws b); reflexivity.
    + cbn [app leading_ws].
      change (trailing_ws (c :: d :: a)) with (trailing_ws (d :: a)).
      destruct (is_white_space c), (is_white_space d), (doubled_ws (d :: a)),
        (doubled_ws b), (trailing_ws (d :: a)), (leading_ws b); reflexivity.
Qed.

Lemma doubled_ws_trimStart (s : jsstring) :
  doubled_ws s = false -> doubled_ws (trimStart s) = false.
Proof.
  induction s as [|c r IH]; simpl; [reflexivity|].
  destruct (is_white_space c) eqn:E; simpl.
  - intros H. apply orb_false_elim in H. now apply IH.
  - rewrite E. simpl. tauto.
Qed.

Lemma doubled_ws_trimEnd (s : jsstring) :
  doubled_ws s = false -> doubled_ws (trimEnd s) = false.
Proof.
  intros H. destruct (trimEnd_split s) as [rest [Hs _]].
  rewrite Hs, doubled_ws_app in H.
  apply orb_false_elim in H as [H _]. apply orb_false_elim in H as [H _].
  exact H.
Qed.

Lemma doubled_ws_trim (s : jsstring) :
  doubled_ws s = false -> doubled_ws (trim s) = false.
Proof. intros H. apply doubled_ws_trimEnd, doubled_ws_trimStart, H. Qed.

(** *** The merger on concrete fragments *)

Example merge_extension :
  mergeTranscript (js "hello") (js "hello world") = js "hello world".
Proof. reflexivity. Qed.

Example merge_regression :
  mergeTranscript (js "hello world") (js "hello") = js "hello world".
Proof. reflexivity. Qed.

Example merge_trims_incoming :
  mergeTranscript [] (js "  port ") = js "port".
Proof. reflexivity. Qed.

(** C1. For every pair of strings the merger returns exactly what the
    four-step policy prescribes: the trimmed incoming fragment when the
    previous transcript is empty or is a prefix of it, the previous
    transcript when the trimmed fragment is a prefix of it, and otherwise
    the two joined by one space and trimmed. The policy relates a pair of
    inputs to the merger's result and to nothing else. *)
Theorem mergeTranscript_policy (previous incoming result : jsstring) :
  merge_policy previous incoming result <->
  result = mergeTranscript previous incoming.
Proof.
  unfold mergeTranscript. split.
  - intros H. destruct H as [-> | Hne Hs | Hne Hn Hs | Hne Hn Hs].
    + reflexivity.
    + destruct previous; [congruence|]. simpl truthy. simpl negb.
      apply startsWith_iff in Hs. now rewrite Hs.
    + destruct previous as [|c p]; [congruence|]. simpl truthy. simpl negb.
      apply startsWith_false_iff in Hn. apply startsWith_iff in Hs.
      now rewrite Hn, Hs.
    + destruct previous as [|c p]; [congruence|]. simpl truthy. simpl negb.
      apply startsWith_false_iff in Hn. apply startsWith_false_iff in Hs.
      now rewrite Hn, Hs.
  - intros ->. destruct previous as [|c p].
    + now apply policy_first.
    + simpl truthy. simpl negb. cbv iota.
      destruct (startsWith (trim incoming) (c :: p)) eqn:E1.
      * apply policy_supersede; [discriminate | now apply startsWith_iff].
      * destruct (startsWith (c :: p) (trim incoming)) eqn:E2.
        -- apply policy_stale; [discriminate | now apply startsWith_false_iff
                                            | now apply startsWith_iff].
        -- apply policy_disjoint; [discriminate | now apply startsWith_false_iff
                                               | now apply startsWith_false_iff].
Qed.

(** C2, as stated, fails: a string with leading whitespace followed by
    text is not a fixed point of the merger, because only the incoming
    copy is trimmed and the two copies are then joined as disjoint
    fragments. *)
Lemma merge_idempotent_fails :
  mergeTranscript (js " a") (js " a") = js "a a" /\
  mergeTranscript (js " a") (js " a") <> js " a".
Proof. split; [reflexivity | discriminate]. Qed.

(** C2, amended. [merge(x, x) == x] holds exactly for the strings that do
    not begin with whitespace (the empty string and strings with trailing
    whitespace included) and for the strings made of whitespace only. *)
Theorem merge_idempotent_iff (x : jsstring) :
  mergeTranscript x x = x <-> leading_ws x = false \/ blank x = true.
Proof.
  unfold mergeTranscript. split.
  - intros H. destruct (leading_ws x) eqn:Hl; [right | now left].
    destruct x as [|c r]; [reflexivity|].
    simpl truthy in H. simpl negb in H. cbv iota in H.
    destruct (startsWith (trim (c :: r)) (c :: r)) eqn:E1.
    + pose proof (trim_leading (c :: r)) as Ht. rewrite H in Ht. congruence.
    + destruct (startsWith (c :: r) (trim (c :: r))) eqn:E2.
      * apply startsWith_iff in E2.
        destruct (trim (c :: r)) as [|d t] eqn:Et; [now apply trim_blank|].
        pose proof (trim_leading (c :: r)) as Ht. rewrite Et in Ht.
        assert (Hd : d :: t <> []) by discriminate.
        rewrite (starts_with_leading _ _ E2 Hd) in Hl. congruence.
      * pose proof (trim_leading ((c :: r) ++ space :: trim (c :: r))) as Ht.
        rewrite H in Ht. congruence.
  - intros [Hl | Hb].
    + destruct x as [|c r]; [reflexivity|].
      simpl truthy. simpl negb. cbv iota.
      assert (Ht : trim (c :: r) = trimEnd (c :: r)).
      { unfold trim. now rewrite trimStart_id. }
      rewrite Ht.
      pose proof (trimEnd_prefix (c :: r)) as Hp.
      destruct (startsWith (trimEnd (c :: r)) (c :: r)) eqn:E1.
      * apply startsWith_iff in E1. now apply starts_with_antisym.
      * apply startsWith_iff in Hp. now rewrite Hp.
    + apply trim_blank in Hb. rewrite Hb.
      destruct x as [|c r]; [reflexivity|]. reflexivity.
Qed.

(** C8, as stated, fails: whitespace doubled inside a fragment is kept,
    and a previous transcript that ends in whitespace gets a second space
    from the join. *)
Lemma merge_doubled_ws_kept :
  mergeTranscript [] (js "a  b") = js "a  b" /\
  doubled_ws (mergeTranscript [] (js "a  b")) = true /\
  doubled_ws (mergeTranscript (js "a ") (js "b")) = true.
Proof. repeat split. Qed.

(** C8, amended. The merger adds no doubled whitespace of its own: when
    the previous transcript has none and does not end in whitespace, and
    the trimmed incoming fragment has none, the result has none; the
    disjoint branch joins with exactly one space, as on
    ["portfolio is"] and ["down today"]. *)
Theorem merge_no_doubled_ws :
  (forall prev nextText : jsstring,
      doubled_ws prev = false ->
      trailing_ws prev = false ->
      doubled_ws (trim nextText) = false ->
      doubled_ws (mergeTranscript prev nextText) = false) /\
  mergeTranscript (js "portfolio is") (js "down today")
  = js "portfolio is down today".
Proof.
  split; [|reflexivity].
  intros prev nextText Hp Ht Hn. unfold mergeTranscript.
  destruct (negb (truthy prev)); [exact Hn|].
  destruct (startsWith (trim nextText) prev); [exact Hn|].
  destruct (startsWith prev (trim nextText)); [exact Hp|].
  apply doubled_ws_trim.
  rewrite doubled_ws_app. rewrite Hp, Ht. simpl.
  change (leading_ws (trim nextText)) with
    (match trim nextText with [] => false | c :: _ => is_white_space c end).
  pose proof (trim_leading nextText) as Hl. unfold leading_ws in Hl.
  rewrite Hl, Hn. reflexivity.
Qed.

Lemma merge_no_doubled_ws_witness :
  doubled_ws (mergeTranscript (js " so far") (js "  so good ")) = false.
Proof.
  apply (proj1 merge_no_doubled_ws (js " so far") (js "  so good "));
    reflexivity.
Defined.

(** *** The merger as the session uses it *)

Lemma trimEnd_id (s : jsstring) : trailing_ws s = false -> trimEnd s = s.
Proof.
  intros H. destruct (trimEnd_split s) as [rest [Hs Hb]].
  destruct rest as [|c rest]; [now rewrite app_nil_r in Hs|].
  rewrite Hs, trailing_ws_app in H. cbn [truthy] in H.
  exfalso. clear Hs. revert c Hb H.
  induction rest as [|d rest IH]; intros c Hb H.
  - simpl in *. rewrite andb_true_r in Hb. congruence.
  - simpl in Hb. apply andb_prop in Hb as [_ Hb].
    apply (IH d); [exact Hb | exact H].
Qed.

Lemma trim_id (s : jsstring) :
  leading_ws s = false -> trailing_ws s = false -> trim s = s.
Proof.
  intros Hl Ht. unfold trim. rewrite trimStart_id by exact Hl.
  now apply trimEnd_id.
Qed.

Lemma truthy_false (s : jsstring) : truthy s = false -> s = [].
Proof. now destruct s. Qed.

(** In the last branch of the merger, a previous transcript that does
    not begin with whitespace is joined to the fragment as it is. *)
Lemma merge_joins (prev cleaned : jsstring) :
  leading_ws prev = false -> prev <> [] ->
  cleaned <> [] -> trailing_ws cleaned = false ->
  trim (prev ++ space :: cleaned) = prev ++ space :: cleaned.
Proof.
  intros Hl Hp Hc Ht. apply trim_id.
  - destruct prev; [congruence | exact Hl].
  - rewrite trailing_ws_app. cbn [truthy].
    change (space :: cleaned) with ([space] ++ cleaned).
    rewrite trailing_ws_app. destruct cleaned; [congruence | exact Ht].
Qed.

Lemma mergeTranscript_trimmed (prev nextText : jsstring) :
  leading_ws prev = false -> trailing_ws prev = false ->
  leading_ws (mergeTranscript prev nextText) = false /\
  trailing_ws (mergeTranscript prev nextText) = false.
Proof.
  intros Hl Ht. unfold mergeTranscript.
  destruct (negb (truthy prev)); [|destruct (startsWith _ prev)];
    [| |destruct (startsWith prev _)];
    first [ split; [apply trim_leading | apply trim_trailing]
          | split; assumption ].
Qed.

(** X1. The merger keeps a transcript trimmed: when the previous
    transcript has no whitespace at either end, neither has the result,
    whatever the fragment. *)
Theorem merge_keeps_trimmed (prev nextText : jsstring) :
  leading_ws prev = false -> trailing_ws prev = false ->
  leading_ws (mergeTranscript prev nextText) = false /\
  trailing_ws (mergeTranscript prev nextText) = false.
Proof. apply mergeTranscript_trimmed. Qed.

Lemma merge_keeps_trimmed_witness :
  leading_ws (mergeTranscript (js "so far") (js "  so good ")) = false /\
  trailing_ws (mergeTranscript (js "so far") (js "  so good ")) = false.
Proof. apply merge_keeps_trimmed; reflexivity. Defined.

(** X2. A fragment of whitespace only, the empty one included, leaves
    the transcript as it is. *)
Theorem merge_blank_incoming (prev nextText : jsstring) :
  blank nextText = true -> mergeTranscript prev nextText = prev.
Proof.
  intros Hb. apply trim_blank in Hb. unfold mergeTranscript. rewrite Hb.
  destruct prev as [|c prev]; [reflexivity|]. cbn [truthy negb].
  cbn [startsWith]. reflexivity.
Qed.

Lemma merge_blank_incoming_witness :
  mergeTranscript (js "so far") (js "   ") = js "so far".
Proof. apply merge_blank_incoming. reflexivity. Defined.

Lemma mergeTranscript_prefix (prev nextText : jsstring) :
  leading_ws prev = false ->
  starts_with (mergeTranscript prev nextText) prev.
Proof.
  intros Hl. unfold mergeTranscript.
  destruct (truthy prev) eqn:Hp; cbn [negb].
  - destruct (startsWith (trim nextText) prev) eqn:H1.
    + now apply startsWith_iff.
    + destruct (startsWith prev (trim nextText)) eqn:H2.
      * exists []. now rewrite app_nil_r.
      * rewrite merge_joins.
        -- now exists (space :: trim nextText).
        -- exact Hl.
        -- intros ->. discriminate.
        -- intros E. rewrite E, startsWith_nil in H2. discriminate.
        -- apply trim_trailing.
  - apply truthy_false in Hp. subst prev. now exists (trim nextText).
Qed.

(** X3. The merger never drops text it already has: a previous
    transcript that does not begin with whitespace is a prefix of the
    result. *)
Theorem merge_keeps_previous (prev nextText : jsstring) :
  leading_ws prev = false ->
  starts_with (mergeTranscript prev nextText) prev.
Proof. apply mergeTranscript_prefix. Qed.

Lemma merge_keeps_previous_witness :
  starts_with (mergeTranscript (js "so far") (js "  so good ")) (js "so far").
Proof. apply merge_keeps_previous. reflexivity. Defined.

Lemma last_nonempty {A : Type} (l : list A) (x a b : A) :
  last (x :: l) a = last (x :: l) b.
Proof.
  revert x. induction l as [|y l IH]; intros x; [reflexivity|].
  change (last (y :: l) a = last (y :: l) b). apply IH.
Qed.

Lemma merge_all_nil_cumulative (fragments : list jsstring) :
  forall first : jsstring,
    cumulative (first :: fragments) ->
    merge_all (trim first) fragments = trim (last fragments first).
Proof.
  induction fragments as [|b fragments IH]; intros a H; [reflexivity|].
  destruct H as [Hab H]. cbn [merge_all fold_left].
  change (fold_left mergeTranscript fragments ?x) with (merge_all x fragments).
  assert (E : mergeTranscript (trim a) b = trim b).
  { unfold mergeTranscript. destruct (truthy (trim a)); cbn [negb];
      [|reflexivity].
    apply startsWith_iff in Hab. now rewrite Hab. }
  rewrite E, (IH b H).
  destruct fragments as [|c fragments]; [reflexivity|].
  change (last (b :: c :: fragments) a) with (last (c :: fragments) a).
  now rewrite (last_nonempty fragments c b a).
Qed.

(** X4. When the service re-sends the utterance as it grows, each
    fragment extending the one before it, the transcript merged from an
    empty one is the last fragment, trimmed. *)
Theorem merge_cumulative (first : jsstring) (fragments : list jsstring) :
  cumulative (first :: fragments) ->
  merge_all [] (first :: fragments) = trim (last fragments first).
Proof.
  intros H. cbn [merge_all fold_left].
  change (mergeTranscript [] first) with (trim first).
  exact (merge_all_nil_cumulative fragments first H).
Qed.

Lemma merge_cumulative_witness :
  merge_all [] [js "port"; js " portfolio"; js "portfolio is up "]
  = js "portfolio is up".
Proof.
  apply (merge_cumulative (js "port") [js " portfolio"; js "portfolio is up "]).
  repeat split.
  - now exists (js "folio").
  - now exists (js " is up").
Defined.

End MergeProps.

(** * Properties of the resampler and of the PCM encoder *)

Module AudioProps.
Import Audio.

(** *** Signs of binary64 results *)

Lemma binary_round_aux_sign (sx : bool) (mx ex : Z) (lx : location) :
  sf_sign_is sx (binary_round_aux prec emax sx mx ex lx).
Proof.
  unfold binary_round_aux.
  destruct (shr_fexp prec emax mx ex lx) as [mrs' e'].
  destruct (shr_fexp prec emax _ e' loc_Exact) as [mrs'' e''].
  destruct (shr_m mrs''); simpl; auto.
  destruct (_ <=? _)%Z; simpl; auto.
Qed.

Lemma SFmul_sign (a b : bool) (x y : spec_float) :
  sf_sign_is a x -> sf_sign_is b y ->
  sf_sign_is (xorb a b) (SF64mul x y).
Proof.
  unfold SF64mul.
  destruct x as [sx|sx| |sx mx ex], y as [sy|sy| |sy my ey]; simpl;
    intros Hx Hy; subst; auto.
  apply binary_round_aux_sign.
Qed.

Lemma SFdiv_sign (a b : bool) (x y : spec_float) :
  sf_sign_is a x -> sf_sign_is b y ->
  sf_sign_is (xorb a b) (SF64div x y).
Proof.
  unfold SF64div.
  destruct x as [sx|sx| |sx mx ex], y as [sy|sy| |sy my ey]; simpl;
    intros Hx Hy; subst; auto.
  destruct (SFdiv_core_binary prec emax (Z.pos mx) ex (Z.pos my) ey)
    as [[mz ez] lz].
  apply binary_round_aux_sign.
Qed.

Lemma of_nat_sign (n : nat) : sf_sign_is false (Prim2SF (of_nat n)).
Proof.
  unfold of_nat. rewrite of_uint63_spec.
  pose proof (Uint63.to_Z_bounded (Uint63.of_Z (Z.of_nat n))) as Hb.
  unfold binary_normalize.
  destruct (Uint63.to_Z (Uint63.of_Z (Z.of_nat n))) as [|m|m].
  - reflexivity.
  - unfold binary_round.
    destruct (shl_align m 0 _) as [mz ez]. apply binary_round_aux_sign.
  - lia.
Qed.

Lemma round_half_up_nonneg (m : positive) (e : Z) :
  (0 <= round_half_up false m e)%Z.
Proof.
  unfold round_half_up. destruct e as [|p|p].
  - lia.
  - rewrite Z.pow_pos_fold. nia.
  - rewrite Z.pow_pos_fold.
    assert (0 < 2 ^ Z.pos p)%Z by (apply Z.pow_pos_nonneg; lia).
    apply Z.div_pos; lia.
Qed.

Lemma round_half_up_nonpos (m : positive) (e : Z) :
  (round_half_up true m e <= 0)%Z.
Proof.
  unfold round_half_up. destruct e as [|p|p].
  - lia.
  - rewrite Z.pow_pos_fold.
    assert (0 < 2 ^ Z.pos p)%Z by (apply Z.pow_pos_nonneg; lia). nia.
  - rewrite Z.pow_pos_fold.
    assert (0 < 2 ^ Z.pos p)%Z by (apply Z.pow_pos_nonneg; lia).
    assert (2 * Z.neg m + 2 ^ Z.pos p < 2 * 2 ^ Z.pos p * 1)%Z by lia.
    apply Z.div_lt_upper_bound in H0; lia.
Qed.

Lemma round_sf_nonneg (x : spec_float) :
  sf_sign_is false x -> jsint_nonneg (round_sf x).
Proof.
  destruct x as [s|s| |s m e]; intros H; cbn [sf_sign_is] in H; subst;
    cbn [round_sf jsint_nonneg]; auto.
  - apply Z.le_refl.
  - apply round_half_up_nonneg.
Qed.

(** A Number with the sign bit set rounds to no positive length. *)
Lemma round_sf_negative (limit : N) (x : spec_float) (k : nat) :
  sf_sign_is true x -> array_length limit (round_sf x) <> Some (S k).
Proof.
  assert (Z0 : forall z, (z <= 0)%Z -> array_length limit (RInt z) <> Some (S k)).
  { intros z Hz. cbn [array_length].
    destruct (0 <=? z)%Z eqn:E; [|discriminate]. apply Z.leb_le in E.
    replace z with 0%Z by lia. destruct (_ <=? _)%Z; discriminate. }
  destruct x as [s|s| |s m e]; cbn [sf_sign_is round_sf]; intros H; subst;
    try discriminate.
  - apply Z0. lia.
  - apply Z0, round_half_up_nonpos.
Qed.

(** The loops run only under a ratio that is not negative. *)
Lemma ratio_sign (limit : N) (N k : nat) (ratio : float) :
  array_length limit (Math_round (of_nat N / ratio)%float) = Some (S k) ->
  sf_sign_is false (Prim2SF ratio).
Proof.
  unfold Math_round. rewrite div_spec. intros H.
  pose proof (of_nat_sign N) as Hn.
  assert (Hs : forall b, sf_sign_is b (Prim2SF ratio) ->
                         sf_sign_is b (SF64div (Prim2SF (of_nat N)) (Prim2SF ratio))).
  { intros b Hb. apply (SFdiv_sign false b _ _ Hn Hb). }
  destruct (Prim2SF ratio) as [s|s| |s m e] eqn:E; simpl; auto;
    destruct s; auto; exfalso;
    apply (round_sf_negative limit _ k (Hs true eq_refl)); exact H.
Qed.

Lemma next_offset_nonneg (i : nat) (ratio : float) :
  sf_sign_is false (Prim2SF ratio) ->
  jsint_nonneg (Math_round (of_nat i * ratio)%float).
Proof.
  intros H. unfold Math_round. rewrite mul_spec.
  apply round_sf_nonneg.
  apply (SFmul_sign false false _ _ (of_nat_sign i) H).
Qed.

Local Open Scope Q_scope.

(** *** Rounding *)

Lemma pow2_pos (e : Z) : 0 < 2 ^ e.
Proof. apply Qpower_0_lt. reflexivity. Qed.

Lemma pow2_plus (a b : Z) : 2 ^ (a + b) == 2 ^ a * 2 ^ b.
Proof. apply Qpower_plus. discriminate. Qed.

Lemma pow2_le (a b : Z) : (a <= b)%Z -> 2 ^ a <= 2 ^ b.
Proof. intros H. apply Qpower_le_compat_l; [exact H | discriminate]. Qed.

Lemma pow2_Z (n : Z) : (0 <= n)%Z -> 2 ^ n == inject_Z (2 ^ n).
Proof. intros H. rewrite Zpower_Qpower by exact H. reflexivity. Qed.

Lemma nearest_even_bounds (f : Z) (c : comparison) :
  (f <= nearest_even f c <= f + 1)%Z.
Proof. unfold nearest_even. destruct c; [destruct (Z.even f)| |]; lia. Qed.

(** Rounding to an integer does not cross an integer. *)
Lemma round_int_le (y : Q) (c : Z) : y <= inject_Z c -> (round_int y <= c)%Z.
Proof.
  intros H. unfold round_int.
  pose proof (Qfloor_le y) as Hf. pose proof (Qlt_floor y) as Hlt.
  assert (Hfc : (Qfloor y <= c)%Z).
  { rewrite Zle_Qle. lra. }
  destruct (Z.eq_dec (Qfloor y) c) as [E|N].
  - assert (Hy : y - inject_Z (Qfloor y) < 1 # 2).
    { rewrite E. lra. }
    rewrite Qlt_alt in Hy. rewrite Hy. cbn. lia.
  - pose proof (nearest_even_bounds (Qfloor y)
                  (y - inject_Z (Qfloor y) ?= 1 # 2)). lia.
Qed.

Lemma round_int_ge (y : Q) (c : Z) : inject_Z c <= y -> (c <= round_int y)%Z.
Proof.
  intros H. unfold round_int.
  assert (Hfc : (c <= Qfloor y)%Z).
  { rewrite <- (Qfloor_Z c). now apply Qfloor_resp_le. }
  pose proof (nearest_even_bounds (Qfloor y)
                (y - inject_Z (Qfloor y) ?= 1 # 2)). lia.
Qed.

Lemma magnitude_lower (x : Q) : ~ x == 0 -> 2 ^ (magnitude x - 1) <= Qabs x.
Proof.
  intros Hx. unfold magnitude.
  set (d := (Z.log2 (Z.abs (Qnum x)) - Z.log2 (Z.pos (Qden x)))%Z).
  destruct (Qle_bool (2 ^ d) (Qabs x)) eqn:E.
  - apply Qle_bool_iff in E. now replace (d + 1 - 1)%Z with d by lia.
  - destruct x as [a b]. cbn [Qnum Qden] in d.
    assert (Ha : (0 < Z.abs a)%Z).
    { destruct a; [exfalso; apply Hx; reflexivity | lia | lia]. }
    pose proof (Z.log2_spec _ Ha) as [Hlo _].
    assert (Hb : (0 < Z.pos b)%Z) by lia.
    pose proof (Z.log2_spec _ Hb) as [_ Hhi].
    pose proof (Z.log2_nonneg (Z.abs a)) as Hla.
    pose proof (Z.log2_nonneg (Z.pos b)) as Hlb.
    set (la := Z.log2 (Z.abs a)) in *. set (lb := Z.log2 (Z.pos b)) in *.
    change (Qabs (a # b)) with (Z.abs a # b).
    rewrite (Qmake_Qdiv (Z.abs a) b).
    apply Qle_shift_div_l; [change 0 with (inject_Z 0); rewrite <- Zlt_Qlt; lia|].
    apply Qle_trans with (2 ^ (d - 1) * 2 ^ (lb + 1)).
    + apply Qmult_le_l; [apply pow2_pos|].
      rewrite pow2_Z by lia. rewrite <- Zle_Qle.
      replace (lb + 1)%Z with (Z.succ lb) by lia. lia.
    + rewrite <- pow2_plus. replace (d - 1 + (lb + 1))%Z with la by (unfold d; lia).
      rewrite pow2_Z by lia. now rewrite <- Zle_Qle.
Qed.

(** A bound [c * 2^j] that the format holds lies on the grid on which
    any value it bounds is rounded. *)
Lemma bound_on_grid (fmt : format) (x : Q) (c j : Z) :
  (0 < fmt_prec fmt)%Z -> (fmt_emin fmt <= j)%Z ->
  (0 <= c <= 2 ^ fmt_prec fmt)%Z ->
  ~ x == 0 -> Qabs x <= inject_Z c * 2 ^ j ->
  exists c' : Z,
    inject_Z c * 2 ^ j
    == inject_Z c' * 2 ^ ulp_exponent fmt (magnitude x).
Proof.
  intros Hp Hj Hc Hx Hb. unfold ulp_exponent.
  destruct (Z_le_gt_dec (magnitude x - fmt_prec fmt) j) as [Hm|Hm].
  - set (e := Z.max (magnitude x - fmt_prec fmt) (fmt_emin fmt)).
    assert (He : (e <= j)%Z) by (unfold e; lia).
    exists (c * 2 ^ (j - e))%Z.
    rewrite inject_Z_mult, <- (pow2_Z (j - e)) by lia.
    rewrite <- Qmult_assoc, <- pow2_plus.
    now replace (j - e + e)%Z with j by lia.
  - pose proof (magnitude_lower x Hx) as Hlow.
    assert (Hcp : inject_Z c * 2 ^ j <= 2 ^ (fmt_prec fmt + j)).
    { rewrite pow2_plus. apply Qmult_le_compat_r; [|apply Qlt_le_weak, pow2_pos].
      rewrite pow2_Z by lia. rewrite <- Zle_Qle. lia. }
    assert (Hmag : (magnitude x - 1 <= fmt_prec fmt + j)%Z).
    { apply Qpower_le_compat_l_inv with (q := 2); [|reflexivity].
      eapply Qle_trans; [exact Hlow|]. eapply Qle_trans; [exact Hb | exact Hcp]. }
    assert (E : magnitude x = (fmt_prec fmt + j + 1)%Z) by lia.
    exists (2 ^ (fmt_prec fmt - 1))%Z.
    rewrite Z.max_l by lia.
    rewrite <- (pow2_Z (fmt_prec fmt - 1)) by lia.
    rewrite <- pow2_plus.
    replace (fmt_prec fmt - 1 + (magnitude x - fmt_prec fmt))%Z
      with (fmt_prec fmt + j)%Z by lia.
    apply Qle_antisym; [exact Hcp|].
    eapply Qle_trans; [|exact Hb]. eapply Qle_trans; [|exact Hlow].
    apply pow2_le. lia.
Qed.

Lemma scaled_bounded (fmt : format) (negative : bool) (m e c j : Z) :
  (0 <= c <= 2 ^ fmt_prec fmt)%Z -> (fmt_prec fmt + j < fmt_emax fmt)%Z ->
  (0 <= fmt_prec fmt)%Z ->
  - (inject_Z c * 2 ^ j) <= inject_Z m * 2 ^ e <= inject_Z c * 2 ^ j ->
  exists r, scaled fmt negative m e = Real r /\
            - (inject_Z c * 2 ^ j) <= r <= inject_Z c * 2 ^ j.
Proof.
  intros Hc Hj Hp Hb. unfold scaled.
  set (r := inject_Z m * 2 ^ e) in *.
  assert (Hlt : inject_Z c * 2 ^ j < 2 ^ fmt_emax fmt).
  { apply Qle_lt_trans with (2 ^ (fmt_prec fmt + j)).
    - rewrite pow2_plus. apply Qmult_le_compat_r; [|apply Qlt_le_weak, pow2_pos].
      rewrite pow2_Z by lia. rewrite <- Zle_Qle. lia.
    - apply Qpower_lt_compat_l; [lia | reflexivity]. }
  destruct (Qle_bool (2 ^ fmt_emax fmt) (Qabs r)) eqn:E.
  - apply Qle_bool_iff in E. exfalso.
    apply Qabs_Qle_condition in Hb. lra.
  - exists (Qred r). split; [reflexivity|]. now rewrite Qred_correct.
Qed.

(** Rounding is monotone and keeps the values of the format: a bound
    that the format holds bounds the rounded value too. *)
Lemma round_bounded (fmt : format) (x : Q) (c j : Z) :
  (0 < fmt_prec fmt)%Z -> (fmt_emin fmt <= j)%Z ->
  (fmt_prec fmt + j < fmt_emax fmt)%Z ->
  (0 <= c <= 2 ^ fmt_prec fmt)%Z ->
  - (inject_Z c * 2 ^ j) <= x <= inject_Z c * 2 ^ j ->
  exists r, round fmt x = Real r /\
            - (inject_Z c * 2 ^ j) <= r <= inject_Z c * 2 ^ j.
Proof.
  intros Hp Hj He Hc Hb. unfold round.
  set (e := ulp_exponent fmt (magnitude x)).
  apply scaled_bounded; try assumption; [lia|].
  pose proof (pow2_pos e) as Hpe.
  assert (Hgrid : exists c' : Z,
             - (inject_Z c') <= x / 2 ^ e <= inject_Z c' /\
             inject_Z c' * 2 ^ e <= inject_Z c * 2 ^ j).
  { destruct (Qeq_dec x 0) as [Hx|Hx].
    - exists 0%Z. rewrite Hx. split.
      + unfold Qdiv. rewrite Qmult_0_l. split; discriminate.
      + rewrite Qmult_0_l. apply Qmult_le_0_compat;
          [change 0 with (inject_Z 0); rewrite <- Zle_Qle; lia
          |apply Qlt_le_weak, pow2_pos].
    - destruct (bound_on_grid fmt x c j Hp Hj Hc Hx) as [c' Hc'].
      { now apply Qabs_Qle_condition. }
      fold e in Hc'. exists c'. rewrite <- Hc'. split; [|apply Qle_refl].
      rewrite Hc' in Hb. destruct Hb as [Hlo Hhi]. split.
      + apply Qle_shift_div_l; [exact Hpe|]. lra.
      + apply Qle_shift_div_r; [exact Hpe|]. lra. }
  destruct Hgrid as [c' [[Hlo Hhi] Hle]].
  pose proof (round_int_le _ _ Hhi) as H1.
  assert (H2 : (- c' <= round_int (x / 2 ^ e))%Z).
  { apply round_int_ge. now rewrite inject_Z_opp. }
  rewrite Zle_Qle in H1, H2. rewrite inject_Z_opp in H2.
  set (m := inject_Z (round_int (x / 2 ^ e))) in *.
  split.
  - apply Qle_trans with (- (inject_Z c' * 2 ^ e)); [lra|]. nra.
  - apply Qle_trans with (inject_Z c' * 2 ^ e); [nra | exact Hle].
Qed.
Close Scope Q_scope.

(** *** Blocks *)

(** A positive length is allocated only under a ratio that is finite,
    so that the first block starts at [round(0 * ratio) = 0]. *)
Lemma first_offset (limit : N) (N k : nat) (ratio : float) :
  array_length limit (Math_round (of_nat N / ratio)%float) = Some (S k) ->
  Math_round (of_nat 0 * ratio)%float = RInt 0.
Proof.
  unfold Math_round. rewrite div_spec, mul_spec.
  change (Prim2SF (of_nat 0)) with (S754_zero false).
  destruct (Prim2SF ratio) as [s|s| |s m e]; try reflexivity;
    destruct (Prim2SF (of_nat N)) as [t|t| |t n d]; cbn;
    try discriminate; destruct (_ <=? _)%Z; discriminate.
Qed.

Lemma slice_cons (buffer : list sample) (lo len : nat) :
  (lo < length buffer)%nat ->
  slice buffer lo (S len) = nth lo buffer NotANumber :: slice buffer (S lo) len.
Proof.
  revert lo; induction buffer as [|b buffer IH]; intros lo H; simpl in H.
  - lia.
  - destruct lo as [|lo].
    + reflexivity.
    + unfold slice in *. simpl. apply IH. lia.
Qed.

Lemma skipn_cons (buffer : list sample) (lo : nat) :
  (lo < length buffer)%nat ->
  skipn lo buffer = nth lo buffer NotANumber :: skipn (S lo) buffer.
Proof.
  revert lo; induction buffer as [|b buffer IH]; intros lo H; simpl in H.
  - lia.
  - destruct lo as [|lo]; [reflexivity|]. simpl. apply IH. lia.
Qed.

Lemma slice_beyond (buffer : list sample) (lo len : nat) :
  (length buffer <= lo)%nat -> slice buffer lo len = [].
Proof.
  intros H. unfold slice. rewrite skipn_all2 by exact H. apply firstn_nil.
Qed.

Lemma slice_Forall (P : sample -> Prop) (buffer : list sample) (lo len : nat) :
  Forall P buffer -> Forall P (slice buffer lo len).
Proof.
  intros H. unfold slice.
  assert (Hs : Forall P (skipn lo buffer)).
  { revert lo. induction H as [|b buffer Hb Hf IH]; intros [|lo]; simpl;
      auto using Forall. }
  revert Hs. generalize (skipn lo buffer) as l. intros l Hl. revert len.
  induction Hl as [|b l Hb Hf IH]; intros [|len]; simpl; auto using Forall.
Qed.

Lemma slice_short (buffer : list sample) (lo len : nat) :
  (length (slice buffer lo len) <= length buffer)%nat.
Proof.
  unfold slice. rewrite length_firstn, length_skipn. lia.
Qed.

(** The inner loop adds up the samples from its start index to the end
    of the block or of the buffer, whichever comes first. *)
Lemma for_block_exact (buffer : list sample) (next : jsint) (steps : nat) :
  forall (i : nat) (accum : sample) (count : nat),
    (length buffer - i <= steps)%nat ->
    for_block buffer next steps (Z.of_nat i) accum count
    = let blk :=
        match next with
        | RInt hi => slice buffer i (Z.to_nat (hi - Z.of_nat i))
        | RPosInf => skipn i buffer
        | RNegInf | RNaN => []
        end in
      (fold_left sample_add blk accum, (count + length blk)%nat).
Proof.
  induction steps as [|steps IH]; intros i accum count Hs; cbv zeta.
  - assert (E : skipn i buffer = []) by (apply skipn_all2; lia).
    cbn [for_block].
    destruct next; rewrite ?slice_beyond by lia; rewrite ?E; cbn;
      now rewrite Nat.add_0_r.
  - cbn [for_block].
    destruct (int_lt (Z.of_nat i) next && (Z.of_nat i <? Z.of_nat (length buffer))%Z)
      eqn:E.
    + apply andb_true_iff in E as [En Ei]. apply Z.ltb_lt in Ei.
      assert (Hi : (i < length buffer)%nat) by lia.
      replace (Z.of_nat i + 1)%Z with (Z.of_nat (S i)) by lia.
      rewrite IH by lia. cbv zeta. unfold buffer_get.
      replace (Z.of_nat i <? 0)%Z with false by (symmetry; apply Z.ltb_ge; lia).
      rewrite Nat2Z.id.
      destruct next as [hi| | |]; cbn [int_lt] in En; try discriminate.
      * apply Z.ltb_lt in En.
        replace (Z.to_nat (hi - Z.of_nat i))
          with (S (Z.to_nat (hi - Z.of_nat (S i)))) by lia.
        rewrite (slice_cons buffer i _ Hi). cbn [fold_left length].
        f_equal. lia.
      * rewrite (skipn_cons buffer i Hi). cbn [fold_left length].
        f_equal. lia.
    + assert (B : match next with
                  | RInt hi => slice buffer i (Z.to_nat (hi - Z.of_nat i))
                  | RPosInf => skipn i buffer
                  | RNegInf | RNaN => []
                  end = []).
      { apply andb_false_iff in E as [E|E].
        - destruct next as [hi| | |]; cbn [int_lt] in E; try discriminate;
            try reflexivity.
          apply Z.ltb_ge in E.
          replace (Z.to_nat (hi - Z.of_nat i)) with 0%nat by lia.
          reflexivity.
        - apply Z.ltb_ge in E.
          destruct next; rewrite ?slice_beyond by lia; try reflexivity.
          apply skipn_all2. lia. }
      rewrite B. cbn. now rewrite Nat.add_0_r.
Qed.

(** The block the code adds up for output sample [j] is the block the
    specification gives it. *)
Lemma block_exact (buffer : list sample) (ratio : float) (j : nat) :
  sf_sign_is false (Prim2SF ratio) ->
  block buffer (Math_round (of_nat j * ratio)%float)
    (Math_round (of_nat (S j) * ratio)%float)
  = Some (fold_left sample_add (block_of buffer ratio j) (Real 0),
          length (block_of buffer ratio j)).
Proof.
  intros Hr. pose proof (next_offset_nonneg j ratio Hr) as Hj.
  unfold block, block_of.
  destruct (Math_round (of_nat j * ratio)%float) as [lo| | |];
    cbn [jsint_nonneg] in Hj; try reflexivity; try contradiction.
  rewrite <- (Z2Nat.id lo Hj) at 2.
  rewrite for_block_exact by lia. cbv zeta. rewrite (Z2Nat.id lo Hj).
  destruct (Math_round (of_nat (S j) * ratio)%float); reflexivity.
Qed.

(** The outer loop ends, and fills every slot with the mean of its
    block. *)
Lemma fill_blocks (buffer : list sample) (ratio : float) :
  sf_sign_is false (Prim2SF ratio) ->
  forall remaining j : nat,
  exists out,
    fill buffer ratio remaining j (Math_round (of_nat j * ratio)%float)
    = Returns out /\
    length out = remaining /\
    forall i : nat, (i < remaining)%nat ->
      nth i out NotANumber = block_mean (block_of buffer ratio (j + i)).
Proof.
  intros Hr. induction remaining as [|remaining IH]; intros j.
  - exists []. repeat split. intros i Hi. lia.
  - cbn [fill]. rewrite (block_exact buffer ratio j Hr).
    destruct (IH (S j)) as [rest [-> [Hl Hn]]].
    eexists. split; [reflexivity|]. split; [cbn; now rewrite Hl|].
    intros [|i] Hi.
    + rewrite Nat.add_0_r. reflexivity.
    + cbn [nth]. rewrite Hn by lia. f_equal. f_equal. lia.
Qed.

(** At rates that differ, a length the engine allocates makes the call
    return that many block means. *)
Lemma downsample_returns (limit : N) (buffer : list sample)
    (R_in R_out : float) (n : nat) :
  (R_out =? R_in)%float = false ->
  array_length limit
    (Math_round (of_nat (length buffer) / (R_in / R_out))%float) = Some n ->
  exists out,
    downsampleBuffer limit buffer R_in R_out = Returns out /\
    length out = n /\
    forall j : nat, (j < n)%nat ->
      nth j out NotANumber
      = block_mean (block_of buffer (R_in / R_out)%float j).
Proof.
  intros Hne Hn. unfold downsampleBuffer. rewrite Hne, Hn.
  destruct n as [|k].
  - exists []. repeat split. intros j Hj. lia.
  - pose proof (first_offset _ _ _ _ Hn) as H0.
    apply ratio_sign in Hn.
    destruct (fill_blocks buffer (R_in / R_out)%float Hn (S k) 0)
      as [out [Hf Hrest]].
    rewrite H0 in Hf. exists out. split; [exact Hf | exact Hrest].
Qed.

(** *** Means stay in the nominal range *)

Local Open Scope Q_scope.

Lemma sum_in_range (blk : list sample) :
  Forall unit_range blk ->
  forall (a : Q) (k : nat),
    (Z.of_nat (k + length blk) <= 2 ^ 53)%Z ->
    - inject_Z (Z.of_nat k) <= a <= inject_Z (Z.of_nat k) ->
    exists s, fold_left sample_add blk (Real a) = Real s /\
              - inject_Z (Z.of_nat (k + length blk)) <= s
              <= inject_Z (Z.of_nat (k + length blk)).
Proof.
  induction 1 as [|x blk Hx _ IH]; intros a k Hk Ha; cbn [fold_left length] in *.
  - exists a. split; [reflexivity|]. now rewrite Nat.add_0_r.
  - destruct x as [q| |]; cbn [unit_range] in Hx; try contradiction.
    cbn [sample_add].
    destruct (round_bounded binary64 (a + q) (Z.of_nat (S k)) 0)
      as [r [-> Hr]]; cbn [fmt_prec fmt_emin fmt_emax binary64]; try lia.
    + change (2 ^ 0) with 1. rewrite Qmult_1_r.
      rewrite Nat2Z.inj_succ. unfold Z.succ. rewrite inject_Z_plus.
      change (inject_Z 1) with 1. lra.
    + change (2 ^ 0) with 1 in Hr. rewrite Qmult_1_r in Hr.
      destruct (IH r (S k)) as [s [Hs Hb]]; [lia | exact Hr |].
      exists s. split; [exact Hs|].
      replace (k + S (length blk))%nat with (S k + length blk)%nat by lia.
      exact Hb.
Qed.

(** The mean of samples in [-1, 1] lies in [-1, 1], rounded as it is:
    the integers up to 2^53 and 1 are values of both formats, and
    rounding never crosses a value of its format. *)
Lemma block_mean_unit_range (blk : list sample) :
  (Z.of_nat (length blk) <= 2 ^ 53)%Z ->
  Forall unit_range blk -> unit_range (block_mean blk).
Proof.
  intros Hl H. unfold block_mean.
  destruct (sum_in_range blk H 0 0) as [s [-> Hs]].
  - exact Hl.
  - split; discriminate.
  - cbn [Nat.add] in Hs. cbn [sample_div].
    set (n := Nat.max 1 (length blk)).
    assert (Hn : 1 <= inject_Z (Z.of_nat n)).
    { change 1 with (inject_Z 1). rewrite <- Zle_Qle. lia. }
    assert (Hln : inject_Z (Z.of_nat (length blk)) <= inject_Z (Z.of_nat n)).
    { rewrite <- Zle_Qle. lia. }
    destruct (round_bounded binary64 (s / inject_Z (Z.of_nat n)) 1 0)
      as [r [-> Hr]]; cbn [fmt_prec fmt_emin fmt_emax binary64]; try lia.
    + change (inject_Z 1 * 2 ^ 0) with 1. split.
      * apply Qle_shift_div_l; lra.
      * apply Qle_shift_div_r; lra.
    + cbn [to_float32].
      destruct (round_bounded binary32 r 1 0)
        as [r' [-> Hr']]; cbn [fmt_prec fmt_emin fmt_emax binary32]; try lia.
      * exact Hr.
      * change (inject_Z 1 * 2 ^ 0) with 1 in Hr'. exact Hr'.
Qed.

Close Scope Q_scope.

Lemma block_of_unit_range (buffer : list sample) (ratio : float) (j : nat) :
  (Z.of_nat (length buffer) <= 2 ^ 53)%Z ->
  Forall unit_range buffer ->
  unit_range (block_mean (block_of buffer ratio j)).
Proof.
  intros Hl H. unfold block_of.
  assert (Hskip : forall lo,
             Forall unit_range (skipn lo buffer) /\
             (length (skipn lo buffer) <= length buffer)%nat).
  { intros lo. split; [|rewrite length_skipn; lia].
    rewrite <- (firstn_all (skipn lo buffer)).
    apply (slice_Forall unit_range buffer lo _ H). }
  assert (Hnil : unit_range (block_mean [])).
  { apply block_mean_unit_range; [cbn; lia | constructor]. }
  destruct (Math_round (of_nat j * ratio)%float) as [lo| | |]; try exact Hnil.
  destruct (Math_round (of_nat (S j) * ratio)%float) as [hi| | |];
    try exact Hnil.
  - apply block_mean_unit_range; [|now apply slice_Forall].
    pose proof (slice_short buffer (Z.to_nat lo) (Z.to_nat (hi - lo))). lia.
  - destruct (Hskip (Z.to_nat lo)) as [Hf Hs].
    apply block_mean_unit_range; [lia | exact Hf].
Qed.

(** *** The arithmetic of amplitudes against IEEE-754 *)

(** On Numbers, the operations on amplitudes give what the binary64
    operations give: zeros, a subnormal, the largest finite Number, the
    infinities and NaN included. *)
Example binary64_operations :
  let numbers :=
    [0; 1; -1; 0x1.89374bc6a7efap-7; 0x1.999999999999ap-4;
     -0x1.3333333333333p-2; 0x0.00000000007e8p-1022;
     0x1.fffffffffffffp+1023; infinity; neg_infinity; nan]%float in
  forallb
    (fun x =>
       forallb
         (fun y =>
            same_amplitude (sample_add (amplitude x) (amplitude y))
              (amplitude (x + y)))
         numbers
       && same_amplitude (sample_square (amplitude x)) (amplitude (x * x))
       && same_amplitude (sample_sqrt (amplitude x)) (amplitude (sqrt x))
       && same_amplitude (sample_div (amplitude x) 3) (amplitude (x / 3))
       && same_amplitude (sample_div (amplitude x) 4096)
            (amplitude (x / 4096)))
    numbers
  = true.
Proof. vm_compute. reflexivity. Qed.

(** The store into a [Float32Array]: 0.1 and 1/3 as binary32, ties to
    even at 2^24 + 1 and at half the smallest subnormal, and overflow
    from halfway between the largest binary32 value and 2^128. *)
Example binary32_store :
  map to_float32
    [Real (1 # 10); Real (-1 # 3); Real 16777217; Real 16777219;
     amplitude 0x1p-150; amplitude 0x1.8p-150;
     amplitude 0x1.fffffefp+127; amplitude 0x1.ffffffp+127;
     Inf true; NotANumber]
  = [Real (13421773 # 134217728); Real (-11184811 # 33554432);
     Real 16777216; Real 16777220;
     Real 0; Real (1 # 713623846352979940529142984724747568191373312);
     Real 340282346638528859811704183484516925440; Inf false;
     Inf true; NotANumber].
Proof. vm_compute. reflexivity. Qed.

(** *** The resampler on concrete buffers *)

Example downsample_halves :
  downsampleBuffer 4096 [Real 1; Real 3; Real 5; Real 7] 48000 24000
  = Returns [Real 2; Real 6].
Proof. vm_compute. reflexivity. Qed.

Example downsample_stretches :
  downsampleBuffer 4096 [Real 1; Real 2] 16000 24000
  = Returns [Real 1; Real 0; Real 2].
Proof. vm_compute. reflexivity. Qed.

Example downsample_rounds :
  downsampleBuffer 4096 [Real (1 # 10); Real (2 # 10); Real (1 # 3)]
    44100 24000
  = Returns [Real (5033165 # 33554432); Real (11184811 # 33554432)].
Proof. vm_compute. reflexivity. Qed.

Example downsample_negative_rate :
  downsampleBuffer 4096 [Real 1; Real 2] (-48000) 24000 = Throws.
Proof. vm_compute. reflexivity. Qed.

Example downsample_out_of_memory :
  downsampleBuffer 1 [Real 1; Real 3; Real 5; Real 7] 48000 24000 = Throws.
Proof. vm_compute. reflexivity. Qed.

(** C5, as stated, fails: the length is rounded from the binary64
    quotient [N / (R_in / R_out)], and the rounding of [R_in / R_out] can
    carry a quotient that is exactly a half to just below it. For 9
    samples from 18 Hz to 7 Hz, [18 / 7] is [2.5714285714285716]
    ([0x1.4924924924925p+1]) and [9 / 2.5714285714285716] is
    [3.4999999999999996] ([0x1.bffffffffffffp+1]): the result has 3
    samples where [round(9 * 7 / 18) = round(3.5)] is 4. *)
Lemma resample_length_law_fails :
  (exists q, value 18 = Some q /\ Qeq q (inject_Z 18)) /\
  (exists q, value 7 = Some q /\ Qeq q (inject_Z 7)) /\
  (18 / 7 = 0x1.4924924924925p+1)%float /\
  (of_nat 9 / (18 / 7) = 0x1.bffffffffffffp+1)%float /\
  length_law 9 (inject_Z 18) (inject_Z 7) = 4%Z /\
  exists out,
    downsampleBuffer 4096 (repeat (Real 0) 9) 18 7 = Returns out /\
    Z.of_nat (length out) = 3%Z /\
    Z.of_nat (length out) <> length_law 9 (inject_Z 18) (inject_Z 7).
Proof.
  split; [eexists; split; [vm_compute; reflexivity | vm_compute; reflexivity]|].
  split; [eexists; split; [vm_compute; reflexivity | vm_compute; reflexivity]|].
  split; [vm_compute; reflexivity|].
  split; [vm_compute; reflexivity|].
  split; [vm_compute; reflexivity|].
  eexists. split; [vm_compute; reflexivity|].
  split; [reflexivity | vm_compute; discriminate].
Qed.

(** The buffers of the hook keep the length law: every buffer size of a
    [ScriptProcessorNode] at every hardware rate, resampled to 24000 Hz. *)
Lemma hook_lengths :
  forallb
    (fun rate => forallb (keeps_length_law rate 24000) buffer_sizes)
    device_rates
  = true.
Proof. vm_compute. reflexivity. Qed.

(** C5, amended. At equal rates the input buffer is returned unchanged.
    At other rates the call returns [Math.round(N / (R_in / R_out))]
    samples, both quotients taken in binary64 arithmetic, when the engine
    allocates that many, and throws when it does not. For the buffers of
    the hook, which have the size of a [ScriptProcessorNode] buffer and
    the rate of audio hardware and go to 24000 Hz, that length is the
    [round(N * R_out / R_in)] of the specification. *)
Theorem downsample_output_length (limit : N) (buffer : list sample)
    (R_in R_out : float) :
  (if (R_out =? R_in)%float
   then downsampleBuffer limit buffer R_in R_out = Returns buffer
   else
     match array_length limit
             (Math_round (of_nat (length buffer) / (R_in / R_out))%float) with
     | Some n =>
         exists out,
           downsampleBuffer limit buffer R_in R_out = Returns out /\
           length out = n
     | None => downsampleBuffer limit buffer R_in R_out = Throws
     end) /\
  (forall rate : Z,
      In rate device_rates ->
      In (Z.of_nat (length buffer)) buffer_sizes ->
      R_in = hertz rate -> R_out = Session.TARGET_SAMPLE_RATE ->
      (length_law (length buffer) (inject_Z rate) 24000 <= Z.of_N limit)%Z ->
      exists out,
        downsampleBuffer limit buffer R_in R_out = Returns out /\
        Z.of_nat (length out)
        = length_law (length buffer) (inject_Z rate) 24000).
Proof.
  split.
  - destruct (R_out =? R_in)%float eqn:E.
    + unfold downsampleBuffer. now rewrite E.
    + destruct (array_length limit _) as [n|] eqn:Hn.
      * destruct (downsample_returns limit buffer R_in R_out n E Hn)
          as [out [Hout [Hl _]]].
        exists out. split; assumption.
      * unfold downsampleBuffer. now rewrite E, Hn.
  - intros rate Hrate Hsize -> -> Hlimit.
    pose proof hook_lengths as H.
    rewrite forallb_forall in H. specialize (H rate Hrate).
    rewrite forallb_forall in H. specialize (H _ Hsize).
    unfold keeps_length_law, resampled_length in H.
    change (hertz 24000) with Session.TARGET_SAMPLE_RATE in H.
    change (Qfloor (inject_Z (Z.of_nat (length buffer)) * inject_Z 24000
                    / inject_Z rate + (1 # 2))%Q)
      with (length_law (length buffer) (inject_Z rate) 24000) in H.
    set (law := length_law (length buffer) (inject_Z rate) 24000) in *.
    destruct (Session.TARGET_SAMPLE_RATE =? hertz rate)%float eqn:E.
    + exists buffer. split; [unfold downsampleBuffer; now rewrite E|].
      apply andb_true_iff in H as [H _]. apply andb_true_iff in H as [H _].
      now apply Z.eqb_eq in H.
    + change (hertz (Z.of_nat (length buffer)))
        with (of_nat (length buffer)) in H.
      destruct (Math_round _) as [z| | |] eqn:R; try discriminate.
      apply andb_true_iff in H as [H Hmax].
      apply andb_true_iff in H as [H Hpos].
      apply Z.eqb_eq in H. apply Z.leb_le in Hmax, Hpos. subst z.
      destruct (downsample_returns limit buffer (hertz rate)
                  Session.TARGET_SAMPLE_RATE (Z.to_nat law) E)
        as [out [Hout [Hl _]]].
      * rewrite R. cbn [array_length].
        replace (0 <=? law)%Z with true by (symmetry; apply Z.leb_le; lia).
        replace (law <=? Z.of_N (N.min limit MAX_SAFE_LENGTH))%Z with true;
          [reflexivity|].
        symmetry. apply Z.leb_le. lia.
      * exists out. split; [exact Hout|]. rewrite Hl. lia.
Qed.

(** C9. When every sample of a buffer lies in [-1, 1], so does every
    sample of the resampled buffer. At equal rates that is the input
    buffer itself. At other rates, with a length the engine allocates,
    the call returns, and output sample [j] is the mean of the input
    samples from [round(j * ratio)] up to [round((j + 1) * ratio)], in the
    arithmetic of the code: summed and divided in binary64 and stored as
    binary32, which keeps it in [-1, 1]; it is 0 when the block is
    empty. *)
Theorem resample_unit_range (limit : N) (buffer : list sample)
    (R_in R_out : float) :
  Forall unit_range buffer ->
  (Z.of_nat (length buffer) <= 2 ^ 53)%Z ->
  ((R_out =? R_in)%float = true ->
   downsampleBuffer limit buffer R_in R_out = Returns buffer) /\
  (forall n : nat,
      (R_out =? R_in)%float = false ->
      array_length limit
        (Math_round (of_nat (length buffer) / (R_in / R_out))%float)
      = Some n ->
      exists out,
        downsampleBuffer limit buffer R_in R_out = Returns out /\
        length out = n /\
        Forall unit_range out /\
        forall j : nat, (j < n)%nat ->
          nth j out NotANumber
          = block_mean (block_of buffer (R_in / R_out)%float j) /\
          (block_of buffer (R_in / R_out)%float j = [] ->
           nth j out NotANumber = Real 0)).
Proof.
  intros Hin Hlen. split.
  - intros E. unfold downsampleBuffer. now rewrite E.
  - intros n E Hn.
    destruct (downsample_returns limit buffer R_in R_out n E Hn)
      as [out [Hout [Hl Hj]]].
    exists out. split; [exact Hout|]. split; [exact Hl|]. split.
    + apply Forall_forall. intros y Hy.
      destruct (In_nth out y NotANumber Hy) as [j [Hlt <-]].
      rewrite Hj by lia. now apply block_of_unit_range.
    + intros j Hlt. split; [now apply Hj|].
      intros Hnil. rewrite Hj, Hnil by exact Hlt. reflexivity.
Qed.

Lemma resample_unit_range_witness :
  exists out,
    downsampleBuffer 4096 [Real (1 # 2); Real (-1); Real 1; Real (1 # 4)]
      48000 24000 = Returns out /\
    length out = 2%nat /\
    Forall unit_range out /\
    forall j : nat, (j < 2)%nat ->
      nth j out NotANumber
      = block_mean
          (block_of [Real (1 # 2); Real (-1); Real 1; Real (1 # 4)]
             (48000 / 24000)%float j) /\
      (block_of [Real (1 # 2); Real (-1); Real 1; Real (1 # 4)]
         (48000 / 24000)%float j = [] ->
       nth j out NotANumber = Real 0).
Proof.
  refine (proj2 (resample_unit_range 4096
                   [Real (1 # 2); Real (-1); Real 1; Real (1 # 4)]
                   48000 24000 _ _) 2%nat _ _).
  - repeat constructor; discriminate.
  - cbn. lia.
  - reflexivity.
  - vm_compute. reflexivity.
Defined.

(** *** PCM encoder *)

Local Open Scope Q_scope.

Lemma clamp_bounds (q : Q) : -1 <= Qmax (-1) (Qmin 1 q) <= 1.
Proof.
  split.
  - apply Q.le_max_l.
  - apply Q.max_lub; [discriminate | apply Q.le_min_l].
Qed.

Lemma wrap16_id (z : Z) : (-32768 <= z <= 32767)%Z -> wrap16 z = z.
Proof. intros H. unfold wrap16. rewrite Z.mod_small; lia. Qed.

Lemma encode_sample (x : sample) :
  to_int16 (scale (max_minus_one (min_one x))) = pcm_value x /\
  (-32768 <= pcm_value x <= 32767)%Z.
Proof.
  destruct x as [q|[|]|];
    cbn [min_one max_minus_one scale to_int16 pcm_value];
    try (split; [reflexivity | lia]).
  pose proof (clamp_bounds q) as [Hlo Hhi].
  set (s := Qmax (-1) (Qmin 1 q)) in *.
  destruct (Qlt_le_dec s 0) as [Hneg | Hpos]; cbn [to_int16]; unfold Qtruncate.
  - assert (Hb : (-32768 <= Qceiling (s * 32768) <= 0)%Z).
    { assert (H1 : (Qceiling (inject_Z (-32768)) <= Qceiling (s * 32768))%Z).
      { apply Qceiling_resp_le. change (inject_Z (-32768)) with (-32768). lra. }
      assert (H2 : (Qceiling (s * 32768) <= Qceiling (inject_Z 0))%Z).
      { apply Qceiling_resp_le. change (inject_Z 0) with 0. lra. }
      rewrite Qceiling_Z in H1, H2. lia. }
    destruct (Qlt_le_dec (s * 32768) 0) as [_ | Hc]; [|lra].
    split; [apply wrap16_id|]; lia.
  - assert (Hb : (0 <= Qfloor (s * 32767) <= 32767)%Z).
    { assert (H1 : (Qfloor (inject_Z 0) <= Qfloor (s * 32767))%Z).
      { apply Qfloor_resp_le. change (inject_Z 0) with 0. lra. }
      assert (H2 : (Qfloor (s * 32767) <= Qfloor (inject_Z 32767))%Z).
      { apply Qfloor_resp_le. change (inject_Z 32767) with 32767. lra. }
      rewrite Qfloor_Z in H1, H2. lia. }
    destruct (Qlt_le_dec (s * 32767) 0) as [Hc | _]; [lra|].
    split; [apply wrap16_id|]; lia.
Qed.

Close Scope Q_scope.

(** C6. The encoder clamps each sample to [-1, 1] and scales it, negative
    values by 32768 and the others by 32767; every output sample lies in
    [-32768, 32767] without wrapping, and 0.0, 1.0 and -1.0 encode to 0,
    32767 and -32768. *)
Theorem floatTo16BitPCM_bounded :
  (forall input : list sample,
      floatTo16BitPCM input = map pcm_value input /\
      Forall (fun z => -32768 <= z <= 32767)%Z (floatTo16BitPCM input)) /\
  floatTo16BitPCM [Real 0; Real 1; Real (-1)] = [0; 32767; -32768]%Z.
Proof.
  split; [|vm_compute; reflexivity].
  induction input as [|x input [IH1 IH2]].
  - split; constructor.
  - destruct (encode_sample x) as [He Hb].
    change (floatTo16BitPCM (x :: input))
      with (to_int16 (scale (max_minus_one (min_one x)))
              :: floatTo16BitPCM input).
    rewrite He. split.
    + simpl. now rewrite IH1.
    + constructor; [exact Hb | exact IH2].
Qed.

(** *** Edges of the resampler and the encoder *)

Local Open Scope Q_scope.

(** X5. An empty buffer is resampled to an empty buffer, whatever the
    two rates are: no rate makes the call throw or loop on it. *)
Theorem downsample_empty (limit : N) (R_in R_out : float) :
  downsampleBuffer limit [] R_in R_out = Returns [].
Proof.
  unfold downsampleBuffer. destruct (R_out =? R_in)%float; [reflexivity|].
  unfold Math_round. rewrite div_spec.
  change (Prim2SF (of_nat (length (@nil sample)))) with (S754_zero false).
  destruct (Prim2SF (R_in / R_out)%float) as [s|s| |s m e]; cbn;
    try reflexivity.
  all: replace (0 <=? Z.of_N (N.min limit MAX_SAFE_LENGTH))%Z with true
    by (symmetry; apply Z.leb_le, N2Z.is_nonneg).
  all: reflexivity.
Qed.

(** One sample through the encoder. *)
Lemma pcm_value_le (x y : sample) :
  sample_le x y -> (pcm_value x <= pcm_value y)%Z.
Proof.
  destruct (encode_sample x) as [_ Hx], (encode_sample y) as [_ Hy].
  destruct x as [p|[|]|], y as [q|[|]|]; cbn [sample_le]; intros H;
    try contradiction; try (cbn [pcm_value] in *; lia).
  cbn [pcm_value].
  assert (Hc : Qmax (-1) (Qmin 1 p) <= Qmax (-1) (Qmin 1 q)).
  { apply Q.max_le_compat_l, Q.min_le_compat_l, H. }
  set (a := Qmax (-1) (Qmin 1 p)) in *. set (b := Qmax (-1) (Qmin 1 q)) in *.
  destruct (Qlt_le_dec a 0) as [Ha|Ha], (Qlt_le_dec b 0) as [Hb|Hb].
  - apply Qceiling_resp_le. lra.
  - apply Z.le_trans with 0%Z.
    + change 0%Z with (Qceiling 0). apply Qceiling_resp_le. lra.
    + change 0%Z with (Qfloor 0). apply Qfloor_resp_le. lra.
  - lra.
  - apply Qfloor_resp_le. lra.
Qed.

(** X6. The encoder keeps the order of amplitudes: a buffer that is
    pointwise at most another one encodes to samples that are pointwise
    at most the other's, with the infinities at the ends of the order. *)
Theorem pcm_monotone (xs ys : list sample) :
  Forall2 sample_le xs ys ->
  Forall2 Z.le (floatTo16BitPCM xs) (floatTo16BitPCM ys).
Proof.
  unfold floatTo16BitPCM. induction 1 as [|x y xs ys H _ IH]; cbn [map].
  - constructor.
  - constructor; [|exact IH].
    rewrite (proj1 (encode_sample x)), (proj1 (encode_sample y)).
    now apply pcm_value_le.
Qed.

Lemma pcm_monotone_witness :
  Forall2 Z.le
    (floatTo16BitPCM [Real (-1 # 2); Inf true; Real (1 # 4)])
    (floatTo16BitPCM [Real (1 # 3); Real (-3); Inf false]).
Proof.
  apply pcm_monotone. repeat constructor; cbn; lra.
Defined.

(** X7. The encoder clips instead of wrapping around: the output has
    one sample for each input sample, an amplitude at or above full
    scale (+infinity included) encodes to 32767, one at or below negative
    full scale to -32768, and NaN to 0. *)
Theorem pcm_clips (input : list sample) :
  Forall2
    (fun x z =>
       (at_least_one x -> z = 32767%Z) /\
       (at_most_minus_one x -> z = (-32768)%Z) /\
       (x = NotANumber -> z = 0%Z))
    input (floatTo16BitPCM input).
Proof.
  unfold floatTo16BitPCM. induction input as [|x input IH]; cbn [map].
  - constructor.
  - constructor; [|exact IH].
    rewrite (proj1 (encode_sample x)).
    destruct x as [q|[|]|]; cbn [at_least_one at_most_minus_one pcm_value];
      repeat split; intros H; try discriminate; try contradiction;
      try reflexivity.
    + assert (E : Qmax (-1) (Qmin 1 q) == 1).
      { rewrite Q.min_l by exact H. apply Q.max_r. lra. }
      destruct (Qlt_le_dec (Qmax (-1) (Qmin 1 q)) 0) as [Hn|Hn]; [lra|].
      assert (E' : Qmax (-1) (Qmin 1 q) * 32767 == inject_Z 32767)
        by (rewrite E; reflexivity).
      rewrite (Qfloor_comp _ _ E'). apply Qfloor_Z.
    + assert (E : Qmax (-1) (Qmin 1 q) == -1).
      { rewrite Q.min_r by lra. apply Q.max_l. exact H. }
      destruct (Qlt_le_dec (Qmax (-1) (Qmin 1 q)) 0) as [Hn|Hn]; [|lra].
      assert (E' : Qmax (-1) (Qmin 1 q) * 32768 == inject_Z (-32768))
        by (rewrite E; reflexivity).
      rewrite (Qceiling_comp _ _ E'). apply Qceiling_Z.
Qed.

(** Every encoded sample fits 16 bits. *)
Lemma pcm_samples_in_range (input : list sample) :
  Forall (fun z => -32768 <= z <= 32767)%Z (floatTo16BitPCM input).
Proof.
  unfold floatTo16BitPCM. apply Forall_forall. intros z Hz.
  apply in_map_iff in Hz as [x [<- _]].
  rewrite (proj1 (encode_sample x)). apply encode_sample.
Qed.

(** X8. In the nominal range the encoder loses less than one step:
    a sample in [-1, 1] is encoded to the integer part of its scaled
    value, so the encoded sample is within one unit of the amplitude
    times 32768 (below zero) or 32767 (from zero up), and never larger in
    magnitude. *)
Theorem pcm_quantisation_error (input : list sample) :
  Forall unit_range input ->
  Forall2
    (fun x z => exists q, x = Real q /\ quantised q z)
    input (floatTo16BitPCM input).
Proof.
  unfold floatTo16BitPCM. induction 1 as [|x input Hx _ IH]; cbn [map].
  - constructor.
  - constructor; [|exact IH].
    rewrite (proj1 (encode_sample x)).
    destruct x as [q| |]; cbn [unit_range] in Hx; try contradiction.
    exists q. split; [reflexivity|]. cbn [pcm_value].
    assert (E : Qmax (-1) (Qmin 1 q) == q).
    { rewrite Q.min_r by apply Hx. apply Q.max_r, Hx. }
    unfold quantised.
    destruct (Qlt_le_dec (Qmax (-1) (Qmin 1 q)) 0) as [Hn|Hn];
      rewrite E in Hn.
    + split; [intros _ | intros Hp; lra].
      assert (E' : Qmax (-1) (Qmin 1 q) * 32768 == q * 32768)
        by now rewrite E.
      rewrite (Qceiling_comp _ _ E').
      pose proof (Qle_ceiling (q * 32768)) as H1.
      pose proof (Qceiling_lt (q * 32768)) as H2.
      unfold Z.sub in H2. rewrite inject_Z_plus in H2.
      change (inject_Z (- (1))%Z) with (-1) in H2.
      set (c := inject_Z (Qceiling (q * 32768))) in *. clearbody c. lra.
    + split; [intros Hp; lra | intros _].
      assert (E' : Qmax (-1) (Qmin 1 q) * 32767 == q * 32767)
        by now rewrite E.
      rewrite (Qfloor_comp _ _ E').
      pose proof (Qfloor_le (q * 32767)) as H1.
      pose proof (Qlt_floor (q * 32767)) as H2.
      rewrite inject_Z_plus in H2. change (inject_Z 1) with 1 in H2.
      set (c := inject_Z (Qfloor (q * 32767))) in *. clearbody c. lra.
Qed.

Lemma pcm_quantisation_error_witness :
  Forall2
    (fun x z => exists q, x = Real q /\ quantised q z)
    [Real (1 # 3); Real (-1 # 3); Real 1]
    (floatTo16BitPCM [Real (1 # 3); Real (-1 # 3); Real 1]).
Proof.
  apply pcm_quantisation_error. repeat constructor; cbn; lra.
Defined.

(** *** Frame energy *)

(** X11. A frame without samples never counts as voice, and neither does
    a frame that holds a NaN, whatever the threshold. *)
Theorem broken_frame_is_not_voice :
  (forall threshold : Q, rms_exceeds [] threshold = false) /\
  (forall (threshold : Q) (input : list sample),
      In NotANumber input -> rms_exceeds input threshold = false).
Proof.
  split; [reflexivity|]. intros threshold input H.
  unfold rms_exceeds, rms, sum_squares.
  assert (Hnan : forall l, fold_left
            (fun acc x => sample_add acc (sample_square x)) l NotANumber
            = NotANumber).
  { induction l as [|y l IH]; [reflexivity | exact IH]. }
  assert (E : forall acc, fold_left
            (fun acc x => sample_add acc (sample_square x)) input acc
            = NotANumber).
  { induction input as [|y input IH]; [contradiction|]. intros acc.
    cbn [fold_left]. destruct H as [->|H].
    - replace (sample_add acc (sample_square NotANumber)) with NotANumber
        by now destruct acc.
      apply Hnan.
    - now apply IH. }
  rewrite E. now destruct (length input).
Qed.

Close Scope Q_scope.

End AudioProps.

(** * Properties of the streaming session *)

Module SessionProps.
Import JsString Audio Session String.StringSyntax.
Import MergeProps.

(** *** The log only grows *)

Lemma ext_refl (P : effect -> Prop) (l : list effect) : ext P l l.
Proof. exists []. split; [now rewrite app_nil_r | constructor]. Qed.

Lemma ext_snoc (P : effect -> Prop) (l l' : list effect) (e : effect) :
  P e -> ext P l l' -> ext P l (l' ++ [e]).
Proof.
  intros He [new [-> Hn]]. exists (new ++ [e]). split.
  - now rewrite app_assoc.
  - apply Forall_app. split; [exact Hn | now constructor].
Qed.

Lemma ext_weaken (P Q : effect -> Prop) (l l' : list effect) :
  (forall e, P e -> Q e) -> ext P l l' -> ext Q l l'.
Proof.
  intros H [new [-> Hn]]. exists new. split; [reflexivity|].
  eapply Forall_impl; [exact H | exact Hn].
Qed.

Section Log.

Variable P : effect -> Prop.
Hypothesis P_quiet : forall e, final_text e = None -> P e.

Lemma emit_log (l : list effect) (e : effect) (s : session) :
  P e -> ext P l (log s) -> ext P l (log (emit e s)).
Proof. intros He H. log_simpl. now apply ext_snoc. Qed.

Lemma clearVadInterval_log (l : list effect) (s : session) :
  ext P l (log s) -> ext P l (log (clearVadInterval s)).
Proof. unfold clearVadInterval. intros H. break_match; log_simpl; exact H. Qed.

Lemma startVadInterval_log (l : list effect) (s : session) :
  ext P l (log s) -> ext P l (log (startVadInterval s)).
Proof.
  unfold startVadInterval. intros H. log_simpl. now apply clearVadInterval_log.
Qed.

Lemma cleanup_tail_log (l : list effect) (s : session) :
  ext P l (log s) -> ext P l (log (cleanup_tail s)).
Proof.
  unfold cleanup_tail. intros H. apply clearVadInterval_log.
  break_match; log_simpl; [apply ext_snoc; auto | exact H].
Qed.

Lemma stop_finalize_log (l : list effect) (reason : stop_reason) (call : nat)
    (s : session) :
  ext P l (log s) -> ext P l (log (stop_finalize reason call s)).
Proof.
  unfold stop_finalize. intros H. log_simpl.
  repeat break_match; log_simpl; try exact H; apply ext_snoc; auto.
Qed.

Lemma run_continuation_log (l : list effect) (k : continuation) (s : session) :
  ext P l (log s) -> ext P l (log (run_continuation k s)).
Proof.
  intros H. destruct k; cbn [run_continuation];
    [exact H | now apply stop_finalize_log].
Qed.

Lemma cleanupAudio_log (l : list effect) (k : continuation) (s : session) :
  ext P l (log s) -> ext P l (log (cleanupAudio k s)).
Proof.
  unfold cleanupAudio. intros H.
  set (s1 := match processorRef s with Some _ => _ | None => s end).
  assert (H1 : ext P l (log s1)).
  { subst s1. repeat break_match; log_simpl; try exact H; apply ext_snoc; auto. }
  clearbody s1. break_match.
  - log_simpl. apply ext_snoc; auto.
  - now apply run_continuation_log, cleanup_tail_log.
Qed.

Lemma resume_cleanup_log (l : list effect) (i : nat) (s : session) :
  ext P l (log s) -> ext P l (log (resume_cleanup i s)).
Proof.
  unfold resume_cleanup. intros H. repeat break_match; try exact H.
  apply run_continuation_log, cleanup_tail_log. log_simpl. exact H.
Qed.

Lemma settle_log (l : list effect) (p : nat) (text : jsstring) (s : session) :
  (forall e, final_text e = Some text -> P e) ->
  ext P l (log s) -> ext P l (log (settle p text s)).
Proof.
  unfold settle. intros Ht H.
  repeat break_match; log_simpl; try exact H;
    repeat (apply ext_snoc; [first [now apply Ht | now apply P_quiet]|]);
    exact H.
Qed.

Hypothesis P_trim : forall e t, final_text e = Some (trim t) -> P e.

Lemma stopRecording_log (l : list effect) (reason : stop_reason) (s : session) :
  ext P l (log s) -> ext P l (log (stopRecording reason s)).
Proof.
  unfold stopRecording. intros H. ref_simpl.
  destruct (hook s); [|destruct (stoppingRef s)].
  - apply cleanupAudio_log. log_simpl. exact H.
  - log_simpl. apply ext_snoc; [eapply P_trim; reflexivity | exact H].
  - apply cleanupAudio_log, clearVadInterval_log. log_simpl. exact H.
Qed.

Lemma vad_tick_log (l : list effect) (now : Z) (s : session) :
  ext P l (log s) -> ext P l (log (vad_tick now s)).
Proof.
  unfold vad_tick, triggerStop. intros H.
  repeat break_match; try exact H. now apply stopRecording_log.
Qed.

Lemma onmessage_log (l : list effect) (ws : nat) (data : ws_data) (s : session) :
  ext P l (log s) -> ext P l (log (onmessage ws data s)).
Proof.
  unfold onmessage. intros H. break_match; [exact H|].
  destruct data as [| |type text detail]; try exact H.
  set (s1 := match text with Some _ => _ | None => s end).
  assert (H1 : ext P l (log s1)).
  { subst s1. unfold updateTranscript.
    repeat break_match; log_simpl; try exact H. apply ext_snoc; auto. }
  clearbody s1.
  destruct (type_is type "end_text" || type_is type "end_of_stream").
  - destruct (type_is type "error");
      (destruct (finalizeRef s1);
       [apply settle_log; [intros e He; eapply P_trim; exact He|]|];
       log_simpl; apply ext_snoc; auto; eapply P_trim; reflexivity).
  - destruct (type_is type "error"); log_simpl; exact H1.
Qed.

Lemma audio_process_log (l : list effect) (p : nat) (input : list sample)
    (now : Z) (s : session) :
  ext P l (log s) -> ext P l (log (audio_process p input now s)).
Proof.
  unfold audio_process. intros H.
  repeat break_match; log_simpl; try exact H; apply ext_snoc; auto.
Qed.

Lemma step_log (l : list effect) (s : session) (e : event) :
  ext P l (log s) -> ext P l (log (step s e)).
Proof.
  intros H. destruct e; simpl.
  - unfold startRecording. break_match; log_simpl; exact H.
  - unfold media_granted. break_match; log_simpl; exact H.
  - unfold media_denied. break_match; [exact H|].
    apply cleanupAudio_log. log_simpl. exact H.
  - unfold onopen. repeat break_match; try exact H;
      try apply startVadInterval_log; log_simpl; exact H.
  - now apply onmessage_log.
  - unfold onerror. break_match; log_simpl; exact H.
  - unfold onclose. repeat break_match; try exact H;
      apply cleanupAudio_log; log_simpl; exact H.
  - now apply audio_process_log.
  - now apply vad_tick_log.
  - now apply stopRecording_log.
  - now apply resume_cleanup_log.
  - apply settle_log; [intros e He; eapply P_trim; exact He | exact H].
  - unfold options_changed. destruct (hook s); log_simpl; exact H.
Qed.

Lemma run_log (events : list event) :
  forall (l : list effect) (s : session),
    ext P l (log s) -> ext P l (log (run s events)).
Proof.
  induction events as [|e events IH]; intros l s H; simpl; [exact H|].
  apply IH. now apply step_log.
Qed.

End Log.

(** *** Who writes [hasVoiceRef] *)

Lemma clearVadInterval_voice (s : session) :
  hasVoiceRef (clearVadInterval s) = hasVoiceRef s.
Proof. unfold clearVadInterval. break_match; reflexivity. Qed.
#[local] Hint Rewrite clearVadInterval_voice : voice.

Lemma startVadInterval_voice (s : session) :
  hasVoiceRef (startVadInterval s) = hasVoiceRef s.
Proof. unfold startVadInterval. ref_simpl. now autorewrite with voice. Qed.
#[local] Hint Rewrite startVadInterval_voice : voice.

Lemma cleanup_tail_voice (s : session) :
  hasVoiceRef (cleanup_tail s) = hasVoiceRef s.
Proof.
  unfold cleanup_tail. autorewrite with voice. break_match; reflexivity.
Qed.
#[local] Hint Rewrite cleanup_tail_voice : voice.

Lemma stop_finalize_voice (reason : stop_reason) (call : nat) (s : session) :
  hasVoiceRef (stop_finalize reason call s) = hasVoiceRef s.
Proof. unfold stop_finalize. ref_simpl. repeat break_match; reflexivity. Qed.
#[local] Hint Rewrite stop_finalize_voice : voice.

Lemma run_continuation_voice (k : continuation) (s : session) :
  hasVoiceRef (run_continuation k s) = hasVoiceRef s.
Proof. destruct k; cbn [run_continuation]; now autorewrite with voice. Qed.
#[local] Hint Rewrite run_continuation_voice : voice.

Lemma cleanupAudio_voice (k : continuation) (s : session) :
  hasVoiceRef (cleanupAudio k s) = hasVoiceRef s.
Proof.
  unfold cleanupAudio.
  set (s1 := match processorRef s with Some _ => _ | None => s end).
  assert (H1 : hasVoiceRef s1 = hasVoiceRef s).
  { subst s1. repeat break_match; reflexivity. }
  clearbody s1. break_match; ref_simpl; autorewrite with voice; exact H1.
Qed.
#[local] Hint Rewrite cleanupAudio_voice : voice.

Lemma resume_cleanup_voice (i : nat) (s : session) :
  hasVoiceRef (resume_cleanup i s) = hasVoiceRef s.
Proof.
  unfold resume_cleanup. repeat break_match; try reflexivity.
  now autorewrite with voice.
Qed.
#[local] Hint Rewrite resume_cleanup_voice : voice.

Lemma settle_voice (p : nat) (text : jsstring) (s : session) :
  hasVoiceRef (settle p text s) = hasVoiceRef s.
Proof. unfold settle. repeat break_match; reflexivity. Qed.
#[local] Hint Rewrite settle_voice : voice.

Lemma stopRecording_voice (reason : stop_reason) (s : session) :
  hasVoiceRef (stopRecording reason s) = hasVoiceRef s.
Proof.
  unfold stopRecording. ref_simpl.
  destruct (hook s); [|destruct (stoppingRef s)];
    autorewrite with voice; reflexivity.
Qed.
#[local] Hint Rewrite stopRecording_voice : voice.

Lemma vad_tick_voice (now : Z) (s : session) :
  hasVoiceRef (vad_tick now s) = hasVoiceRef s.
Proof.
  unfold vad_tick, triggerStop. repeat break_match; try reflexivity.
  now autorewrite with voice.
Qed.

Lemma onmessage_voice (ws : nat) (data : ws_data) (s : session) :
  hasVoiceRef (onmessage ws data s) = hasVoiceRef s.
Proof.
  unfold onmessage, updateTranscript.
  repeat break_match; autorewrite with voice; reflexivity.
Qed.

(** A session start clears [hasVoiceRef], a processed frame above the
    threshold sets it, and nothing else writes it. *)
Lemma step_voice (s : session) (e : event) :
  hasVoiceRef (step s e)
  = if starts_session s e then false
    else if voiced_frame s e then true else hasVoiceRef s.
Proof.
  destruct e; cbn [step starts_session voiced_frame].
  - unfold startRecording.
    destruct (isRecording s || isConnecting s); reflexivity.
  - unfold media_granted. break_match; reflexivity.
  - unfold media_denied. break_match; autorewrite with voice; reflexivity.
  - unfold onopen. repeat break_match; autorewrite with voice; reflexivity.
  - apply onmessage_voice.
  - unfold onerror. break_match; reflexivity.
  - unfold onclose. repeat break_match; autorewrite with voice; reflexivity.
  - unfold audio_process, frame_processed.
    destruct (nth_error (processors s) p) as [node|]; [|reflexivity].
    destruct (onaudioprocess node); [|reflexivity].
    destruct (socketReadyRef s); [|reflexivity].
    destruct (socket_open s (wsRef s)); [|reflexivity].
    cbn [negb orb andb].
    destruct (rms_exceeds input (vadThresholdRef s));
      repeat break_match; reflexivity.
  - apply vad_tick_voice.
  - apply stopRecording_voice.
  - apply resume_cleanup_voice.
  - apply settle_voice.
  - unfold options_changed. destruct (hook s); reflexivity.
Qed.

(** [hasVoiceRef] records exactly the voice detected since the last
    session start. *)
Lemma run_voice (events : list event) :
  forall s : session,
    hasVoiceRef (run s events) = voice_detected (hasVoiceRef s) s events.
Proof.
  induction events as [|e events IH]; intros s; simpl; [reflexivity|].
  now rewrite IH, step_voice.
Qed.

(** A tick of the interval does nothing while [hasVoiceRef] is unset. *)
Lemma vad_tick_unvoiced (now : Z) (s : session) :
  hasVoiceRef s = false ->
  silence_timeout now s = false /\ vad_tick now s = s.
Proof.
  intros H. assert (Hs : silence_timeout now s = false).
  { unfold silence_timeout. rewrite H.
    destruct (negb (isRecordingRef s) || negb (vadEnabledRef s)); reflexivity. }
  split; [exact Hs|]. unfold vad_tick. rewrite Hs. now destruct (vadIntervalRef s).
Qed.

(** *** Sessions on concrete event sequences *)

Example fragments_then_end_of_stream :
  let events :=
    [StartRecording 0; UserMediaGranted 48000; SocketOpen 0;
     SocketMessage 0 (text_message (js "port"));
     SocketMessage 0 (text_message (js "portfolio"));
     SocketMessage 0 (text_message (js "portfolio is up"));
     StopRecording Manual; AudioContextClosed 0;
     SocketMessage 0 end_text] in
  transcript (run fresh events) = js "portfolio is up" /\
  stop_returns (log (run fresh events)) = [(0%nat, js "portfolio is up")].
Proof. vm_compute. split; reflexivity. Qed.

Example stop_times_out :
  stop_returns
    (log (run fresh (heard_hello ++
                     [StopRecording Manual; AudioContextClosed 0;
                      FinalizeTimeout 0])))
  = [(0%nat, js "hello")].
Proof. vm_compute. reflexivity. Qed.

Example vad_stops_after_voice :
  let events :=
    [StartRecording 0; UserMediaGranted 48000; SocketOpen 0;
     AudioProcess 0 [Real (1 # 2); Real (1 # 2)] 100; VadTick 1000] in
  let s := run (init WithVad true 1500 DEFAULT_VAD_THRESHOLD) events in
  hasVoiceRef s = true /\ state_of s = Recording /\
  silence_timeout 1700 s = true /\ state_of (step s (VadTick 1700)) = Stopping.
Proof. vm_compute. repeat split. Qed.

(** C3, as stated, fails. On a fresh hook, which is Idle, the call passes
    the re-entrancy test, sets the stopping flag and suspends on the
    finalize promise; it returns, with the empty string, only when the
    1.5 s timer fires. After a session that transcribed ["hello"] the hook
    is Idle again but [transcriptRef] still holds the text: a further call
    returns ["hello"], not the empty string. *)
Lemma idle_stop_awaits_timer :
  state_of fresh = Idle /\
  stop_returns (log (step fresh (StopRecording Manual))) = [] /\
  state_of (step fresh (StopRecording Manual)) = Stopping /\
  stop_returns (log (run fresh [StopRecording Manual; FinalizeTimeout 0]))
  = [(0%nat, [])] /\
  let after_session :=
    run fresh (heard_hello ++
               [StopRecording Manual; AudioContextClosed 0;
                SocketMessage 0 end_text]) in
  state_of after_session = Idle /\
  stop_returns (log (step after_session (StopRecording Manual)))
  = [(0%nat, js "hello")] /\
  stop_returns
    (log (run after_session [StopRecording Manual; FinalizeTimeout 1]))
  = [(0%nat, js "hello"); (1%nat, js "hello")].
Proof. vm_compute. repeat split. Qed.

Lemma stop_returns_ext (l l' : list effect) :
  ext (fun e => final_text e = None) l l' -> stop_returns l' = stop_returns l.
Proof.
  intros [new [-> H]]. induction l as [|e l IH]; simpl.
  - induction H as [|e new He _ IH]; [reflexivity|].
    destruct e; simpl in *; try exact IH; discriminate.
  - destruct e; simpl; now rewrite ?IH.
Qed.

Lemma stoppingRef_cleanupAudio (k : continuation) (s : session) :
  stoppingRef (cleanupAudio k s) = stoppingRef s.
Proof.
  unfold cleanupAudio, run_continuation, stop_finalize, cleanup_tail,
    clearVadInterval.
  repeat break_match; reflexivity.
Qed.

Lemma stop_returns_app (l l' : list effect) :
  stop_returns (l ++ l') = stop_returns l ++ stop_returns l'.
Proof.
  induction l as [|e l IH]; [reflexivity|].
  destruct e; simpl; now rewrite ?IH.
Qed.

(** Without an audio context to close, a call that passes the
    re-entrancy test, or that is not put to it, suspends on a new
    promise. *)
Lemma stop_suspends (s : session) (reason : stop_reason) :
  stoppingRef s = false ->
  audioContextRef s = None ->
  exists r,
    promises (stopRecording reason s)
    = promises s ++ [Some {| ps_call := nextCall s; ps_reason := r;
                             ps_ws := wsRef s |}] /\
    transcriptRef (stopRecording reason s) = transcriptRef s.
Proof.
  intros Hs Ha.
  exists (match hook s with WithVad => reason | Plain => Manual end).
  unfold stopRecording, cleanupAudio, run_continuation, cleanup_tail,
    stop_finalize, clearVadInterval, emit.
  cbn. rewrite Hs.
  destruct (hook s); cbn;
    destruct (vadIntervalRef s); cbn;
    destruct (processorRef s); cbn; rewrite ?Ha; cbn.
  all: repeat (break_match; cbn in *); try (split; congruence); congruence.
Qed.

(** Settling a pending promise makes its call return the given text. *)
Lemma settle_returns (p : nat) (text : jsstring) (s : session)
    (ps : pending_stop) :
  nth_error (promises s) p = Some (Some ps) ->
  stop_returns (log (settle p text s))
  = stop_returns (log s) ++ [(ps_call ps, text)].
Proof.
  intros H. unfold settle. rewrite H.
  repeat break_match; log_simpl; rewrite !stop_returns_app; simpl;
    now rewrite ?app_nil_r.
Qed.

(** C3, amended. A [stopRecording] call on an Idle session does not
    return at once, in either variant of the hook: it suspends, first on
    the closing of the audio context if one is left, then on the finalize
    promise, which the finalize message or the 1.5 s timer settles (the
    later variant sets its stopping flag meanwhile). When the timer
    settles it, the call returns the trimmed [transcriptRef], which is
    empty only if nothing was merged since the last start. *)
Theorem stop_when_idle (s : session) (reason : stop_reason) :
  state_of s = Idle ->
  (hook s = WithVad ->
   state_of (step s (StopRecording reason)) = Stopping) /\
  stop_returns (log (step s (StopRecording reason))) = stop_returns (log s) /\
  (audioContextRef s = None ->
   stop_returns
     (log (run s [StopRecording reason;
                  FinalizeTimeout (length (promises s))]))
   = stop_returns (log s) ++ [(nextCall s, trim (transcriptRef s))]).
Proof.
  intros Hidle. unfold state_of in Hidle.
  destruct (stoppingRef s) eqn:Hs; [discriminate|].
  assert (Hquiet : stop_returns (log (stopRecording reason s))
                   = stop_returns (log s)).
  { unfold stopRecording. ref_simpl. rewrite Hs.
    apply stop_returns_ext.
    destruct (hook s); apply cleanupAudio_log; auto;
      try apply clearVadInterval_log; log_simpl; apply ext_refl. }
  cbn [step]. split; [|split].
  - intros Hh. unfold stopRecording. ref_simpl. rewrite Hh, Hs.
    unfold state_of. rewrite stoppingRef_cleanupAudio.
    unfold clearVadInterval.
    destruct (vadIntervalRef _); reflexivity.
  - exact Hquiet.
  - intros Ha. cbn [run fold_left step].
    destruct (stop_suspends s reason Hs Ha) as [r [Hp Ht]].
    rewrite (settle_returns (length (promises s)) _ _
               {| ps_call := nextCall s; ps_reason := r;
                  ps_ws := wsRef s |}).
    + now rewrite Hquiet, Ht.
    + rewrite Hp. rewrite nth_error_app2 by apply Nat.le_refl.
      now rewrite Nat.sub_diag.
Qed.

Lemma stop_when_idle_witness :
  state_of (step fresh (StopRecording Vad)) = Stopping /\
  stop_returns (log (run fresh_plain [StopRecording Manual; FinalizeTimeout 0]))
  = [(0%nat, [])].
Proof.
  split.
  - apply (proj1 (stop_when_idle fresh Vad eq_refl) eq_refl).
  - apply (proj2 (proj2 (stop_when_idle fresh_plain Manual eq_refl)) eq_refl).
Defined.

(** C4, as stated, fails. The call made while a stop is in progress
    returns the transcript as it is at that moment; text that the service
    delivers before it finalizes reaches only the first call. Here the
    second call (call 1) returns ["hello"] and the first (call 0) returns
    ["hello world"]; the teardown is done once. *)
Lemma reentrant_stop_returns_earlier_text :
  let events :=
    heard_hello ++
    [StopRecording Manual; AudioContextClosed 0; StopRecording Manual;
     SocketMessage 0 (text_message (js "hello world"));
     SocketMessage 0 end_text] in
  state_of (run fresh (heard_hello ++ [StopRecording Manual; AudioContextClosed 0]))
  = Stopping /\
  stop_returns (log (run fresh events))
  = [(1%nat, js "hello"); (0%nat, js "hello world")] /\
  teardowns (log (run fresh events))
  = [ProcessorDisconnect 0; AudioContextClose 0; TracksStop 0;
     Send 0 EndOfStream; SocketClose 0].
Proof. vm_compute. repeat split. Qed.

(** The earlier variant has no re-entrancy test: a second call sends the
    end-of-stream message again and takes over [finalizeRef], so that the
    finalize message settles the second call and the first one waits for
    its timer. *)
Example plain_stop_has_no_guard :
  let events :=
    heard_hello ++
    [StopRecording Manual; AudioContextClosed 0; StopRecording Manual;
     SocketMessage 0 end_text; FinalizeTimeout 0] in
  teardowns (log (run fresh_plain events))
  = [ProcessorDisconnect 0; AudioContextClose 0; TracksStop 0;
     Send 0 EndOfStream; Send 0 EndOfStream; SocketClose 0] /\
  stop_returns (log (run fresh_plain events))
  = [(1%nat, js "hello"); (0%nat, js "hello")].
Proof. vm_compute. split; reflexivity. Qed.

(** *** A stop and the calls that arrive during it *)

Lemma nth_error_snoc {A : Type} (l : list A) (x : A) :
  nth_error (l ++ [x]) (length l) = Some x.
Proof.
  rewrite nth_error_app2 by apply Nat.le_refl. now rewrite Nat.sub_diag.
Qed.

Lemma teardowns_app (l l' : list effect) :
  teardowns (l ++ l') = teardowns l ++ teardowns l'.
Proof. apply filter_app. Qed.

Lemma reentrant_stop_eq (s : session) (reason : stop_reason) :
  hook s = WithVad -> stoppingRef s = true ->
  stopRecording reason s
  = emit (StopReturn (nextCall s) (trim (transcriptRef s)))
      (set_nextCall (S (nextCall s)) s).
Proof. intros Hh Hs. unfold stopRecording. ref_simpl. now rewrite Hh, Hs. Qed.

(** The first call disconnects the processor, asks the audio context to
    close and suspends on that. *)
Lemma first_stop (s : session) (r : stop_reason) (p c k w : nat) :
  recording_on s p c k w ->
  stopping_on (stopRecording r s) (Some c) (Some k) w /\
  cleanups (stopRecording r s)
  = cleanups s ++ [Some (ThenFinalize r (nextCall s))] /\
  promises (stopRecording r s) = promises s /\
  log (stopRecording r s)
  = log s ++ [ProcessorDisconnect p; AudioContextClose c].
Proof.
  intros (Hh & Hs & Hp & Hc & Hk & Hw & Ho).
  unfold stopping_on, stopRecording, cleanupAudio, clearVadInterval, emit.
  cbn. rewrite Hh, Hs.
  destruct (vadIntervalRef s); cbn; rewrite Hp; cbn;
    destruct (nth_error (processors s) p); cbn; rewrite Hc; cbn;
    rewrite <- ?app_assoc; repeat split; assumption.
Qed.

(** A call during the stop only returns. *)
Lemma reentrant_stop (s : session) (r : stop_reason) (c k : option nat)
    (w : nat) :
  stopping_on s c k w ->
  stopping_on (stopRecording r s) c k w /\
  cleanups (stopRecording r s) = cleanups s /\
  promises (stopRecording r s) = promises s /\
  log (stopRecording r s)
  = log s ++ [StopReturn (nextCall s) (trim (transcriptRef s))].
Proof.
  intros (Hh & Hs & Hc & Hk & Hw & Ho).
  rewrite (reentrant_stop_eq s r Hh Hs).
  unfold stopping_on. cbn. repeat split; assumption.
Qed.

(** Once the audio context has closed, the first call stops the tracks,
    sends the end-of-stream message and suspends on its promise. *)
Lemma context_closed (s : session) (i k w : nat) (c : option nat)
    (r : stop_reason) (call : nat) :
  stopping_on s c (Some k) w ->
  nth_error (cleanups s) i = Some (Some (ThenFinalize r call)) ->
  stopping_on (resume_cleanup i s) None None w /\
  promises (resume_cleanup i s)
  = promises s
    ++ [Some {| ps_call := call; ps_reason := r; ps_ws := Some w |}] /\
  log (resume_cleanup i s) = log s ++ [TracksStop k; Send w EndOfStream].
Proof.
  intros (Hh & Hs & Hc & Hk & Hw & Ho) Hi.
  unfold stopping_on, resume_cleanup, run_continuation, cleanup_tail,
    stop_finalize, clearVadInterval, socket_open, emit.
  rewrite Hi. cbn. rewrite Hk. cbn.
  destruct (vadIntervalRef s); cbn; rewrite Hw; cbn; rewrite Ho; cbn;
    rewrite <- ?app_assoc; repeat split; assumption.
Qed.

(** Settling the promise closes the socket. *)
Lemma settled (s : session) (m w : nat) (c k : option nat) (text : jsstring)
    (ps : pending_stop) :
  stopping_on s c k w ->
  nth_error (promises s) m = Some (Some ps) ->
  ps_ws ps = Some w ->
  teardowns (log (settle m text s)) = teardowns (log s) ++ [SocketClose w].
Proof.
  intros (Hh & Hs & Hc & Hk & Hw & Ho) Hm Hps.
  unfold settle, socket_open, emit. rewrite Hm, Hps.
  destruct (ps_reason ps); cbn; rewrite Ho; cbn;
    rewrite !teardowns_app; cbn; now rewrite ?app_nil_r.
Qed.

(** C4, amended. In the variant of the hook that has the re-entrancy
    test, a [stopRecording] call received while a stop is in progress
    changes nothing in the session and performs no teardown: its whole
    effect is to return, at once, the trimmed transcript accumulated so
    far, which may differ from what the first call returns later. So the
    teardown is done once across the calls: when a recording session is
    stopped and further calls arrive before and after the audio context
    has closed, the processor is disconnected, the audio context closed,
    the tracks stopped, the end-of-stream message sent and the socket
    closed once each. *)
Theorem reentrant_stop_is_noop :
  (forall (s : session) (reason : stop_reason),
      hook s = WithVad ->
      state_of s = Stopping ->
      step s (StopRecording reason)
      = emit (StopReturn (nextCall s) (trim (transcriptRef s)))
          (set_nextCall (S (nextCall s)) s) /\
      log (step s (StopRecording reason))
      = log s ++ [StopReturn (nextCall s) (trim (transcriptRef s))] /\
      teardowns (log (step s (StopRecording reason))) = teardowns (log s) /\
      state_of (step s (StopRecording reason)) = Stopping) /\
  (forall (s : session) (r1 r2 r3 : stop_reason) (p c k w : nat),
      recording_on s p c k w ->
      teardowns
        (log (run s [StopRecording r1; StopRecording r2;
                     AudioContextClosed (length (cleanups s));
                     StopRecording r3;
                     FinalizeTimeout (length (promises s))]))
      = teardowns (log s)
        ++ [ProcessorDisconnect p; AudioContextClose c; TracksStop k;
            Send w EndOfStream; SocketClose w]).
Proof.
  split.
  - intros s reason Hh H. unfold state_of in H.
    destruct (stoppingRef s) eqn:Hs.
    + cbn [step]. rewrite (reentrant_stop_eq s reason Hh Hs).
      repeat split.
      * log_simpl. rewrite teardowns_app. simpl. apply app_nil_r.
      * unfold state_of. ref_simpl. now rewrite Hs.
    + destruct (isRecording s); [discriminate|].
      destruct (isConnecting s); discriminate.
  - intros s r1 r2 r3 p c k w H. cbn [run fold_left step].
    destruct (first_stop s r1 p c k w H) as (S1 & C1 & P1 & L1).
    set (s1 := stopRecording r1 s) in *.
    destruct (reentrant_stop s1 r2 _ _ w S1) as (S2 & C2 & P2 & L2).
    set (s2 := stopRecording r2 s1) in *.
    destruct (context_closed s2 (length (cleanups s)) k w (Some c) r1
                (nextCall s) S2) as (S3 & P3 & L3).
    { rewrite C2, C1. apply nth_error_snoc. }
    set (s3 := resume_cleanup (length (cleanups s)) s2) in *.
    destruct (reentrant_stop s3 r3 _ _ w S3) as (S4 & C4 & P4 & L4).
    set (s4 := stopRecording r3 s3) in *.
    rewrite (settled s4 (length (promises s)) w None None _
               {| ps_call := nextCall s; ps_reason := r1; ps_ws := Some w |}
               S4).
    + rewrite L4, L3, L2, L1. rewrite !teardowns_app. cbn.
      rewrite ?app_nil_r, <- ?app_assoc. reflexivity.
    + rewrite P4, P3, P2, P1. apply nth_error_snoc.
    + reflexivity.
Qed.

Lemma reentrant_stop_is_noop_witness :
  let s := run fresh (heard_hello ++ [StopRecording Manual]) in
  log (step s (StopRecording Vad)) = log s ++ [StopReturn 1 (js "hello")] /\
  teardowns
    (log (run (run fresh heard_hello)
            [StopRecording Manual; StopRecording Manual; AudioContextClosed 0;
             StopRecording Vad; FinalizeTimeout 0]))
  = [ProcessorDisconnect 0; AudioContextClose 0; TracksStop 0;
     Send 0 EndOfStream; SocketClose 0].
Proof.
  intros s. split.
  - exact (proj1 (proj2 (proj1 reentrant_stop_is_noop s Vad eq_refl eq_refl))).
  - apply (proj2 reentrant_stop_is_noop (run fresh heard_hello)
             Manual Manual Vad 0%nat 0%nat 0%nat 0%nat).
    repeat split.
Defined.

(** C7. While no processed frame above the threshold has occurred since
    the session started, the interval callback never calls [triggerStop],
    whatever the clock says: its test fails and the tick leaves the
    session as it is. *)
Theorem vad_no_premature_fire (hook : variant) (vadEnabled : bool)
    (vadSilenceMs : Z) (vadThreshold : Q) (events : list event) (now : Z) :
  voice_detected false (init hook vadEnabled vadSilenceMs vadThreshold) events
  = false ->
  silence_timeout now
    (run (init hook vadEnabled vadSilenceMs vadThreshold) events) = false /\
  vad_tick now (run (init hook vadEnabled vadSilenceMs vadThreshold) events)
  = run (init hook vadEnabled vadSilenceMs vadThreshold) events.
Proof.
  intros H. apply vad_tick_unvoiced. rewrite run_voice. exact H.
Qed.

Lemma vad_no_premature_fire_witness :
  let events :=
    [StartRecording 0; UserMediaGranted 48000; SocketOpen 0;
     AudioProcess 0 [Real (1 # 200); Real (-1 # 200)] 100;
     VadTick 1700] in
  silence_timeout 3600000
    (run (init WithVad true 1500 DEFAULT_VAD_THRESHOLD) events) = false.
Proof.
  intros events.
  apply (proj1 (vad_no_premature_fire WithVad true 1500 DEFAULT_VAD_THRESHOLD
                  events 3600000 eq_refl)).
Defined.

(** C10. Every transcript the session hands out as final is trimmed: the
    value of each [stopRecording] call, whether the finalize message, the
    timer or the re-entrant return produced it, and the values passed to
    [onFinalTranscript] and [onAutoStop], in every run of either variant
    of the hook. *)
Theorem final_transcript_trimmed (hook : variant) (vadEnabled : bool)
    (vadSilenceMs : Z) (vadThreshold : Q) (events : list event) :
  Forall (fun e => forall text, final_text e = Some text -> trimmed text)
    (log (run (init hook vadEnabled vadSilenceMs vadThreshold) events)).
Proof.
  destruct (run_log (fun e => forall text, final_text e = Some text -> trimmed text))
    with (events := events) (l := @nil effect)
         (s := init hook vadEnabled vadSilenceMs vadThreshold)
    as [new [-> H]].
  - intros e He text Ht. congruence.
  - intros e t He text Ht. rewrite He in Ht. injection Ht as <-.
    split; [apply trim_leading | apply trim_trailing].
  - apply ext_refl.
  - exact H.
Qed.

(** The three ways a [stopRecording] call gets its value, and the value
    given to [onFinalTranscript], for a transcript that arrived padded. *)
Example final_transcripts_of_a_run :
  let events :=
    [StartRecording 0; UserMediaGranted 48000; SocketOpen 0;
     SocketMessage 0 (text_message (js "  so far "));
     StopRecording Manual; StopRecording Manual; AudioContextClosed 0;
     SocketMessage 0 end_text; StopRecording Manual; FinalizeTimeout 1] in
  log (run fresh events)
  = [OnTranscript (js "so far"); ProcessorDisconnect 0; AudioContextClose 0;
     StopReturn 1 (js "so far"); TracksStop 0; Send 0 EndOfStream;
     OnFinalTranscript (js "so far"); SocketClose 0;
     StopReturn 0 (js "so far"); StopReturn 2 (js "so far")].
Proof. vm_compute. reflexivity. Qed.

(** *** What the inner steps leave alone *)

Lemma ext_trans (P : effect -> Prop) (l l' l'' : list effect) :
  ext P l l' -> ext P l' l'' -> ext P l l''.
Proof.
  intros [a [-> Ha]] [b [-> Hb]]. exists (a ++ b). split.
  - now rewrite app_assoc.
  - now apply Forall_app.
Qed.

Lemma cleanupAudio_frame (k : continuation) (s : session) :
  let s' := cleanupAudio k s in
  hook s' = hook s /\ isRecording s' = isRecording s /\
  isConnecting s' = isConnecting s /\ transcript s' = transcript s /\
  error s' = error s /\ wsRef s' = wsRef s /\
  audioContextRef s' = audioContextRef s /\
  transcriptRef s' = transcriptRef s /\
  socketReadyRef s' = socketReadyRef s /\
  isRecordingRef s' = isRecordingRef s /\
  vadEnabledRef s' = vadEnabledRef s /\
  vadSilenceMsRef s' = vadSilenceMsRef s /\
  vadThresholdRef s' = vadThresholdRef s /\
  lastVoiceAtRef s' = lastVoiceAtRef s /\
  hasVoiceRef s' = hasVoiceRef s /\ stoppingRef s' = stoppingRef s /\
  sockets s' = sockets s /\ pendingStarts s' = pendingStarts s /\
  nextCall s' = nextCall s /\ nextInterval s' = nextInterval s /\
  processorRef s' = None.
Proof.
  cbv zeta.
  unfold cleanupAudio, run_continuation, stop_finalize, cleanup_tail,
    clearVadInterval, emit.
  repeat break_match; cbn; repeat split; first [reflexivity | assumption].
Qed.

Lemma resume_cleanup_frame (i : nat) (s : session) :
  let s' := resume_cleanup i s in
  hook s' = hook s /\ isRecording s' = isRecording s /\
  isConnecting s' = isConnecting s /\ transcript s' = transcript s /\
  error s' = error s /\ wsRef s' = wsRef s /\
  transcriptRef s' = transcriptRef s /\
  socketReadyRef s' = socketReadyRef s /\
  isRecordingRef s' = isRecordingRef s /\
  vadEnabledRef s' = vadEnabledRef s /\
  vadSilenceMsRef s' = vadSilenceMsRef s /\
  vadThresholdRef s' = vadThresholdRef s /\
  lastVoiceAtRef s' = lastVoiceAtRef s /\
  hasVoiceRef s' = hasVoiceRef s /\ stoppingRef s' = stoppingRef s /\
  sockets s' = sockets s /\ pendingStarts s' = pendingStarts s /\
  nextCall s' = nextCall s /\ nextInterval s' = nextInterval s /\
  processorRef s' = processorRef s /\ processors s' = processors s.
Proof.
  cbv zeta.
  unfold resume_cleanup, run_continuation, stop_finalize, cleanup_tail,
    clearVadInterval, emit.
  repeat break_match; cbn; repeat split; reflexivity.
Qed.

Lemma settle_frame (p : nat) (text : jsstring) (s : session) :
  let s' := settle p text s in
  hook s' = hook s /\ isRecording s' = isRecording s /\
  isConnecting s' = isConnecting s /\ transcript s' = transcript s /\
  error s' = error s /\
  audioContextRef s' = audioContextRef s /\
  processorRef s' = processorRef s /\ streamRef s' = streamRef s /\
  transcriptRef s' = transcriptRef s /\ finalizeRef s' = finalizeRef s /\
  socketReadyRef s' = socketReadyRef s /\
  isRecordingRef s' = isRecordingRef s /\
  vadEnabledRef s' = vadEnabledRef s /\
  vadSilenceMsRef s' = vadSilenceMsRef s /\
  vadThresholdRef s' = vadThresholdRef s /\
  lastVoiceAtRef s' = lastVoiceAtRef s /\
  hasVoiceRef s' = hasVoiceRef s /\ vadIntervalRef s' = vadIntervalRef s /\
  processors s' = processors s /\ pendingStarts s' = pendingStarts s /\
  cleanups s' = cleanups s /\
  nextCall s' = nextCall s /\ nextInterval s' = nextInterval s.
Proof.
  cbv zeta. unfold settle, socket_open, emit.
  repeat break_match; cbn; repeat split; reflexivity.
Qed.

(** The promise a continuation suspends on. *)
Lemma cleanupAudio_suspends (k : continuation) (s : session) (c : nat) :
  audioContextRef s = Some c ->
  cleanups (cleanupAudio k s) = cleanups s ++ [Some k] /\
  promises (cleanupAudio k s) = promises s /\
  streamRef (cleanupAudio k s) = streamRef s /\
  vadIntervalRef (cleanupAudio k s) = vadIntervalRef s.
Proof.
  intros H. unfold cleanupAudio, emit.
  destruct (processorRef s) as [p|]; cbn;
    [destruct (nth_error (processors s) p); cbn|]; rewrite H; cbn; repeat split; reflexivity.
Qed.

Lemma cleanupAudio_runs (k : continuation) (s : session) :
  audioContextRef s = None ->
  cleanups (cleanupAudio k s) = cleanups s /\
  streamRef (cleanupAudio k s) = None /\
  vadIntervalRef (cleanupAudio k s) = None /\
  promises (cleanupAudio k s)
  = promises s
    ++ match k with
       | ThenNothing => []
       | ThenFinalize reason call =>
           [Some {| ps_call := call; ps_reason := reason;
                    ps_ws := wsRef s |}]
       end.
Proof.
  intros H.
  unfold cleanupAudio, run_continuation, stop_finalize, cleanup_tail,
    clearVadInterval, socket_open, emit.
  destruct (processorRef s) as [p|]; cbn;
    [destruct (nth_error (processors s) p); cbn|]; rewrite H; cbn.
  all: repeat (break_match; cbn in * ); rewrite ?app_nil_r;
    repeat split; congruence.
Qed.

Lemma resume_cleanup_runs (i : nat) (k : continuation) (s : session) :
  nth_error (cleanups s) i = Some (Some k) ->
  audioContextRef (resume_cleanup i s) = None /\
  streamRef (resume_cleanup i s) = None /\
  vadIntervalRef (resume_cleanup i s) = None /\
  promises (resume_cleanup i s)
  = promises s
    ++ match k with
       | ThenNothing => []
       | ThenFinalize reason call =>
           [Some {| ps_call := call; ps_reason := reason;
                    ps_ws := wsRef s |}]
       end.
Proof.
  intros H.
  unfold resume_cleanup, run_continuation, stop_finalize, cleanup_tail,
    clearVadInterval, socket_open, emit.
  rewrite H. cbn.
  repeat (break_match; cbn in * ); rewrite ?app_nil_r;
    repeat split; congruence.
Qed.

(** The interval is cleared or left as it is, never set. *)
Lemma cleanupAudio_interval (k : continuation) (s : session) :
  vadIntervalRef s = None -> vadIntervalRef (cleanupAudio k s) = None.
Proof.
  intros H. destruct (audioContextRef s) as [c|] eqn:Ha.
  - destruct (cleanupAudio_suspends k s c Ha) as (_ & _ & _ & ->). exact H.
  - apply (cleanupAudio_runs k s Ha).
Qed.

Lemma resume_cleanup_interval (i : nat) (s : session) :
  vadIntervalRef s = None -> vadIntervalRef (resume_cleanup i s) = None.
Proof.
  intros H. destruct (nth_error (cleanups s) i) as [[k|]|] eqn:Hi.
  - apply (resume_cleanup_runs i k s Hi).
  - unfold resume_cleanup. now rewrite Hi.
  - unfold resume_cleanup. now rewrite Hi.
Qed.

Tactic Notation "frames" :=
  frames_by settle_frame cleanupAudio_frame resume_cleanup_frame.

(** *** What a step does to the state *)

Lemma step_hook (s : session) (e : event) : hook (step s e) = hook s.
Proof.
  destruct e; cbn [step]; outer.
  all: repeat (break_match; cbn); frames; cbn;
    first [reflexivity | congruence].
Qed.

Lemma run_hook (events : list event) :
  forall s : session, hook (run s events) = hook s.
Proof.
  induction events as [|e events IH]; intros s; [reflexivity|].
  cbn [run fold_left]. change (hook (run (step s e) events) = hook s).
  now rewrite IH, step_hook.
Qed.

Lemma step_sync (s : session) (e : event) :
  transcriptRef s = transcript s ->
  transcriptRef (step s e) = transcript (step s e).
Proof.
  intros H. destruct e; cbn [step]; outer.
  all: repeat (break_match; cbn); frames; cbn;
    first [assumption | reflexivity | congruence].
Qed.

(** The transcript is kept, cleared by a start request, or merged with a
    fragment. *)
Lemma step_transcript (s : session) (e : event) :
  transcript (step s e) = transcript s \/
  start_request e = true /\ transcript (step s e) = [] \/
  exists nextText,
    transcript (step s e) = mergeTranscript (transcript s) nextText.
Proof.
  destruct e; cbn [step start_request]; outer.
  all: repeat (break_match; cbn); frames; cbn.
  all: first [ left; reflexivity
             | right; left; split; reflexivity
             | right; right; eexists; reflexivity ].
Qed.

Lemma step_trimmed (s : session) (e : event) :
  trimmed (transcript s) -> trimmed (transcript (step s e)).
Proof.
  intros H. destruct (step_transcript s e) as [->|[[_ ->]|[t ->]]].
  - exact H.
  - split; reflexivity.
  - destruct H. now apply mergeTranscript_trimmed.
Qed.

Lemma step_unready (s : session) (e : event) :
  opens_socket e = false -> socketReadyRef s = false ->
  socketReadyRef (step s e) = false.
Proof.
  intros He H. destruct e; try discriminate; cbn [step]; outer.
  all: repeat (break_match; cbn); frames; cbn;
    first [assumption | reflexivity | congruence].
Qed.

Lemma step_no_interval (s : session) (e : event) :
  opens_socket e = false -> vadIntervalRef s = None ->
  vadIntervalRef (step s e) = None.
Proof.
  intros He H. destruct e; try discriminate; cbn [step]; outer.
  all: repeat (break_match; cbn); frames; cbn;
    repeat first [ assumption | reflexivity
                 | apply cleanupAudio_interval
                 | apply resume_cleanup_interval ].
  all: congruence.
Qed.

(** *** What a step does to the outside *)

(** Every effect of a step is one the event can have in the session it
    arrives in. *)
Lemma step_caused (s : session) (e : event) :
  ext (caused_by s e) (log s) (log (step s e)).
Proof.
  destruct e; cbn [step]; handlers.
  all: repeat (break_match; cbn in *).
  all: try apply ext_refl.
  all: repeat match goal with
              | |- ext _ _ (_ ++ [_]) => apply ext_snoc
              end; try apply ext_refl.
  all: try caused.
  all: rewrite Heqo0 in Heqb0; cbn [caused_by];
    destruct (socketReadyRef s); [|discriminate];
    destruct (nth_error (sockets s) n) as [[]|]; try discriminate;
    destruct (onaudioprocess p0) eqn:Hon; [|discriminate];
    repeat split; try assumption;
    exists p, input, now, p0, a; repeat split; assumption.
Qed.

Section Runs.

Variable I : session -> Prop.
Variable ok : event -> bool.
Variable P : effect -> Prop.
Hypothesis I_step : forall s e, ok e = true -> I s -> I (step s e).
Hypothesis P_caused :
  forall s e ef, ok e = true -> I s -> caused_by s e ef -> P ef.

(** Over a run of events that are [ok], from a session in [I]: the
    session stays in [I] and each effect satisfies [P]. *)
Lemma run_caused (events : list event) :
  forall s : session,
    forallb ok events = true -> I s ->
    I (run s events) /\ ext P (log s) (log (run s events)).
Proof.
  induction events as [|e events IH]; intros s Hok Hs.
  - split; [exact Hs | apply ext_refl].
  - cbn [forallb] in Hok. apply andb_prop in Hok as [He Hok].
    cbn [run fold_left]. change (fold_left step events ?x) with (run x events).
    destruct (IH (step s e) Hok (I_step s e He Hs)) as [HI Hext].
    split; [exact HI|]. eapply ext_trans; [|exact Hext].
    eapply ext_weaken; [|apply step_caused].
    intros ef. now apply P_caused.
Qed.

End Runs.

Lemma ext_nil (P : effect -> Prop) (l : list effect) :
  ext P [] l -> Forall P l.
Proof. now intros [new [-> H]]. Qed.

Lemma init_trimmed (h : variant) (v : bool) (ms : Z) (th : Q) :
  trimmed (transcript (init h v ms th)).
Proof. split; reflexivity. Qed.

Lemma run_sync (events : list event) :
  forall s : session,
    transcriptRef s = transcript s /\ trimmed (transcript s) ->
    transcriptRef (run s events) = transcript (run s events) /\
    trimmed (transcript (run s events)).
Proof.
  induction events as [|e events IH]; intros s [H1 H2]; [now split|].
  apply (IH (step s e)). split; [now apply step_sync | now apply step_trimmed].
Qed.

Lemma no_frame_unready (s : session) (e : event) (ef : effect) :
  socketReadyRef s = false -> caused_by s e ef -> is_pcm_frame ef = false.
Proof.
  intros Hs H. destruct ef as [| | |w [|samples]| | | | |]; try reflexivity.
  cbn [caused_by] in H. destruct H as (_ & _ & Hr & _). congruence.
Qed.

Lemma run_unready (s : session) (events : list event) :
  socketReadyRef s = false ->
  forallb (fun e => negb (opens_socket e)) events = true ->
  socketReadyRef (run s events) = false /\
  ext (fun ef => is_pcm_frame ef = false) (log s) (log (run s events)).
Proof.
  intros Hs Hev.
  apply (run_caused (fun s => socketReadyRef s = false)
           (fun e => negb (opens_socket e))); try assumption.
  - intros s' e He. apply step_unready. now apply negb_true_iff.
  - intros s' e ef _. apply no_frame_unready.
Qed.

(** X15. While the hook is not ready for a socket, as it is from its
    first render, it sends no audio: over any events
    among which no socket opens, nothing that is added to what the hook
    did is an audio frame. *)
Theorem no_frames_until_socket_opens (s : session) (events : list event) :
  socketReadyRef s = false ->
  forallb (fun e => negb (opens_socket e)) events = true ->
  ext (fun ef => is_pcm_frame ef = false) (log s) (log (run s events)).
Proof. intros Hs Hev. now apply run_unready. Qed.

Lemma no_frames_until_socket_opens_witness :
  ext (fun ef => is_pcm_frame ef = false) []
    (log (run fresh [StartRecording 0; UserMediaGranted 48000;
                     AudioProcess 0 [Real (1 # 2)] 5;
                     StopRecording Manual])).
Proof.
  apply (no_frames_until_socket_opens fresh
           [StartRecording 0; UserMediaGranted 48000;
            AudioProcess 0 [Real (1 # 2)] 5; StopRecording Manual]);
    reflexivity.
Defined.

Lemma stop_unready (s : session) (reason : stop_reason) :
  hook s = Plain \/ stoppingRef s = false ->
  socketReadyRef (stopRecording reason s) = false.
Proof.
  intros H. unfold stopRecording. cbn.
  destruct (hook s); [|destruct (stoppingRef s)]; frames; cbn;
    try reflexivity.
  - destruct H; discriminate.
  - unfold clearVadInterval. break_match; reflexivity.
Qed.

Lemma onclose_unready (s : session) (ws : nat) (state : ready_state) :
  nth_error (sockets s) ws = Some state -> state <> CLOSED ->
  socketReadyRef (onclose ws s) = false.
Proof.
  intros H Hc. unfold onclose. rewrite H.
  destruct state; try congruence; frames; reflexivity.
Qed.

(** X16. Once a stop is under way or a socket has closed, no audio
    leaves the hook until a socket opens again: after a [stopRecording]
    call that is not a re-entrant one, or the close of a socket, and over
    any later events among which no socket opens, nothing that is added
    to what the hook did is an audio frame. *)
Theorem stop_mutes_the_microphone (s : session) (events : list event) :
  forallb (fun e => negb (opens_socket e)) events = true ->
  (forall reason : stop_reason,
      hook s = Plain \/ stoppingRef s = false ->
      ext (fun ef => is_pcm_frame ef = false) (log s)
        (log (run s (StopRecording reason :: events)))) /\
  (forall (ws : nat) (state : ready_state),
      nth_error (sockets s) ws = Some state -> state <> CLOSED ->
      ext (fun ef => is_pcm_frame ef = false) (log s)
        (log (run s (SocketClosed ws :: events)))).
Proof.
  intros Hev. split.
  - intros reason H. cbn [run fold_left step].
    change (fold_left step events ?x) with (run x events).
    eapply ext_trans; [|apply run_unready; [now apply stop_unready | exact Hev]].
    eapply ext_weaken; [|apply (step_caused s (StopRecording reason))].
    intros [| | |w [|samples]| | | | |] Hc; try reflexivity.
    destruct Hc as (_ & _ & _ & p & input & now & node & d & He & _).
    discriminate.
  - intros ws state H Hc. cbn [run fold_left step].
    change (fold_left step events ?x) with (run x events).
    eapply ext_trans;
      [|apply run_unready; [now apply (onclose_unready s ws state) | exact Hev]].
    eapply ext_weaken; [|apply (step_caused s (SocketClosed ws))].
    intros [| | |w [|samples]| | | | |] Hc'; try reflexivity.
    destruct Hc' as (_ & _ & _ & p & input & now & node & d & He & _).
    discriminate.
Qed.

Lemma stop_mutes_the_microphone_witness :
  let s := run fresh [StartRecording 0; UserMediaGranted 48000; SocketOpen 0] in
  ext (fun ef => is_pcm_frame ef = false) (log s)
    (log (run s [StopRecording Manual; AudioProcess 0 [Real (1 # 2)] 5;
                 AudioContextClosed 0; AudioProcess 0 [Real (1 # 2)] 9])).
Proof.
  intros s.
  apply (proj1 (stop_mutes_the_microphone s
                  [AudioProcess 0 [Real (1 # 2)] 5; AudioContextClosed 0;
                   AudioProcess 0 [Real (1 # 2)] 9] eq_refl) Manual).
  right. reflexivity.
Defined.

(** X17. Every audio frame the hook sends, in any run of either variant,
    holds samples in the 16-bit range -32768 .. 32767: it is the encoding
    of the resampled input of an audio callback. *)
Theorem frames_in_pcm_range (h : variant) (vadEnabled : bool)
    (vadSilenceMs : Z) (vadThreshold : Q) (events : list event) :
  Forall frame_in_range
    (log (run (init h vadEnabled vadSilenceMs vadThreshold) events)).
Proof.
  apply ext_nil.
  change (@nil effect)
    with (log (init h vadEnabled vadSilenceMs vadThreshold)).
  apply (run_caused (fun _ => True) (fun _ => true)); auto.
  - intros s e [| | |w [|samples]| | | | |] _ _ H; cbn [frame_in_range]; auto.
    destruct H as (_ & _ & _ & p & input & now & node & d & _ & _ & _ & _ & ->).
    apply AudioProps.pcm_samples_in_range.
  - now apply forallb_forall.
Qed.

(** X18. The hook sends on a socket, and closes a socket, only if that
    socket is open when the event arrives: whatever the session and the
    event, each message sent and each close goes to a socket in the
    state OPEN. *)
Theorem sends_on_open_sockets (s : session) (e : event) :
  ext (on_open_socket s) (log s) (log (step s e)).
Proof.
  eapply ext_weaken; [|apply step_caused].
  intros [| | |w [|samples]|w| | | |] H; cbn [on_open_socket]; auto;
    cbn [caused_by] in H; tauto.
Qed.

(** *** A stop from its call to its return *)

Lemma nth_error_length {A : Type} (l : list A) : nth_error l (length l) = None.
Proof. apply nth_error_None. apply Nat.le_refl. Qed.

Lemma auto_stops_app (l l' : list effect) :
  auto_stops (l ++ l') = auto_stops l ++ auto_stops l'.
Proof.
  induction l as [|e l IH]; [reflexivity|].
  destruct e; simpl; now rewrite ?IH.
Qed.

Lemma auto_stops_ext (l l' : list effect) :
  ext (fun e => final_text e = None) l l' -> auto_stops l' = auto_stops l.
Proof.
  intros [new [-> H]]. rewrite auto_stops_app.
  replace (auto_stops new) with (@nil jsstring); [apply app_nil_r|].
  induction H as [|e new He _ IH]; [reflexivity|].
  destruct e; simpl in *; try exact IH; discriminate.
Qed.

(** [cleanupAudio] from its call to its end, the closing of the audio
    context included if there is one: the hook has let go of the audio,
    and the continuation, if it is the rest of a stop, has suspended on a
    new promise. *)
Lemma cleanup_completes (k : continuation) (s : session) :
  released (resume_cleanup (length (cleanups s)) (cleanupAudio k s)) /\
  promises (resume_cleanup (length (cleanups s)) (cleanupAudio k s))
  = promises s
    ++ match k with
       | ThenNothing => []
       | ThenFinalize reason call =>
           [Some {| ps_call := call; ps_reason := reason;
                    ps_ws := wsRef s |}]
       end.
Proof.
  unfold released. destruct (audioContextRef s) as [c|] eqn:Ha.
  - destruct (cleanupAudio_suspends k s c Ha) as (Hc & Hp & _ & _).
    destruct (resume_cleanup_runs (length (cleanups s)) k (cleanupAudio k s))
      as (R1 & R2 & R3 & R4).
    { rewrite Hc. apply nth_error_snoc. }
    rewrite R1, R2, R3, R4, Hp. frames. repeat split; reflexivity.
  - destruct (cleanupAudio_runs k s Ha) as (Hc & R2 & R3 & R4).
    assert (E : resume_cleanup (length (cleanups s)) (cleanupAudio k s)
                = cleanupAudio k s).
    { unfold resume_cleanup. now rewrite Hc, nth_error_length. }
    rewrite E, R2, R3, R4. frames. repeat split; try reflexivity. exact Ha.
Qed.

(** A call that is not a re-entrant one reaches its finalize promise
    once the audio context, if there is one, has closed; by then the
    hook has let go of the audio. *)
Lemma stop_reaches_promise (s : session) (reason : stop_reason) :
  hook s = Plain \/ stoppingRef s = false ->
  let s2 := run s [StopRecording reason;
                   AudioContextClosed (length (cleanups s))] in
  nth_error (promises s2) (length (promises s))
  = Some (Some {| ps_call := nextCall s;
                  ps_reason := effective_reason s reason;
                  ps_ws := wsRef s |}) /\
  transcriptRef s2 = transcriptRef s /\
  isRecording s2 = false /\ isConnecting s2 = false /\
  released s2 /\
  ext (fun e => final_text e = None) (log s) (log s2).
Proof.
  intros H. cbv zeta. cbn [run fold_left step].
  unfold effective_reason, stopRecording. cbn.
  destruct (hook s) eqn:Hh; [|destruct (stoppingRef s) eqn:Hs].
  3: unfold clearVadInterval; cbn; destruct (vadIntervalRef s); cbn.
  2: destruct H; discriminate.
  all: match goal with
       | |- context [cleanupAudio ?k ?s0] =>
           change (length (cleanups s)) with (length (cleanups s0));
           destruct (cleanup_completes k s0) as [Hrel Hp];
           rewrite Hp;
           change (promises s0) with (promises s);
           rewrite nth_error_snoc
       end.
  all: split; [reflexivity|]; frames; cbn.
  all: repeat split; try reflexivity; try apply Hrel.
  all: apply resume_cleanup_log; [now intros|];
    apply cleanupAudio_log; [now intros|]; cbn; apply ext_refl.
Qed.

Lemma settle_pending (p : nat) (text : jsstring) (s : session)
    (ps : pending_stop) :
  nth_error (promises s) p = Some (Some ps) ->
  wsRef (settle p text s) = None /\
  stoppingRef (settle p text s) = false /\
  auto_stops (log (settle p text s))
  = auto_stops (log s)
    ++ match ps_reason ps with Vad => [text] | Manual => [] end.
Proof.
  intros H. unfold settle, socket_open, emit. rewrite H.
  repeat break_match; cbn; rewrite ?auto_stops_app; cbn;
    rewrite ?app_nil_r; repeat split; reflexivity.
Qed.

(** X19. A stop completes even if the service never answers. Take a
    [stopRecording] call that is not re-entrant, made while no close of
    an audio context is pending, and let nothing else happen until its
    audio context has closed and its 1.5 s timer has fired: the call has
    then returned the trimmed transcript of the ref, [onAutoStop] has
    been given the same text if and only if the stop was for voice
    activity, the hook is Idle, and it holds no audio node, stream,
    interval or socket any more. *)
Theorem stop_completes (s : session) (reason : stop_reason) :
  hook s = Plain \/ stoppingRef s = false ->
  no_close_pending s ->
  let s' := run s [StopRecording reason;
                   AudioContextClosed (length (cleanups s));
                   FinalizeTimeout (length (promises s))] in
  stop_returns (log s')
  = stop_returns (log s) ++ [(nextCall s, trim (transcriptRef s))] /\
  auto_stops (log s')
  = auto_stops (log s)
    ++ match effective_reason s reason with
       | Vad => [trim (transcriptRef s)]
       | Manual => []
       end /\
  state_of s' = Idle /\ released s' /\ wsRef s' = None.
Proof.
  intros H _. cbv zeta.
  change (run s [StopRecording reason;
                 AudioContextClosed (length (cleanups s));
                 FinalizeTimeout (length (promises s))])
    with (step (run s [StopRecording reason;
                       AudioContextClosed (length (cleanups s))])
            (FinalizeTimeout (length (promises s)))).
  destruct (stop_reaches_promise s reason H)
    as (Hp & Ht & Hr & Hc & (R1 & R2 & R3 & R4) & Hext).
  pose proof (stop_returns_ext _ _ Hext) as Hret.
  pose proof (auto_stops_ext _ _ Hext) as Hauto.
  set (s2 := run s [StopRecording reason;
                    AudioContextClosed (length (cleanups s))]) in *.
  cbn [step]. rewrite Ht.
  destruct (settle_pending _ (trim (transcriptRef s)) s2 _ Hp)
    as (Hw & Hs & Ha).
  split; [|split; [|split; [|split]]].
  - rewrite (settle_returns _ _ _ _ Hp), Hret. reflexivity.
  - rewrite Ha, Hauto. reflexivity.
  - unfold state_of. rewrite Hs. frames. now rewrite Hr, Hc.
  - unfold released. frames. repeat split; assumption.
  - exact Hw.
Qed.

Lemma stop_completes_witness :
  let s := run (init WithVad true 1500 DEFAULT_VAD_THRESHOLD) heard_hello in
  let s' := run s [StopRecording Vad; AudioContextClosed 0;
                   FinalizeTimeout 0] in
  stop_returns (log s') = [(0%nat, js "hello")] /\
  auto_stops (log s') = [js "hello"] /\
  state_of s' = Idle /\ released s' /\ wsRef s' = None.
Proof.
  intros s.
  apply (stop_completes s Vad); [right; reflexivity | constructor].
Defined.

(** With live audio, the whole of [cleanupAudio] does this to the
    outside. *)
Lemma cleanup_live (s : session) (p c k : nat) :
  processorRef s = Some p -> audioContextRef s = Some c ->
  streamRef s = Some k ->
  log (resume_cleanup (length (cleanups s)) (cleanupAudio ThenNothing s))
  = log s ++ [ProcessorDisconnect p; AudioContextClose c; TracksStop k].
Proof.
  intros Hp Hc Hk.
  destruct (cleanupAudio_suspends ThenNothing s c Hc) as (C & _ & S & _).
  assert (L : log (cleanupAudio ThenNothing s)
              = log s ++ [ProcessorDisconnect p; AudioContextClose c]).
  { unfold cleanupAudio, emit. rewrite Hp. cbn.
    destruct (nth_error (processors s) p); cbn; rewrite Hc; cbn;
      now rewrite <- app_assoc. }
  remember (cleanupAudio ThenNothing s) as s1 eqn:E. clear E.
  unfold resume_cleanup. rewrite C, nth_error_snoc.
  cbn [run_continuation]. unfold cleanup_tail, clearVadInterval, emit. cbn.
  rewrite S, Hk. cbn.
  destruct (vadIntervalRef s1); cbn; rewrite L, <- app_assoc; reflexivity.
Qed.

(** X20. When a socket closes while the hook holds live audio, the
    hook lets go of the microphone without a stop: it disconnects the
    processor, closes the audio context and, once that has closed, stops
    the tracks of the stream. It sends nothing, returns nothing, and
    keeps the transcript and the ref to the socket. *)
Theorem socket_close_releases_audio (s : session) (ws p c k : nat)
    (state : ready_state) :
  nth_error (sockets s) ws = Some state -> state <> CLOSED ->
  processorRef s = Some p -> audioContextRef s = Some c ->
  streamRef s = Some k ->
  let s' := run s [SocketClosed ws;
                   AudioContextClosed (length (cleanups s))] in
  log s'
  = log s ++ [ProcessorDisconnect p; AudioContextClose c; TracksStop k] /\
  isRecording s' = false /\ isConnecting s' = false /\
  released s' /\ transcript s' = transcript s /\ wsRef s' = wsRef s.
Proof.
  intros Hws Hst Hp Hc Hk. cbv zeta. cbn [run fold_left step].
  unfold onclose. rewrite Hws.
  destruct state; try congruence.
  all: match goal with
       | |- context [cleanupAudio ThenNothing ?s0] =>
           change (length (cleanups s)) with (length (cleanups s0));
           destruct (cleanup_completes ThenNothing s0) as [Hrel _];
           rewrite (cleanup_live s0 p c k Hp Hc Hk)
       end.
  all: frames; cbn; repeat split; first [reflexivity | apply Hrel].
Qed.

Lemma socket_close_releases_audio_witness :
  let s := run fresh heard_hello in
  let s' := run s [SocketClosed 0; AudioContextClosed 0] in
  log s'
  = log s ++ [ProcessorDisconnect 0; AudioContextClose 0; TracksStop 0] /\
  isRecording s' = false /\ isConnecting s' = false /\
  released s' /\ transcript s' = js "hello" /\ wsRef s' = Some 0%nat.
Proof.
  intros s.
  apply (socket_close_releases_audio s 0 0 0 0 OPEN);
    try reflexivity. discriminate.
Defined.

(** X21. When the microphone is refused, a start request made on an
    Idle hook leaves the hook Idle, with the error set and the transcript
    empty; no socket is created. *)
Theorem denied_start_returns_to_idle (s : session) (now : Z)
    (err : jsstring) :
  state_of s = Idle ->
  let s' := run s [StartRecording now; UserMediaDenied err] in
  state_of s' = Idle /\ error s' = Some err /\ transcript s' = [] /\
  sockets s' = sockets s /\ pendingStarts s' = pendingStarts s.
Proof.
  intros H. cbv zeta. unfold state_of in H.
  destruct (stoppingRef s) eqn:Hs; [discriminate|].
  destruct (isRecording s) eqn:Hr; [discriminate|].
  destruct (isConnecting s) eqn:Hc; [discriminate|].
  cbn [run fold_left step]. unfold startRecording. rewrite Hr, Hc. cbn.
  unfold media_denied. cbn. unfold state_of. frames. cbn.
  rewrite Hs. repeat split; reflexivity.
Qed.

Lemma denied_start_returns_to_idle_witness :
  let s' := run fresh [StartRecording 7; UserMediaDenied (js "NotAllowedError")] in
  state_of s' = Idle /\ error s' = Some (js "NotAllowedError") /\
  transcript s' = [] /\ sockets s' = [] /\ pendingStarts s' = 0%nat.
Proof.
  apply (denied_start_returns_to_idle fresh 7 (js "NotAllowedError")).
  reflexivity.
Defined.

(** *** The interval fires once *)

Lemma clearVadInterval_none (s : session) :
  vadIntervalRef (clearVadInterval s) = None.
Proof.
  unfold clearVadInterval. destruct (vadIntervalRef s) eqn:H; [reflexivity|].
  exact H.
Qed.

Lemma run_no_interval (events : list event) :
  forall s : session,
    vadIntervalRef s = None ->
    forallb (fun e => negb (opens_socket e)) events = true ->
    vadIntervalRef (run s events) = None.
Proof.
  induction events as [|e events IH]; intros s Hs Hev; [exact Hs|].
  cbn [forallb] in Hev. apply andb_prop in Hev as [He Hev].
  apply (IH (step s e)); [|exact Hev].
  apply step_no_interval; [now apply negb_true_iff | exact Hs].
Qed.

(** X22. The voice activity interval stops the recording once: the tick
    whose silence test succeeds starts a stop with the reason ['vad'] and
    clears the interval, and from then on, until a socket opens again, a
    tick changes nothing, whatever the clock says. *)
Theorem vad_fires_once (s : session) (now : Z) :
  hook s = WithVad -> stoppingRef s = false ->
  vadIntervalRef s <> None -> silence_timeout now s = true ->
  step s (VadTick now) = stopRecording Vad s /\
  state_of (step s (VadTick now)) = Stopping /\
  forall (events : list event) (later : Z),
    forallb (fun e => negb (opens_socket e)) events = true ->
    step (run (step s (VadTick now)) events) (VadTick later)
    = run (step s (VadTick now)) events.
Proof.
  intros Hh Hs Hi Ht.
  assert (E : step s (VadTick now) = stopRecording Vad s).
  { cbn [step]. unfold vad_tick, triggerStop. rewrite Ht, Hs.
    now destruct (vadIntervalRef s). }
  rewrite E. split; [reflexivity|]. split.
  - unfold state_of, stopRecording. cbn. rewrite Hh, Hs. frames.
    unfold clearVadInterval. cbn. now destruct (vadIntervalRef s).
  - intros events later Hev. cbn [step]. unfold vad_tick.
    rewrite run_no_interval; [reflexivity| |exact Hev].
    unfold stopRecording. cbn. rewrite Hh, Hs.
    apply cleanupAudio_interval, clearVadInterval_none.
Qed.

Lemma vad_fires_once_witness :
  let s :=
    run (init WithVad true 1500 DEFAULT_VAD_THRESHOLD)
      [StartRecording 0; UserMediaGranted 48000; SocketOpen 0;
       AudioProcess 0 [Real (1 # 2); Real (1 # 2)] 100] in
  state_of (step s (VadTick 1700)) = Stopping /\
  step (run (step s (VadTick 1700)) [AudioContextClosed 0]) (VadTick 9000)
  = run (step s (VadTick 1700)) [AudioContextClosed 0].
Proof.
  intros s.
  destruct (vad_fires_once s 1700) as (_ & H1 & H2);
    [vm_compute; reflexivity | vm_compute; reflexivity
    |vm_compute; discriminate | vm_compute; reflexivity |].
  split; [exact H1|]. apply H2. reflexivity.
Defined.

(** *** Within a session the transcript only grows *)

Lemma starts_with_trans (a b c : jsstring) :
  starts_with a b -> starts_with b c -> starts_with a c.
Proof.
  intros [x ->] [y ->]. exists (y ++ x). now rewrite app_assoc.
Qed.

Lemma run_grows (events : list event) :
  forall s : session,
    trimmed (transcript s) ->
    forallb (fun e => negb (start_request e)) events = true ->
    starts_with (transcript (run s events)) (transcript s).
Proof.
  induction events as [|e events IH]; intros s Hs Hev.
  - exists []. now rewrite app_nil_r.
  - cbn [forallb] in Hev. apply andb_prop in Hev as [He Hev].
    cbn [run fold_left]. change (fold_left step events ?x) with (run x events).
    eapply starts_with_trans; [apply IH; [now apply step_trimmed | exact Hev]|].
    destruct (step_transcript s e) as [->|[[Hst _]|[t ->]]].
    + exists []. now rewrite app_nil_r.
    + rewrite Hst in He. discriminate.
    + apply mergeTranscript_prefix. apply Hs.
Qed.

(** X23. Between two start requests the transcript only grows: over any
    events, none of them a [startRecording] call, that follow any run of
    the hook, the transcript before is a prefix of the transcript
    after. *)
Theorem transcript_only_grows (h : variant) (vadEnabled : bool)
    (vadSilenceMs : Z) (vadThreshold : Q) (before after : list event) :
  forallb (fun e => negb (start_request e)) after = true ->
  starts_with
    (transcript (run (init h vadEnabled vadSilenceMs vadThreshold)
                   (before ++ after)))
    (transcript (run (init h vadEnabled vadSilenceMs vadThreshold) before)).
Proof.
  intros H. unfold run. rewrite fold_left_app.
  apply (run_grows after); [|exact H].
  apply (run_sync before). split; [reflexivity | apply init_trimmed].
Qed.

Lemma transcript_only_grows_witness :
  starts_with
    (transcript
       (run fresh (heard_hello ++
                   [SocketMessage 0 (text_message (js " world "));
                    StopRecording Manual])))
    (transcript (run fresh heard_hello)).
Proof.
  apply (transcript_only_grows WithVad false DEFAULT_VAD_SILENCE_MS
           DEFAULT_VAD_THRESHOLD heard_hello
           [SocketMessage 0 (text_message (js " world "));
            StopRecording Manual]).
  reflexivity.
Defined.

(** *** Without voice activity detection *)

Lemma Forall_replace_nth {A : Type} (P : A -> Prop) (x : A) (l : list A) :
  forall i : nat, P x -> Forall P l -> Forall P (replace_nth i x l).
Proof.
  induction l as [|y l IH]; intros i Hx H; [destruct i; constructor|].
  inversion H; subst. destruct i; cbn [replace_nth]; constructor; auto.
Qed.

Lemma resume_cleanup_cleanups (i : nat) (s : session) :
  cleanups (resume_cleanup i s) = cleanups s \/
  cleanups (resume_cleanup i s) = replace_nth i None (cleanups s).
Proof.
  unfold resume_cleanup, run_continuation, stop_finalize, cleanup_tail,
    clearVadInterval, emit.
  repeat (break_match; cbn); auto.
Qed.

Lemma settle_promises (p : nat) (text : jsstring) (s : session) :
  promises (settle p text s) = promises s \/
  promises (settle p text s) = replace_nth p None (promises s).
Proof.
  unfold settle, socket_open, emit. repeat (break_match; cbn); auto.
Qed.

Lemma cleanupAudio_vad_off (k : continuation) (s : session) :
  manual_cleanup (Some k) -> vad_off s -> vad_off (cleanupAudio k s).
Proof.
  intros Hk (H1 & H2 & H3 & H4). unfold vad_off. frames.
  rewrite (cleanupAudio_interval k s H2).
  split; [exact H1|]. split; [reflexivity|].
  destruct (audioContextRef s) as [c|] eqn:Ha.
  - destruct (cleanupAudio_suspends k s c Ha) as (-> & -> & _).
    split; [|exact H4]. apply Forall_app. split; [exact H3|].
    now constructor.
  - destruct (cleanupAudio_runs k s Ha) as (-> & _ & _ & ->).
    split; [exact H3|]. apply Forall_app. split; [exact H4|].
    destruct k as [|[|] call]; cbn in *; try contradiction;
      repeat constructor.
Qed.

Lemma resume_cleanup_vad_off (i : nat) (s : session) :
  vad_off s -> vad_off (resume_cleanup i s).
Proof.
  intros (H1 & H2 & H3 & H4). unfold vad_off. frames.
  rewrite (resume_cleanup_interval i s H2).
  split; [exact H1|]. split; [reflexivity|]. split.
  - destruct (resume_cleanup_cleanups i s) as [->| ->]; [exact H3|].
    apply Forall_replace_nth; [exact I | exact H3].
  - destruct (nth_error (cleanups s) i) as [[k|]|] eqn:Hi.
    + destruct (resume_cleanup_runs i k s Hi) as (_ & _ & _ & ->).
      apply Forall_app. split; [exact H4|].
      assert (Hk : manual_cleanup (Some k)).
      { apply nth_error_In in Hi.
        exact (proj1 (Forall_forall _ _) H3 _ Hi). }
      destruct k as [|[|] call]; cbn in *; try contradiction;
        repeat constructor.
    + unfold resume_cleanup. now rewrite Hi.
    + unfold resume_cleanup. now rewrite Hi.
Qed.

Lemma settle_vad_off (p : nat) (text : jsstring) (s : session) :
  vad_off s -> vad_off (settle p text s).
Proof.
  intros (H1 & H2 & H3 & H4). unfold vad_off. frames.
  repeat split; try assumption.
  destruct (settle_promises p text s) as [->| ->]; [exact H4|].
  apply Forall_replace_nth; [exact I | exact H4].
Qed.

Lemma stopRecording_vad_off (reason : stop_reason) (s : session) :
  hook s = Plain \/ reason = Manual ->
  vad_off s -> vad_off (stopRecording reason s).
Proof.
  intros Hr H. unfold stopRecording. cbn.
  destruct (hook s) eqn:Hh; [|destruct (stoppingRef s)].
  - apply cleanupAudio_vad_off; [exact I | exact H].
  - exact H.
  - destruct Hr as [Hr|Hr]; [discriminate|]. subst reason.
    apply cleanupAudio_vad_off; [exact I|].
    destruct H as (H1 & H2 & H3 & H4).
    unfold vad_off, clearVadInterval. cbn. rewrite H2. cbn.
    repeat split; assumption.
Qed.

Lemma step_vad_off (s : session) (e : event) :
  asks_for_vad e = false -> vad_off s -> vad_off (step s e).
Proof.
  intros He H. destruct e; cbn [step].
  - unfold startRecording. break_match; exact H.
  - unfold media_granted. break_match; exact H.
  - unfold media_denied. break_match; [exact H|].
    apply cleanupAudio_vad_off; [exact I | exact H].
  - unfold onopen. destruct H as (H1 & H2 & H3 & H4).
    repeat (break_match; cbn); try (repeat split; assumption).
    cbn in *. congruence.
  - unfold onmessage, updateTranscript, emit.
    repeat (break_match; cbn); try apply settle_vad_off; exact H.
  - unfold onerror. break_match; exact H.
  - unfold onclose.
    repeat (break_match; cbn); try exact H;
      (apply cleanupAudio_vad_off; [exact I | exact H]).
  - unfold audio_process, emit. repeat (break_match; cbn); exact H.
  - unfold vad_tick. destruct H as (H1 & H2 & H3 & H4).
    rewrite H2. repeat split; assumption.
  - apply stopRecording_vad_off; [|exact H].
    destruct reason; [now right | discriminate].
  - now apply resume_cleanup_vad_off.
  - now apply settle_vad_off.
  - unfold options_changed. destruct vadEnabled; [discriminate|].
    destruct H as (H1 & H2 & H3 & H4).
    destruct (hook s); repeat split; assumption.
Qed.

(** X24. With voice activity detection off, as it is by default,
    [onAutoStop] is never called: in any run of either variant that
    starts with the option disabled, in which the options are not changed
    to enable it and no caller passes the reason ['vad'] to
    [stopRecording], no effect of the hook is a call of [onAutoStop],
    whatever the interval, the audio and the service do. *)
Theorem no_auto_stop_without_vad (h : variant) (vadSilenceMs : Z)
    (vadThreshold : Q) (events : list event) :
  forallb (fun e => negb (asks_for_vad e)) events = true ->
  Forall (fun ef => is_auto_stop ef = false)
    (log (run (init h false vadSilenceMs vadThreshold) events)).
Proof.
  intros Hev. apply ext_nil.
  change (@nil effect) with (log (init h false vadSilenceMs vadThreshold)).
  apply (run_caused vad_off (fun e => negb (asks_for_vad e))).
  - intros s e He. apply step_vad_off. now apply negb_true_iff.
  - intros s e [| | | | | | |text|] _ (_ & _ & _ & H4) Hc;
      try reflexivity.
    destruct Hc as (p & ps & t & Hp & Hr & _).
    apply nth_error_In in Hp.
    pose proof (proj1 (Forall_forall _ _) H4 _ Hp) as Hm.
    cbn in Hm. congruence.
  - exact Hev.
  - repeat split; constructor.
Qed.

Lemma no_auto_stop_without_vad_witness :
  Forall (fun ef => is_auto_stop ef = false)
    (log (run fresh
            (heard_hello ++
             [AudioProcess 0 [Real (1 # 2)] 100; VadTick 5000;
              StopRecording Manual; AudioContextClosed 0;
              FinalizeTimeout 0]))).
Proof.
  apply (no_auto_stop_without_vad WithVad DEFAULT_VAD_SILENCE_MS
           DEFAULT_VAD_THRESHOLD). reflexivity.
Defined.

(** *** The silence clock *)

Lemma voiced_frame_state (s : session) (p : nat) (input : list sample)
    (t0 : Z) :
  voiced_frame s (AudioProcess p input t0) = true ->
  let s' := audio_process p input t0 s in
  lastVoiceAtRef s' = t0 /\ hasVoiceRef s' = true /\
  isRecordingRef s' = isRecordingRef s /\
  vadEnabledRef s' = vadEnabledRef s /\
  vadSilenceMsRef s' = vadSilenceMsRef s /\
  vadIntervalRef s' = vadIntervalRef s /\
  stoppingRef s' = stoppingRef s.
Proof.
  unfold voiced_frame, frame_processed, audio_process. intros H. cbv zeta.
  destruct (nth_error (processors s) p) as [node|]; [|discriminate].
  apply andb_prop in H as [H Hv]. apply andb_prop in H as [H Ho].
  apply andb_prop in H as [Hn Hr]. rewrite Hn, Hr, Ho, Hv. cbn.
  repeat (break_match; cbn); repeat split; reflexivity.
Qed.

(** X25. In the later variant the silence is measured from the last
    frame that counted as voice: after such a frame, received at time [t0], a tick of the
    interval does nothing until [vadSilenceMs] have passed since [t0],
    and the first tick from then on, in a recording with voice activity
    detection on and no stop in progress, starts the stop for voice
    activity. *)
Theorem voice_resets_silence_clock (s : session) (p : nat)
    (input : list sample) (t0 : Z) :
  hook s = WithVad ->
  voiced_frame s (AudioProcess p input t0) = true ->
  (forall now : Z,
      (now - t0 < vadSilenceMsRef s)%Z ->
      step (step s (AudioProcess p input t0)) (VadTick now)
      = step s (AudioProcess p input t0)) /\
  (forall now : Z,
      (vadSilenceMsRef s <= now - t0)%Z ->
      isRecordingRef s = true -> vadEnabledRef s = true ->
      vadIntervalRef s <> None -> stoppingRef s = false ->
      step (step s (AudioProcess p input t0)) (VadTick now)
      = stopRecording Vad (step s (AudioProcess p input t0))).
Proof.
  intros _ H. cbn [step].
  destruct (voiced_frame_state s p input t0 H)
    as (Ht & Hv & Hr & He & Hm & Hi & Hs).
  set (s' := audio_process p input t0 s) in *. clearbody s'.
  split.
  - intros now Hnow.
    assert (Hsil : silence_timeout now s' = false).
    { unfold silence_timeout. rewrite Ht, Hv, Hm.
      replace (vadSilenceMsRef s <=? now - t0)%Z with false
        by (symmetry; apply Z.leb_gt; exact Hnow).
      now destruct (negb (isRecordingRef s') || negb (vadEnabledRef s')). }
    unfold vad_tick. rewrite Hsil. now destruct (vadIntervalRef s').
  - intros now Hnow Hrec Hen Hint Hst. unfold vad_tick, silence_timeout,
      triggerStop.
    rewrite Ht, Hv, Hm, Hr, He, Hi, Hs, Hrec, Hen, Hst. cbn.
    replace (vadSilenceMsRef s <=? now - t0)%Z with true
      by (symmetry; apply Z.leb_le; exact Hnow).
    destruct (vadIntervalRef s); [reflexivity | congruence].
Qed.

Lemma voice_resets_silence_clock_witness :
  let s :=
    run (init WithVad true 1500 DEFAULT_VAD_THRESHOLD)
      [StartRecording 0; UserMediaGranted 48000; SocketOpen 0] in
  step (step s (AudioProcess 0 [Real (1 # 2)] 1000)) (VadTick 2499)
  = step s (AudioProcess 0 [Real (1 # 2)] 1000) /\
  step (step s (AudioProcess 0 [Real (1 # 2)] 1000)) (VadTick 2500)
  = stopRecording Vad (step s (AudioProcess 0 [Real (1 # 2)] 1000)).
Proof.
  intros s.
  destruct (voice_resets_silence_clock s 0 [Real (1 # 2)] 1000 eq_refl
              eq_refl) as [H1 H2].
  split.
  - apply H1. vm_compute. reflexivity.
  - apply H2; try (vm_compute; reflexivity); vm_compute; discriminate.
Defined.

(** *** Messages that are not transcripts *)


(** *** A stop that the service acknowledges *)

Lemma cleanupAudio_resolver (reason : stop_reason) (call : nat)
    (s : session) :
  audioContextRef s = None ->
  finalizeRef (cleanupAudio (ThenFinalize reason call) s)
  = Some (length (promises s)).
Proof.
  intros H.
  unfold cleanupAudio, run_continuation, stop_finalize, cleanup_tail,
    clearVadInterval, socket_open, emit.
  destruct (processorRef s) as [p|]; cbn;
    [destruct (nth_error (processors s) p); cbn|]; rewrite H; cbn.
  all: repeat (break_match; cbn in * ); reflexivity.
Qed.

Lemma resume_cleanup_resolver (i : nat) (reason : stop_reason) (call : nat)
    (s : session) :
  nth_error (cleanups s) i = Some (Some (ThenFinalize reason call)) ->
  finalizeRef (resume_cleanup i s) = Some (length (promises s)).
Proof.
  intros H.
  unfold resume_cleanup, run_continuation, stop_finalize, cleanup_tail,
    clearVadInterval, socket_open, emit.
  rewrite H. cbn. repeat (break_match; cbn in * ); reflexivity.
Qed.

Lemma cleanup_installs_resolver (reason : stop_reason) (call : nat)
    (s : session) :
  finalizeRef
    (resume_cleanup (length (cleanups s))
       (cleanupAudio (ThenFinalize reason call) s))
  = Some (length (promises s)).
Proof.
  destruct (audioContextRef s) as [c|] eqn:Ha.
  - destruct (cleanupAudio_suspends (ThenFinalize reason call) s c Ha)
      as (Hc & Hp & _ & _).
    rewrite (resume_cleanup_resolver _ reason call).
    + now rewrite Hp.
    + rewrite Hc. apply nth_error_snoc.
  - destruct (cleanupAudio_runs (ThenFinalize reason call) s Ha)
      as (Hc & _ & _ & _).
    unfold resume_cleanup. rewrite Hc, nth_error_length.
    now apply cleanupAudio_resolver.
Qed.

Lemma stop_installs_resolver (s : session) (reason : stop_reason) :
  hook s = Plain \/ stoppingRef s = false ->
  let s2 := run s [StopRecording reason;
                   AudioContextClosed (length (cleanups s))] in
  finalizeRef s2 = Some (length (promises s)) /\
  sockets s2 = sockets s /\ promises s2 <> [] /\
  length (promises s2) = S (length (promises s)).
Proof.
  intros H. cbv zeta. cbn [run fold_left step].
  unfold stopRecording. cbn.
  destruct (hook s) eqn:Hh; [|destruct (stoppingRef s) eqn:Hs].
  3: unfold clearVadInterval; cbn; destruct (vadIntervalRef s); cbn.
  2: destruct H; discriminate.
  all: match goal with
       | |- context [cleanupAudio (ThenFinalize ?r ?c) ?s0] =>
           change (length (cleanups s)) with (length (cleanups s0));
           rewrite (cleanup_installs_resolver r c s0);
           destruct (cleanup_completes (ThenFinalize r c) s0) as [_ Hp];
           rewrite Hp
       end.
  all: frames; cbn; repeat split; try reflexivity;
    try (now destruct (promises s));
    rewrite length_app; cbn; apply Nat.add_1_r.
Qed.

(** X27. A stop that the service acknowledges completes without the
    timer. Take a [stopRecording] call that is not re-entrant, made on
    an open socket while no close of an audio context is pending, and
    let the ['end_text'] of the service be the first thing to arrive
    after its audio context has closed: the message gives
    [onFinalTranscript] the trimmed transcript of the ref, [onAutoStop]
    too if the stop was for voice activity, closes the socket, and makes
    the call return that text; the hook is then Idle and holds no
    socket. *)
Theorem stop_acknowledged (s : session) (reason : stop_reason) (w : nat) :
  hook s = Plain \/ stoppingRef s = false ->
  no_close_pending s ->
  wsRef s = Some w -> nth_error (sockets s) w = Some OPEN ->
  let s2 := run s [StopRecording reason;
                   AudioContextClosed (length (cleanups s))] in
  let text := trim (transcriptRef s) in
  log (step s2 (SocketMessage w end_text))
  = log s2
    ++ OnFinalTranscript text
       :: match effective_reason s reason with
          | Vad => [OnAutoStop text]
          | Manual => []
          end
    ++ [SocketClose w; StopReturn (nextCall s) text] /\
  state_of (step s2 (SocketMessage w end_text)) = Idle /\
  wsRef (step s2 (SocketMessage w end_text)) = None /\
  finalizeRef (step s2 (SocketMessage w end_text)) = None.
Proof.
  intros H _ Hw Ho. cbv zeta.
  destruct (stop_reaches_promise s reason H)
    as (Hp & Ht & Hr & Hc & _ & _).
  destruct (stop_installs_resolver s reason H) as (Hf & Hsock & _ & _).
  set (s2 := run s [StopRecording reason;
                    AudioContextClosed (length (cleanups s))]) in *.
  clearbody s2. cbn [step]. unfold onmessage, socket_open.
  rewrite Hsock, Ho. cbn. rewrite Hf, Ht.
  unfold settle, socket_open, state_of. cbn. rewrite Hp. cbn.
  destruct (effective_reason s reason); cbn; rewrite Hw; cbn;
    rewrite ?Hsock, ?Ho; cbn; rewrite ?Hr, ?Hc, <- ?app_assoc;
    repeat split; reflexivity.
Qed.

Lemma stop_acknowledged_witness :
  let s := run (init WithVad true 1500 DEFAULT_VAD_THRESHOLD) heard_hello in
  let s2 := run s [StopRecording Vad; AudioContextClosed 0] in
  log (step s2 (SocketMessage 0 end_text))
  = log s2 ++ [OnFinalTranscript (js "hello"); OnAutoStop (js "hello");
               SocketClose 0; StopReturn 0 (js "hello")] /\
  state_of (step s2 (SocketMessage 0 end_text)) = Idle /\
  wsRef (step s2 (SocketMessage 0 end_text)) = None /\
  finalizeRef (step s2 (SocketMessage 0 end_text)) = None.
Proof.
  intros s.
  apply (stop_acknowledged s Vad 0);
    [right; reflexivity | constructor | reflexivity | reflexivity].
Defined.

(** *** Each node and each stream is torn down once *)

Lemma pick_app {A : Type} (f : effect -> option A) (l l' : list effect) :
  pick f (l ++ l') = pick f l ++ pick f l'.
Proof.
  induction l as [|e l IH]; [reflexivity|].
  cbn [app pick]. destruct (f e); now rewrite IH.
Qed.

Lemma length_replace_nth {A : Type} (x : A) (l : list A) :
  forall i : nat, length (replace_nth i x l) = length l.
Proof.
  induction l as [|y l IH]; intros [|i]; cbn; auto.
Qed.

Lemma teardown_keeps (ref ref' : option nat) (n n' : nat)
    (torn torn' : list nat) :
  one_teardown ref ref' n n' torn torn' ->
  held_once ref n torn -> held_once ref' n' torn'.
Proof.
  intros [Hn [[-> Hr]|[p [-> [Hp ->]]]]] (Hd & Ht & Hh).
  - split; [exact Hd|]. split.
    + intros q Hq. destruct (Ht q Hq) as [Hlt Hne]. split; [lia|].
      destruct Hr as [->|[->|[-> _]]]; try assumption; try discriminate.
      intros E. injection E as E. lia.
    + intros p Hp. destruct Hr as [->|[->|[-> ->]]]; try discriminate.
      * specialize (Hh p Hp). lia.
      * injection Hp as <-. lia.
  - split; [|split].
    + apply NoDup_app; [exact Hd | repeat constructor; auto |].
      intros q Hq [E|[]]. subst q. now destruct (Ht p Hq).
    + intros q Hq. split; [|discriminate].
      apply in_app_or in Hq as [Hq|[<-|[]]].
      * destruct (Ht q Hq). lia.
      * specialize (Hh p Hp). lia.
    + discriminate.
Qed.

Lemma cleanupAudio_processor (k : continuation) (s : session) :
  one_teardown (processorRef s) (processorRef (cleanupAudio k s))
    (length (processors s)) (length (processors (cleanupAudio k s)))
    (pick disconnects (log s)) (pick disconnects (log (cleanupAudio k s))).
Proof.
  unfold one_teardown, cleanupAudio, run_continuation, stop_finalize,
    cleanup_tail, clearVadInterval, socket_open, emit.
  repeat (break_match; cbn).
  all: rewrite ?pick_app; cbn [pick disconnects];
    rewrite ?app_nil_r, ?length_replace_nth.
  all: split; [apply Nat.le_refl|].
  all: first [ left; split; [reflexivity|]; now left
             | right; eexists; repeat split; reflexivity ].
Qed.

Lemma cleanupAudio_stream (k : continuation) (s : session) :
  one_teardown (streamRef s) (streamRef (cleanupAudio k s))
    (length (processors s)) (length (processors (cleanupAudio k s)))
    (pick stops_tracks (log s)) (pick stops_tracks (log (cleanupAudio k s))).
Proof.
  unfold one_teardown, cleanupAudio, run_continuation, stop_finalize,
    cleanup_tail, clearVadInterval, socket_open, emit.
  repeat (break_match; cbn).
  all: rewrite ?pick_app; cbn [pick stops_tracks];
    rewrite ?app_nil_r, ?length_replace_nth.
  all: split; [apply Nat.le_refl|].
  all: first [ left; split; [reflexivity|]; now left
             | right; eexists; repeat split; first [reflexivity | assumption] ].
Qed.

Lemma resume_cleanup_processor (i : nat) (s : session) :
  one_teardown (processorRef s) (processorRef (resume_cleanup i s))
    (length (processors s)) (length (processors (resume_cleanup i s)))
    (pick disconnects (log s))
    (pick disconnects (log (resume_cleanup i s))).
Proof.
  unfold one_teardown, resume_cleanup, run_continuation, stop_finalize,
    cleanup_tail, clearVadInterval, socket_open, emit.
  repeat (break_match; cbn).
  all: rewrite ?pick_app; cbn [pick disconnects]; rewrite ?app_nil_r.
  all: split; [apply Nat.le_refl|].
  all: left; split; [reflexivity|]; now left.
Qed.

Lemma resume_cleanup_stream (i : nat) (s : session) :
  one_teardown (streamRef s) (streamRef (resume_cleanup i s))
    (length (processors s)) (length (processors (resume_cleanup i s)))
    (pick stops_tracks (log s))
    (pick stops_tracks (log (resume_cleanup i s))).
Proof.
  unfold one_teardown, resume_cleanup, run_continuation, stop_finalize,
    cleanup_tail, clearVadInterval, socket_open, emit.
  repeat (break_match; cbn).
  all: rewrite ?pick_app; cbn [pick stops_tracks]; rewrite ?app_nil_r.
  all: split; [apply Nat.le_refl|].
  all: first [ left; split; [reflexivity|]; now left
             | right; eexists; repeat split; first [reflexivity | assumption] ].
Qed.

Lemma settle_torn (p : nat) (text : jsstring) (s : session) :
  pick disconnects (log (settle p text s)) = pick disconnects (log s) /\
  pick stops_tracks (log (settle p text s)) = pick stops_tracks (log s).
Proof.
  unfold settle, socket_open, emit.
  repeat (break_match; cbn);
    rewrite ?pick_app; cbn [pick disconnects stops_tracks];
    rewrite ?app_nil_r; split; reflexivity.
Qed.

Lemma settle_once (p : nat) (text : jsstring) (s : session) :
  (processor_once s -> processor_once (settle p text s)) /\
  (stream_once s -> stream_once (settle p text s)).
Proof.
  unfold processor_once, stream_once.
  destruct (settle_torn p text s) as [-> ->]. frames. now split.
Qed.

Lemma cleanupAudio_once (k : continuation) (s : session) :
  (processor_once s -> processor_once (cleanupAudio k s)) /\
  (stream_once s -> stream_once (cleanupAudio k s)).
Proof.
  split; apply teardown_keeps;
    [apply cleanupAudio_processor | apply cleanupAudio_stream].
Qed.

Lemma resume_cleanup_once (i : nat) (s : session) :
  (processor_once s -> processor_once (resume_cleanup i s)) /\
  (stream_once s -> stream_once (resume_cleanup i s)).
Proof.
  split; apply teardown_keeps;
    [apply resume_cleanup_processor | apply resume_cleanup_stream].
Qed.

(** Taking a new node and stream. *)
Lemma held_once_take (ref : option nat) (n : nat) (torn : list nat) :
  held_once ref n torn -> held_once (Some n) (S n) torn.
Proof.
  apply teardown_keeps. split; [lia|]. left. split; [reflexivity|].
  right. right. now split.
Qed.

Lemma step_once (s : session) (e : event) :
  processor_once s /\ stream_once s ->
  processor_once (step s e) /\ stream_once (step s e).
Proof.
  intros [Hp Hs]. destruct e; cbn [step]; outer.
  all: repeat (break_match; cbn).
  all: repeat match goal with
         | |- _ /\ _ => split
         | |- processor_once (settle _ _ _) => apply settle_once
         | |- stream_once (settle _ _ _) => apply settle_once
         | |- processor_once (cleanupAudio _ _) => apply cleanupAudio_once
         | |- stream_once (cleanupAudio _ _) => apply cleanupAudio_once
         | |- processor_once (resume_cleanup _ _) => apply resume_cleanup_once
         | |- stream_once (resume_cleanup _ _) => apply resume_cleanup_once
         end.
  all: unfold processor_once, stream_once in *; cbn;
    rewrite ?pick_app; cbn [pick disconnects stops_tracks];
    rewrite ?app_nil_r; try assumption.
  all: rewrite length_app, Nat.add_1_r; eapply held_once_take; eassumption.
Qed.

(** X28. The hook lets go of each audio node and each stream once: in
    any run of either variant, no processor is disconnected twice and
    the tracks of no stream are stopped twice, however stops, closes and
    errors interleave. *)
Theorem teardown_once (h : variant) (vadEnabled : bool) (vadSilenceMs : Z)
    (vadThreshold : Q) (events : list event) :
  NoDup (pick disconnects
           (log (run (init h vadEnabled vadSilenceMs vadThreshold) events))) /\
  NoDup (pick stops_tracks
           (log (run (init h vadEnabled vadSilenceMs vadThreshold) events))).
Proof.
  assert (H : forall s,
             processor_once s /\ stream_once s ->
             processor_once (run s events) /\ stream_once (run s events)).
  { induction events as [|e events IH]; intros s Hs; [exact Hs|].
    apply (IH (step s e)). now apply step_once. }
  destruct (H (init h vadEnabled vadSilenceMs vadThreshold)) as [Hp Hs].
  - split; (split; [constructor|]; split;
            [intros q [] | intros p Hp; discriminate]).
  - split; [apply Hp | apply Hs].
Qed.

End SessionProps.

(** * Properties of the chat input *)

Module ChatInputProps.
Import JsString Session ChatInput String.StringSyntax.
Import MergeProps.

Lemma truthy_trim (s : jsstring) : truthy (trim s) = negb (blank s).
Proof.
  destruct (blank s) eqn:Hb.
  - apply trim_blank in Hb. now rewrite Hb.
  - destruct (trim s) eqn:Ht; [|reflexivity].
    apply trim_blank in Ht. congruence.
Qed.

Lemma sent_app (l l' : list action) : sent (l ++ l') = sent l ++ sent l'.
Proof.
  induction l as [|a l IH]; [reflexivity|].
  destruct a; simpl; now rewrite ?IH.
Qed.

Lemma step_sent (c : chat) (e : ChatInput.event) :
  exists new,
    sent (done (ChatInput.step c e)) = sent (done c) ++ new /\
    Forall (fun text => blank text = false) new.
Proof.
  destruct e as [recording value|running|key shift running|running recording
                |finalText| |enabled]; cbn [ChatInput.step].
  - exists []. unfold onChange. rewrite app_nil_r.
    destruct (negb recording); split; auto.
  - unfold handleSubmit. rewrite truthy_trim, negb_involutive.
    destruct (blank (input c)) eqn:Hb; cbn [orb].
    + exists []. rewrite app_nil_r. split; auto.
    + destruct running.
      * exists []. rewrite app_nil_r. split; auto.
      * exists [input c]. cbn. rewrite sent_app. split; auto.
  - unfold handleKeyDown, handleSubmit.
    rewrite truthy_trim, negb_involutive.
    destruct (jsstring_eqb key (js "Enter") && negb shift).
    + destruct (blank (input c)) eqn:Hb; cbn [orb].
      * exists []. rewrite app_nil_r. split; auto.
      * destruct running.
        -- exists []. rewrite app_nil_r. split; auto.
        -- exists [input c]. cbn. rewrite sent_app. split; auto.
    + exists []. rewrite app_nil_r. split; auto.
  - exists []. unfold handleMicClick. rewrite app_nil_r.
    destruct running, recording; cbn; rewrite ?sent_app; cbn;
      rewrite ?app_nil_r; split; auto.
  - unfold stop_returned. destruct (awaitingStop c).
    + exists []. rewrite app_nil_r. split; auto.
    + rewrite truthy_trim. destruct (blank finalText) eqn:Hb; cbn.
      * exists []. rewrite app_nil_r. split; auto.
      * exists [finalText]. rewrite !sent_app. cbn.
        rewrite app_nil_r. split; auto.
  - exists []. unfold send_resolved. rewrite app_nil_r.
    destruct (awaitingSend c); split; auto.
  - exists []. unfold toggleVoiceOutput. cbn. rewrite sent_app. cbn.
    split; auto.
Qed.

(** X29. The chat input never sends a blank message to the agent:
    whatever is typed, clicked or dictated, every text it passes to
    [sendMessage] holds a character that is not whitespace. *)
Theorem never_sends_blank (events : list ChatInput.event) :
  Forall (fun text => blank text = false)
    (sent (done (ChatInput.run mount events))).
Proof.
  assert (H : forall c,
             Forall (fun text => blank text = false) (sent (done c)) ->
             Forall (fun text => blank text = false)
               (sent (done (ChatInput.run c events)))).
  { induction events as [|e events IH]; intros c Hc; [exact Hc|].
    apply (IH (ChatInput.step c e)).
    destruct (step_sent c e) as [new [-> Hn]].
    apply Forall_app. now split. }
  apply H. constructor.
Qed.

Lemma stop_returns_In (l : list effect) (call : nat) (text : jsstring) :
  In (call, text) (stop_returns l) -> In (StopReturn call text) l.
Proof.
  induction l as [|e l IH]; [contradiction|].
  destruct e; cbn [stop_returns]; intros H;
    try (right; exact (IH H)).
  destruct H as [H|H]; [left; congruence | right; exact (IH H)].
Qed.

(** What a [stopRecording] call of the hook returns is trimmed. *)
Lemma returned_text_trimmed (h : variant) (vadEnabled : bool)
    (vadSilenceMs : Z) (vadThreshold : Q) (events : list Session.event)
    (call : nat) (text : jsstring) :
  In (call, text)
    (stop_returns
       (log (Session.run (init h vadEnabled vadSilenceMs vadThreshold)
               events))) ->
  trimmed text.
Proof.
  intros H. apply stop_returns_In in H.
  destruct (SessionProps.run_log
              (fun e => forall t, final_text e = Some t -> trimmed t))
    with (events := events) (l := @nil effect)
         (s := init h vadEnabled vadSilenceMs vadThreshold)
    as [new [E Hn]].
  - intros e He t Ht. congruence.
  - intros e t He t' Ht. rewrite He in Ht. injection Ht as <-.
    split; [apply trim_leading | apply trim_trailing].
  - apply SessionProps.ext_refl.
  - cbn [app] in E. rewrite E in H.
    exact (proj1 (Forall_forall _ _) Hn _ H text eq_refl).
Qed.

(** X30. Dictation leaves the input box empty. When the click that ends
    a recording gets its text from the hook, a text that is not empty is
    sent to the agent as it is, after voice output is switched on, and an
    empty one sends nothing; either way the input box is empty once the
    message, if any, has gone out. *)
Theorem dictation_clears_input (h : variant) (vadEnabled : bool)
    (vadSilenceMs : Z) (vadThreshold : Q) (events : list Session.event)
    (call : nat) (text : jsstring) (c : chat) :
  In (call, text)
    (stop_returns
       (log (Session.run (init h vadEnabled vadSilenceMs vadThreshold)
               events))) ->
  awaitingStop c <> 0%nat ->
  input (ChatInput.run c [StopRecordingReturned text; SendMessageResolved])
  = [] /\
  done (ChatInput.run c [StopRecordingReturned text; SendMessageResolved])
  = done c
    ++ (if truthy text
        then [SetVoiceOutputEnabled true; SendMessage text]
        else []).
Proof.
  intros Hin Hc. apply returned_text_trimmed in Hin as [Hl Ht].
  rewrite <- (trim_id text Hl Ht) at 3.
  cbn [ChatInput.run fold_left ChatInput.step]. unfold stop_returned.
  destruct (awaitingStop c) as [|n]; [congruence|].
  destruct (truthy (trim text)) eqn:Htr; cbn.
  - rewrite <- app_assoc. split; reflexivity.
  - rewrite app_nil_r. rewrite (trim_id text Hl Ht) in Htr.
    apply truthy_false in Htr. subst text.
    unfold send_resolved. cbn. destruct (awaitingSend c); split; reflexivity.
Qed.

Lemma dictation_clears_input_witness :
  let c := ChatInput.run mount [Change false (js "draft"); MicClick false true] in
  input (ChatInput.run c [StopRecordingReturned (js "hello");
                          SendMessageResolved]) = [] /\
  done (ChatInput.run c [StopRecordingReturned (js "hello");
                         SendMessageResolved])
  = [CallStopRecording; SetVoiceOutputEnabled true; SendMessage (js "hello")].
Proof.
  intros c.
  apply (dictation_clears_input WithVad false DEFAULT_VAD_SILENCE_MS
           DEFAULT_VAD_THRESHOLD
           (heard_hello ++ [StopRecording Manual; AudioContextClosed 0;
                            FinalizeTimeout 0])
           0%nat (js "hello") c).
  - vm_compute. left. reflexivity.
  - discriminate.
Defined.

End ChatInputProps.
